(** * The encrypted, chunk-framed write-ahead log of twinstore's LotusDB

    A shallow embedding of [lotusdb/wal] (segment files, the nonce file and
    the WAL built on them) together with the properties its specification
    states about it.

    Conventions of the embedding.
    - A Go [byte] is a [Z] in [0, 256); a [[]byte] is a [list Z].
    - [uint32], [uint16] and [uint64] arithmetic is written with its
      wrap-around ([u32], [u16], [u64]); [int64] results that are stored
      or compared go through [i64].
    - An [*os.File] is a [File]: its bytes, how many of them a successful
      [Sync] has made durable, and whether the device accepts writes.
    - Every method takes the receiver's state and returns the new state
      next to a [result]: a value, a Go [error], or a run-time panic. *)

From Stdlib Require Import ZArith List Bool Lia ZifyBool.
From stdpp Require Import base list gmap sorting.
Import ListNotations.

Local Open Scope Z_scope.

(** [lia] also decides goals with division and remainder by constants. *)
Ltac Zify.zify_post_hook ::= Z.div_mod_to_equations.

(** ** Machine integers *)

Definition u16 (x : Z) : Z := x mod 2 ^ 16.
Definition u32 (x : Z) : Z := x mod 2 ^ 32.
Definition u64 (x : Z) : Z := x mod 2 ^ 64.
Definition i64 (x : Z) : Z := (x + 2 ^ 63) mod 2 ^ 64 - 2 ^ 63.

(** [len(s)] of a slice, as a Go [int]. *)
Definition len {A} (l : list A) : Z := Z.of_nat (length l).

(** [s[lo:hi]] for in-range bounds. *)
Definition slice {A} (l : list A) (lo hi : Z) : list A :=
  take (Z.to_nat (hi - lo)) (drop (Z.to_nat lo) l).

(** A slice expression [s[lo:hi]] on a slice of capacity [len s] panics
    unless [0 <= lo <= hi <= cap(s)]. *)
Definition slice_ok {A} (l : list A) (lo hi : Z) : bool :=
  (0 <=? lo) && (lo <=? hi) && (hi <=? len l).

(** ** Constants (segment.go, options.go) *)

Definition KB : Z := 1024.
Definition MB : Z := 1024 * KB.
Definition GB : Z := 1024 * MB.

Definition ChunkTypeFull : Z := 0.
Definition ChunkTypeFirst : Z := 1.
Definition ChunkTypeMiddle : Z := 2.
Definition ChunkTypeLast : Z := 3.

Definition chunkHeaderSize : Z := 7.
Definition blockSize : Z := 32 * KB.
Definition MaxVarintLen32 : Z := 5.
Definition MaxVarintLen64 : Z := 10.
Definition maxLen : Z := MaxVarintLen32 * 3 + MaxVarintLen64.
Definition nonceSize : Z := 12.
Definition initialSegmentFileID : Z := 1.

(** ** encoding/binary: little-endian fixed-width integers *)

Definition PutUint16 (v : Z) : list Z := [v mod 256; (v / 256) mod 256].
Definition PutUint32 (v : Z) : list Z :=
  [v mod 256; (v / 256) mod 256; (v / 65536) mod 256; (v / 16777216) mod 256].

Definition byteAt (b : list Z) (i : nat) : Z := nth i b 0.

Definition Uint16 (b : list Z) : Z :=
  Z.lor (byteAt b 0) (Z.shiftl (byteAt b 1) 8).
Definition Uint32 (b : list Z) : Z :=
  Z.lor (Z.lor (Z.lor (byteAt b 0) (Z.shiftl (byteAt b 1) 8))
               (Z.shiftl (byteAt b 2) 16))
        (Z.shiftl (byteAt b 3) 24).

(** ** hash/crc32 with the IEEE polynomial (reflected, 0xedb88320) *)

Definition IEEE : Z := 0xedb88320.

Definition crcBit (c : Z) : Z :=
  if Z.testbit c 0 then Z.lxor (Z.shiftr c 1) IEEE else Z.shiftr c 1.

(** One entry of [crc32.IEEETable], as [simpleMakeTable] fills it. *)
Definition tableEntry (i : Z) : Z :=
  crcBit (crcBit (crcBit (crcBit (crcBit (crcBit (crcBit (crcBit i))))))).

Definition IEEETable : list Z :=
  Eval vm_compute in map (fun n => tableEntry (Z.of_nat n)) (seq 0 256).

Definition tab (i : Z) : Z := nth (Z.to_nat i) IEEETable 0.

(** The loop body of [simpleUpdate]: [crc = tab[byte(crc)^v] ^ (crc >> 8)]. *)
Definition crcStep (crc v : Z) : Z :=
  Z.lxor (tab (Z.land (Z.lxor crc v) 255)) (Z.shiftr crc 8).

Definition crcNot (crc : Z) : Z := Z.lxor crc 0xffffffff.

(** [crc32.Update(crc, crc32.IEEETable, p)]. *)
Definition Update (crc : Z) (p : list Z) : Z :=
  crcNot (fold_left crcStep p (crcNot crc)).

(** [crc32.ChecksumIEEE(p)]. *)
Definition ChecksumIEEE (p : list Z) : Z := Update 0 p.

Example crc32_check :
  ChecksumIEEE [49; 50; 51; 52; 53; 54; 55; 56; 57] = 0xcbf43926.
Proof. vm_compute. reflexivity. Qed.

(** ** Errors and results *)

Inductive error : Type :=
| ErrClosed               (* "the segment file is closed" *)
| ErrInvalidCRC           (* "invalid crc, the data may be corrupted" *)
| ErrValueTooLarge        (* "the data size can't larger than segment size" *)
| ErrPendingSizeTooLarge  (* "the upper bound of pendingWrites ..." *)
| EOF                     (* io.EOF *)
| ErrIO                   (* an error of the operating system *)
| ErrWrongChunkSize       (* "wrong!!! the chunk size ... buffer len" *)
| ErrBlockSizeExceeds     (* "the current block size exceeds ..." *)
| ErrSegmentNotFound      (* "segment file %d%s not found" *)
| ErrNonceIncomplete      (* "nonce is incomplete" *)
| ErrStartPosNil.         (* "start position is nil" *)

(** What a call produces: a value, a Go [error], a run-time panic, or
    [NoFuel] when the bound given to a loop of the model was too small. *)
Inductive result (A : Type) : Type :=
| Ok (a : A)
| Err (e : error)
| Panic
| NoFuel.
Arguments Ok {A} a.
Arguments Err {A} e.
Arguments Panic {A}.
Arguments NoFuel {A}.

Definition error_eqb (a b : error) : bool :=
  match a, b with
  | ErrClosed, ErrClosed | ErrInvalidCRC, ErrInvalidCRC
  | ErrValueTooLarge, ErrValueTooLarge
  | ErrPendingSizeTooLarge, ErrPendingSizeTooLarge
  | EOF, EOF | ErrIO, ErrIO | ErrWrongChunkSize, ErrWrongChunkSize
  | ErrBlockSizeExceeds, ErrBlockSizeExceeds
  | ErrSegmentNotFound, ErrSegmentNotFound
  | ErrNonceIncomplete, ErrNonceIncomplete
  | ErrStartPosNil, ErrStartPosNil => true
  | _, _ => false
  end.

(** ** Files *)

(** [fbytes] is the content, [fsynced] the length of the prefix that the
    last successful [Sync] made durable, [fhealthy] tells whether the
    device accepts writes and syncs (a full or failing disk does not). *)
Record File : Type := mkFile {
  fbytes : list Z;
  fsynced : Z;
  fhealthy : bool
}.

Definition emptyFile : File := mkFile [] 0 true.

(** [fd.Write(p)] on a file opened with [O_APPEND]. *)
Definition fileWrite (f : File) (p : list Z) : File * option error :=
  if fhealthy f then (mkFile (fbytes f ++ p) (fsynced f) true, None)
  else (f, Some ErrIO).

(** [fd.Sync()]. *)
Definition fileSync (f : File) : File * option error :=
  if fhealthy f then (mkFile (fbytes f) (len (fbytes f)) true, None)
  else (f, Some ErrIO).

(** [fd.ReadAt(b, off)] with [len(b) = n]: the bytes obtained and the
    error, which is [io.EOF] whenever fewer than [n] bytes were there. *)
Definition fileReadAt (f : File) (n off : Z) : list Z * option error :=
  if off <? 0 then ([], Some ErrIO)
  else
    let got := take (Z.to_nat n) (drop (Z.to_nat off) (fbytes f)) in
    (got, if len got <? n then Some EOF else None).

(** [fd.Seek(0, io.SeekEnd)]. *)
Definition fileSeekEnd (f : File) : Z := len (fbytes f).

(** The bytes [ReadAt] obtained overwrite the front of the buffer. *)
Definition copyInto (buf got : list Z) : list Z :=
  got ++ drop (length got) buf.

(** ** Segments (segment.go) *)

Record startupBlock : Type := mkStartupBlock {
  sbBlock : list Z;
  sbBlockNumber : Z
}.

(** The 7-byte [header] scratch buffer of the Go struct is overwritten in
    full by every [appendChunkBuffer] before it is read, so it carries no
    state and is left out. *)
Record segment : Type := mkSegment {
  id : Z;
  fd : File;
  currentBlockNumber : Z;
  currentBlockSize : Z;
  closed : bool;
  startup : startupBlock;
  isStartupTraversal : bool
}.

Record segmentReader : Type := mkSegmentReader {
  rdSegment : segment;
  rdBlockNumber : Z;
  rdChunkOffset : Z
}.

Record ChunkPosition : Type := mkPos {
  SegmentId : Z;
  BlockNumber : Z;
  ChunkOffset : Z;
  ChunkSize : Z;
  ValueNum : Z
}.

Definition setCounters (seg : segment) (bn bs : Z) : segment :=
  mkSegment (id seg) (fd seg) bn bs (closed seg) (startup seg)
            (isStartupTraversal seg).

Definition setFd (seg : segment) (f : File) : segment :=
  mkSegment (id seg) f (currentBlockNumber seg) (currentBlockSize seg)
            (closed seg) (startup seg) (isStartupTraversal seg).

Definition setStartup (seg : segment) (sb : startupBlock) : segment :=
  mkSegment (id seg) (fd seg) (currentBlockNumber seg) (currentBlockSize seg)
            (closed seg) sb (isStartupTraversal seg).

Definition setIsStartupTraversal (seg : segment) (v : bool) : segment :=
  mkSegment (id seg) (fd seg) (currentBlockNumber seg) (currentBlockSize seg)
            (closed seg) (startup seg) v.

Definition setChunkSize (p : ChunkPosition) (v : Z) : ChunkPosition :=
  mkPos (SegmentId p) (BlockNumber p) (ChunkOffset p) v (ValueNum p).

Definition setValueNum (p : ChunkPosition) (v : Z) : ChunkPosition :=
  mkPos (SegmentId p) (BlockNumber p) (ChunkOffset p) (ChunkSize p) v.

(** [openSegmentFile]: [existing] is the file of that name if the
    directory has one ([O_CREATE] makes an empty one otherwise). *)
Definition openSegmentFile (existing : option File) (id : Z) : segment :=
  let f := match existing with Some f => f | None => emptyFile end in
  let offset := fileSeekEnd f in
  mkSegment id f (u32 (offset / blockSize)) (u32 (offset mod blockSize))
            false (mkStartupBlock (repeat 0 (Z.to_nat blockSize)) (-1)) false.

(** [segment.NewReader]. *)
Definition segNewReader (seg : segment) : segmentReader :=
  mkSegmentReader seg 0 0.

(** [segment.Sync]. *)
Definition segSync (seg : segment) : segment * option error :=
  if closed seg then (seg, None)
  else let '(f, e) := fileSync (fd seg) in (setFd seg f, e).

(** [segment.Size]. *)
Definition Size (seg : segment) : Z :=
  let size := currentBlockNumber seg * blockSize in
  size + currentBlockSize seg.

(** [segment.appendChunkBuffer]: the framed chunk appended to [buf]. *)
Definition chunkHeader (data : list Z) (chunkType : Z) : list Z :=
  let lenType := PutUint16 (u16 (len data)) ++ [chunkType] in
  let sum := ChecksumIEEE lenType in
  let sum := Update sum data in
  PutUint32 sum ++ lenType.

Definition appendChunkBuffer (buf data : list Z) (chunkType : Z) : list Z :=
  (buf ++ chunkHeader data chunkType) ++ data.

(** A record of one [appendChunkBuffer] call of [writeToBuffer]: the
    in-block cursor at which the chunk starts, its type and its payload.
    The Go code keeps no such list; it is kept here so that properties of
    "every chunk emitted" can be stated. *)
Record chunkRec : Type := mkChunk {
  ckOffset : Z;
  ckType : Z;
  ckPayload : list Z
}.

(** The [for leftSize > 0] loop of [writeToBuffer]. *)
Fixpoint writeChunks (fuel : nat) (data : list Z)
    (dataSize leftSize blockCount currBlockSize : Z)
    (buf : list Z) (log : list chunkRec)
    : option (Z * list Z * list chunkRec) :=
  if leftSize >? 0 then
    match fuel with
    | O => None
    | S fuel' =>
        let chunkSize := u32 (blockSize - currBlockSize - chunkHeaderSize) in
        let chunkSize := if chunkSize >? leftSize then leftSize else chunkSize in
        let end_ := u32 (dataSize - leftSize + chunkSize) in
        let end_ := if end_ >? dataSize then dataSize else end_ in
        let chunkType :=
          if leftSize =? dataSize then ChunkTypeFirst
          else if leftSize =? chunkSize then ChunkTypeLast
          else ChunkTypeMiddle in
        let payload := slice data (u32 (dataSize - leftSize)) end_ in
        let buf := appendChunkBuffer buf payload chunkType in
        writeChunks fuel' data dataSize
          (u32 (leftSize - chunkSize))
          (u32 (blockCount + 1))
          (u32 (currBlockSize + chunkSize + chunkHeaderSize) mod blockSize)
          buf (log ++ [mkChunk currBlockSize chunkType payload])
    end
  else Some (blockCount, buf, log).

(** What [writeToBuffer] hands back: the position, the chunk buffer, and
    (for the statements below) the padding it inserted and the chunks it
    appended. *)
Record framed : Type := mkFramed {
  frPos : ChunkPosition;
  frBuf : list Z;
  frPadding : Z;
  frChunks : list chunkRec
}.

(** [segment.writeToBuffer]. *)
Definition writeToBuffer (seg : segment) (data chunkBuffer : list Z)
    : segment * result framed :=
  let startBufferLen := len chunkBuffer in
  if closed seg then (seg, Err ErrClosed)
  else
    let '(seg, chunkBuffer, padding) :=
      if (u32 (currentBlockSize seg + chunkHeaderSize) >=? blockSize)
         && (currentBlockSize seg <? blockSize)
      then (setCounters seg (u32 (currentBlockNumber seg + 1)) 0,
            chunkBuffer ++ repeat 0 (Z.to_nat (blockSize - currentBlockSize seg)),
            u32 (blockSize - currentBlockSize seg))
      else (seg, chunkBuffer, 0) in
    let position :=
      mkPos (id seg) (currentBlockNumber seg) (currentBlockSize seg) 0 0 in
    let dataSize := u32 (len data) in
    let framing :=
      if u32 (currentBlockSize seg + dataSize + chunkHeaderSize) <=? blockSize
      then Some (u32 (dataSize + chunkHeaderSize),
                 appendChunkBuffer chunkBuffer data ChunkTypeFull,
                 [mkChunk (currentBlockSize seg) ChunkTypeFull data])
      else
        match writeChunks (S (length data)) data dataSize dataSize 0
                          (currentBlockSize seg) chunkBuffer [] with
        | Some (blockCount, buf, log) =>
            Some (u32 (blockCount * chunkHeaderSize + dataSize), buf, log)
        | None => None
        end in
    match framing with
    | None => (seg, NoFuel)
    | Some (chunkSize, chunkBuffer, log) =>
        let position := setChunkSize position chunkSize in
        let endBufferLen := len chunkBuffer in
        if negb (u32 (chunkSize + padding) =? u32 (endBufferLen - startBufferLen))
        then (seg, Err ErrWrongChunkSize)
        else
          let cbs := u32 (currentBlockSize seg + chunkSize) in
          let seg :=
            if cbs >=? blockSize
            then setCounters seg (u32 (currentBlockNumber seg + cbs / blockSize))
                                 (cbs mod blockSize)
            else setCounters seg (currentBlockNumber seg) cbs in
          (seg, Ok (mkFramed position chunkBuffer padding log))
    end.

(** [segment.writeChunkBuffer]. *)
Definition writeChunkBuffer (seg : segment) (buf : list Z)
    : segment * option error :=
  if currentBlockSize seg >? blockSize then (seg, Some ErrBlockSizeExceeds)
  else
    match fileWrite (fd seg) buf with
    | (f, Some e) => (setFd seg f, Some e)
    | (f, None) =>
        (setStartup (setFd seg f) (mkStartupBlock (sbBlock (startup seg)) (-1)),
         None)
    end.

(** [segment.Write]; the deferred function restores the counters when the
    call fails. *)
Definition segWrite (seg : segment) (data : list Z)
    : segment * result framed :=
  if closed seg then (seg, Err ErrClosed)
  else
    let originBlockNumber := currentBlockNumber seg in
    let originBlockSize := currentBlockSize seg in
    match writeToBuffer seg data [] with
    | (seg, Ok fr) =>
        match writeChunkBuffer seg (frBuf fr) with
        | (seg, Some e) =>
            (setCounters seg originBlockNumber originBlockSize, Err e)
        | (seg, None) => (seg, Ok fr)
        end
    | (seg, Err e) => (setCounters seg originBlockNumber originBlockSize, Err e)
    | (seg, Panic) => (seg, Panic)
    | (seg, NoFuel) => (seg, NoFuel)
    end.

(** The loop of [segment.writeAll] over the batch. *)
Fixpoint writeAllLoop (seg : segment) (data : list (list Z))
    (chunkBuffer : list Z) (positions : list ChunkPosition)
    : segment * result (list ChunkPosition * list Z) :=
  match data with
  | [] => (seg, Ok (positions, chunkBuffer))
  | d :: data' =>
      match writeToBuffer seg d chunkBuffer with
      | (seg, Ok fr) =>
          writeAllLoop seg data' (frBuf fr) (positions ++ [frPos fr])
      | (seg, Err e) => (seg, Err e)
      | (seg, Panic) => (seg, Panic)
      | (seg, NoFuel) => (seg, NoFuel)
      end
  end.

(** [segment.writeAll]. *)
Definition segWriteAll (seg : segment) (data : list (list Z))
    : segment * result (list ChunkPosition) :=
  if closed seg then (seg, Err ErrClosed)
  else
    let originBlockNumber := currentBlockNumber seg in
    let originBlockSize := currentBlockSize seg in
    match writeAllLoop seg data [] [] with
    | (seg, Ok (positions, chunkBuffer)) =>
        match writeChunkBuffer seg chunkBuffer with
        | (seg, Some e) =>
            (setCounters seg originBlockNumber originBlockSize, Err e)
        | (seg, None) => (seg, Ok positions)
        end
    | (seg, Err e) => (setCounters seg originBlockNumber originBlockSize, Err e)
    | (seg, Panic) => (seg, Panic)
    | (seg, NoFuel) => (seg, NoFuel)
    end.

(** [getBuffer()]: [pool] is whatever buffer the process-wide [sync.Pool]
    hands out; its content is left over from earlier use. *)
Definition getBuffer (pool : list Z) : list Z := pool.

(** The [for] loop of [segment.readInternal].  [sbn] is
    [seg.startupBlock.blockNumber] and [block] the buffer in use, which
    in startup traversal is [seg.startupBlock.block] itself. *)
Fixpoint readChunks (fuel : nat) (seg : segment) (sbn : Z) (block : list Z)
    (segSize blockNumber chunkOffset : Z) (acc : list Z)
    : Z * list Z * result (list Z * ChunkPosition) :=
  match fuel with
  | O => (sbn, block, NoFuel)
  | S fuel' =>
      let size := blockSize in
      let offset := blockNumber * blockSize in
      let size := if size + offset >? segSize then segSize - offset else size in
      if chunkOffset >=? size then (sbn, block, Err EOF)
      else
        let mustRead :=
          if isStartupTraversal seg
          then negb (sbn =? blockNumber) || negb (size =? blockSize)
          else true in
        let fetched : Z * list Z * result unit :=
          if mustRead then
            if slice_ok block 0 size then
              match fileReadAt (fd seg) size offset with
              | (got, Some e) => (sbn, copyInto block got, Err e)
              | (got, None) =>
                  (if isStartupTraversal seg then blockNumber else sbn,
                   copyInto block got, Ok tt)
              end
            else (sbn, block, Panic)
          else (sbn, block, Ok tt) in
        match fetched with
        | (sbn, block, Ok _) =>
            if slice_ok block chunkOffset (chunkOffset + chunkHeaderSize) then
              let header := slice block chunkOffset (chunkOffset + chunkHeaderSize) in
              let length := Uint16 (slice header 4 6) in
              let start := chunkOffset + chunkHeaderSize in
              if slice_ok block start (start + length) then
                let acc := acc ++ slice block start (start + length) in
                let checksumEnd := chunkOffset + chunkHeaderSize + length in
                let checksum :=
                  ChecksumIEEE (slice block (chunkOffset + 4) checksumEnd) in
                let savedSum := Uint32 (slice header 0 4) in
                if negb (savedSum =? checksum) then (sbn, block, Err ErrInvalidCRC)
                else
                  let chunkType := byteAt header 6 in
                  if (chunkType =? ChunkTypeFull) || (chunkType =? ChunkTypeLast)
                  then
                    let nextChunk :=
                      if checksumEnd + chunkHeaderSize >=? blockSize
                      then mkPos (id seg) (u32 (blockNumber + 1)) 0 0 0
                      else mkPos (id seg) blockNumber checksumEnd 0 0 in
                    (sbn, block, Ok (acc, nextChunk))
                  else
                    readChunks fuel' seg sbn block segSize
                               (u32 (blockNumber + 1)) 0 acc
              else (sbn, block, Panic)
            else (sbn, block, Panic)
        | (sbn, block, Err e) => (sbn, block, Err e)
        | (sbn, block, Panic) => (sbn, block, Panic)
        | (sbn, block, NoFuel) => (sbn, block, NoFuel)
        end
  end.

(** The loop reads at most one chunk per block of the segment, so this
    many rounds are enough. *)
Definition readFuel (seg : segment) : nat :=
  S (S (Z.to_nat (Size seg / blockSize))).

(** [segment.readInternal]. *)
Definition readInternal (pool : list Z) (seg : segment)
    (blockNumber chunkOffset : Z)
    : segment * result (list Z * ChunkPosition) :=
  if closed seg then (seg, Err ErrClosed)
  else
    let segSize := Size seg in
    let block :=
      if isStartupTraversal seg then sbBlock (startup seg)
      else
        let block := getBuffer pool in
        if negb (len block =? blockSize) then repeat 0 (Z.to_nat blockSize)
        else block in
    let '(sbn, block, r) :=
      readChunks (readFuel seg) seg (sbBlockNumber (startup seg)) block
                 segSize blockNumber chunkOffset [] in
    (if isStartupTraversal seg then setStartup seg (mkStartupBlock block sbn)
     else seg, r).

(** [segment.Read]. *)
Definition segRead (pool : list Z) (seg : segment) (blockNumber chunkOffset : Z)
    : segment * result (list Z) :=
  match readInternal pool seg blockNumber chunkOffset with
  | (seg, Ok (value, _)) => (seg, Ok value)
  | (seg, Err e) => (seg, Err e)
  | (seg, Panic) => (seg, Panic)
  | (seg, NoFuel) => (seg, NoFuel)
  end.

(** [segmentReader.Next]. *)
Definition segReaderNext (pool : list Z) (r : segmentReader)
    : segmentReader * result (list Z * ChunkPosition) :=
  if closed (rdSegment r) then (r, Err ErrClosed)
  else
    let chunkPosition :=
      mkPos (id (rdSegment r)) (rdBlockNumber r) (rdChunkOffset r) 0 0 in
    match readInternal pool (rdSegment r) (rdBlockNumber r) (rdChunkOffset r) with
    | (seg, Ok (value, nextChunk)) =>
        let chunkPosition :=
          setChunkSize chunkPosition
            (u32 (BlockNumber nextChunk * blockSize + u32 (ChunkOffset nextChunk)
                  - (rdBlockNumber r * blockSize + u32 (rdChunkOffset r)))) in
        (mkSegmentReader seg (BlockNumber nextChunk) (ChunkOffset nextChunk),
         Ok (value, chunkPosition))
    | (seg, Err e) => (mkSegmentReader seg (rdBlockNumber r) (rdChunkOffset r), Err e)
    | (seg, Panic) => (mkSegmentReader seg (rdBlockNumber r) (rdChunkOffset r), Panic)
    | (seg, NoFuel) => (mkSegmentReader seg (rdBlockNumber r) (rdChunkOffset r), NoFuel)
    end.

(** ** The nonce file (segment.go) *)

Record nonceFile : Type := mkNonceFile {
  nfd : File;
  curNum : Z;
  nclosed : bool
}.

(** [openNonceFile]. *)
Definition openNonceFile (existing : option File) : nonceFile :=
  let f := match existing with Some f => f | None => emptyFile end in
  let offset := fileSeekEnd f in
  mkNonceFile f (offset / nonceSize) false.

(** [nonceFile.Write]: the position comes back stamped. *)
Definition nonceWrite (nf : nonceFile) (nonce : list Z) (position : ChunkPosition)
    : nonceFile * ChunkPosition * option error :=
  if len nonce =? 0 then (nf, position, None)
  else
    match fileWrite (nfd nf) nonce with
    | (f, Some e) => (mkNonceFile f (curNum nf) (nclosed nf), position, Some e)
    | (f, None) =>
        (mkNonceFile f (i64 (curNum nf + 1)) (nclosed nf),
         setValueNum position (curNum nf), None)
    end.

(** [nonceFile.writeAll]: [done] are the positions already stamped,
    [positions] those from index [i] on.  [positions[i]] panics when the
    slice of positions is the shorter one. *)
Fixpoint nonceWriteAll (nf : nonceFile) (nonce : list (list Z))
    (done positions : list ChunkPosition)
    : nonceFile * list ChunkPosition * result unit :=
  match nonce with
  | [] => (nf, done ++ positions, Ok tt)
  | n :: nonce' =>
      match fileWrite (nfd nf) n with
      | (f, Some e) =>
          (mkNonceFile f (curNum nf) (nclosed nf), done ++ positions, Err e)
      | (f, None) =>
          match positions with
          | [] => (mkNonceFile f (curNum nf) (nclosed nf), done, Panic)
          | p :: positions' =>
              nonceWriteAll (mkNonceFile f (i64 (curNum nf + 1)) (nclosed nf))
                nonce' (done ++ [setValueNum p (curNum nf)]) positions'
          end
      end
  end.

(** [nonceFile.Sync]. *)
Definition nonceSync (nf : nonceFile) : nonceFile * option error :=
  if nclosed nf then (nf, None)
  else let '(f, e) := fileSync (nfd nf) in
       (mkNonceFile f (curNum nf) (nclosed nf), e).

(** ** The WAL (wal.go) *)

(** The options that the modelled code reads. *)
Record Options : Type := mkOptions {
  SegmentSize : Z;
  Sync : bool;
  BytesPerSync : Z
}.

Definition DefaultOptions : Options := mkOptions GB false 0.

(** The data directory as the WAL meets it when it opens a segment file:
    the files it holds no handle on yet, by segment id, and whether
    [os.OpenFile] succeeds there. *)
Record Dir : Type := mkDir {
  dirFiles : gmap Z File;
  dirOk : bool
}.

Record WAL : Type := mkWAL {
  activeSegment : segment;
  olderSegments : gmap Z segment;
  options : Options;
  bytesWrite : Z;
  pendingWrites : list (list Z);
  pendingNonceWrites : list (list Z);
  pendingSize : Z;
  nonceFile_ : nonceFile;
  dataDir : Dir
}.

Record Reader : Type := mkReader {
  segmentReaders : list segmentReader;
  nonceReader : nonceFile;
  currentReader : nat;
  valueNum : Z
}.

Definition setActive (w : WAL) (seg : segment) : WAL :=
  mkWAL seg (olderSegments w) (options w) (bytesWrite w) (pendingWrites w)
        (pendingNonceWrites w) (pendingSize w) (nonceFile_ w) (dataDir w).

Definition setOlder (w : WAL) (m : gmap Z segment) : WAL :=
  mkWAL (activeSegment w) m (options w) (bytesWrite w) (pendingWrites w)
        (pendingNonceWrites w) (pendingSize w) (nonceFile_ w) (dataDir w).

Definition setNonceFile (w : WAL) (nf : nonceFile) : WAL :=
  mkWAL (activeSegment w) (olderSegments w) (options w) (bytesWrite w)
        (pendingWrites w) (pendingNonceWrites w) (pendingSize w) nf (dataDir w).

Definition setBytesWrite (w : WAL) (n : Z) : WAL :=
  mkWAL (activeSegment w) (olderSegments w) (options w) n (pendingWrites w)
        (pendingNonceWrites w) (pendingSize w) (nonceFile_ w) (dataDir w).

Definition setDataDir (w : WAL) (d : Dir) : WAL :=
  mkWAL (activeSegment w) (olderSegments w) (options w) (bytesWrite w)
        (pendingWrites w) (pendingNonceWrites w) (pendingSize w)
        (nonceFile_ w) d.

Definition setPending (w : WAL) (ws ns : list (list Z)) (size : Z) : WAL :=
  mkWAL (activeSegment w) (olderSegments w) (options w) (bytesWrite w)
        ws ns size (nonceFile_ w) (dataDir w).

(** [os.OpenFile] followed by [openSegmentFile]'s seek, in the data
    directory: the file leaves the set of files without a handle. *)
Definition openInDir (d : Dir) (id : Z) : Dir * result segment :=
  if dirOk d
  then (mkDir (delete id (dirFiles d)) true,
        Ok (openSegmentFile (dirFiles d !! id) id))
  else (d, Err ErrIO).

(** [WAL.maxDataWriteSize]. *)
Definition maxDataWriteSize (size : Z) : Z :=
  i64 (chunkHeaderSize + size + (size / blockSize + 1) * chunkHeaderSize).

(** [WAL.isFull]. *)
Definition isFull (w : WAL) (delta : Z) : bool :=
  i64 (Size (activeSegment w) + maxDataWriteSize delta)
    >? SegmentSize (options w).

(** [WAL.rotateActiveSegment]. *)
Definition rotateActiveSegment (w : WAL) : WAL * option error :=
  match segSync (activeSegment w) with
  | (seg, Some e) => (setActive w seg, Some e)
  | (seg, None) =>
      let w := setActive w seg in
      match nonceSync (nonceFile_ w) with
      | (nf, Some e) => (setNonceFile w nf, Some e)
      | (nf, None) =>
          let w := setBytesWrite (setNonceFile w nf) 0 in
          match openInDir (dataDir w) (u32 (id (activeSegment w) + 1)) with
          | (d, Ok segment) =>
              let w := setDataDir w d in
              let w :=
                setOlder w (<[id (activeSegment w) := activeSegment w]>
                              (olderSegments w)) in
              (setActive w segment, None)
          | (d, Err e) => (setDataDir w d, Some e)
          | (d, _) => (setDataDir w d, Some ErrIO)
          end
      end
  end.

(** [WAL.ClearPendingWrites]. *)
Definition ClearPendingWrites (w : WAL) : WAL := setPending w [] [] 0.

(** [WAL.PendingWrites]. *)
Definition PendingWrites (w : WAL) (data nonce : list Z) : WAL :=
  let size := maxDataWriteSize (len data) in
  setPending w (pendingWrites w ++ [data]) (pendingNonceWrites w ++ [nonce])
             (i64 (pendingSize w + size)).

(** [WAL.WriteAll].  The deferred function clears the pending writes on
    every path after the first test. *)
Definition WriteAll (w : WAL) : WAL * result (list ChunkPosition) :=
  if len (pendingWrites w) =? 0 then (w, Ok [])
  else if pendingSize w >? SegmentSize (options w)
  then (ClearPendingWrites w, Err ErrPendingSizeTooLarge)
  else
    let '(w, rotated) :=
      if i64 (Size (activeSegment w) + pendingSize w) >? SegmentSize (options w)
      then rotateActiveSegment w
      else (w, None) in
    match rotated with
    | Some e => (ClearPendingWrites w, Err e)
    | None =>
        match segWriteAll (activeSegment w) (pendingWrites w) with
        | (seg, Ok positions) =>
            let w := setActive w seg in
            match nonceWriteAll (nonceFile_ w) (pendingNonceWrites w) [] positions with
            | (nf, positions, Panic) => (ClearPendingWrites (setNonceFile w nf), Panic)
            | (nf, positions, _) =>
                (ClearPendingWrites (setNonceFile w nf), Ok positions)
            end
        | (seg, Err e) => (ClearPendingWrites (setActive w seg), Err e)
        | (seg, Panic) => (ClearPendingWrites (setActive w seg), Panic)
        | (seg, NoFuel) => (ClearPendingWrites (setActive w seg), NoFuel)
        end
    end.

(** The second half of [WAL.Write], after the size test and the
    rotation: the record goes to the active segment, its nonce to the
    nonce file, and the files are synced when the options ask for it. *)
Definition writeRecord (w : WAL) (data nonce : list Z)
    : WAL * result ChunkPosition :=
  match segWrite (activeSegment w) data with
  | (seg, Ok fr) =>
      let w := setActive w seg in
      match nonceWrite (nonceFile_ w) nonce (frPos fr) with
      | (nf, position, Some e) => (setNonceFile w nf, Err e)
      | (nf, position, None) =>
          let w := setNonceFile w nf in
          let w := setBytesWrite w (u32 (bytesWrite w + ChunkSize position)) in
          let needSync := Sync (options w) in
          let needSync :=
            if negb needSync && (BytesPerSync (options w) >? 0)
            then bytesWrite w >=? BytesPerSync (options w)
            else needSync in
          if needSync then
            match segSync (activeSegment w) with
            | (seg, Some e) => (setActive w seg, Err e)
            | (seg, None) =>
                let w := setActive w seg in
                match nonceSync (nonceFile_ w) with
                | (nf, Some e) => (setNonceFile w nf, Err e)
                | (nf, None) =>
                    (setBytesWrite (setNonceFile w nf) 0, Ok position)
                end
            end
          else (w, Ok position)
      end
  | (seg, Err e) => (setActive w seg, Err e)
  | (seg, Panic) => (setActive w seg, Panic)
  | (seg, NoFuel) => (setActive w seg, NoFuel)
  end.

(** [WAL.Write]: the size test, the rotation of a full active segment,
    then [writeRecord]. *)
Definition Write (w : WAL) (data nonce : list Z) : WAL * result ChunkPosition :=
  if i64 (len data + chunkHeaderSize) >? SegmentSize (options w)
  then (w, Err ErrValueTooLarge)
  else
    let '(w, rotated) :=
      if isFull w (len data) then rotateActiveSegment w else (w, None) in
    match rotated with
    | Some e => (w, Err e)
    | None => writeRecord w data nonce
    end.

(** [WAL.Read].  The segment comes back because a read in startup
    traversal refills its cached block. *)
Definition Read (pool : list Z) (w : WAL) (pos : ChunkPosition)
    : WAL * result (list Z * list Z) :=
  let isActive := SegmentId pos =? id (activeSegment w) in
  let segment :=
    if isActive then Some (activeSegment w)
    else olderSegments w !! SegmentId pos in
  match segment with
  | None => (w, Err ErrSegmentNotFound)
  | Some segment =>
      match fileReadAt (nfd (nonceFile_ w)) nonceSize
                       (i64 (ValueNum pos * nonceSize)) with
      | (nonce, Some e) => (w, Err e)
      | (nonce, None) =>
          if negb (len nonce =? nonceSize) then (w, Err ErrNonceIncomplete)
          else
            let '(segment, r) :=
              segRead pool segment (BlockNumber pos) (ChunkOffset pos) in
            let w :=
              if isActive then setActive w segment
              else setOlder w (<[SegmentId pos := segment]> (olderSegments w)) in
            match r with
            | Ok data => (w, Ok (data, nonce))
            | Err e => (w, Err e)
            | Panic => (w, Panic)
            | NoFuel => (w, NoFuel)
            end
      end
  end.

(** [sort.Slice] of the readers by segment id (the ids are distinct). *)
Fixpoint insertReader (r : segmentReader) (l : list segmentReader)
    : list segmentReader :=
  match l with
  | [] => [r]
  | x :: l' =>
      if id (rdSegment r) <? id (rdSegment x) then r :: x :: l'
      else x :: insertReader r l'
  end.

Definition sortReaders (l : list segmentReader) : list segmentReader :=
  foldr insertReader [] l.

(** [WAL.NewReaderWithMax]. *)
Definition NewReaderWithMax (w : WAL) (segId : Z) : Reader :=
  let older :=
    filter (fun kv => (segId =? 0) || (id (snd kv) <=? segId) = true)
           (map_to_list (olderSegments w)) in
  let segmentReaders := map (fun kv => segNewReader (snd kv)) older in
  let segmentReaders :=
    if (segId =? 0) || (id (activeSegment w) <=? segId)
    then segmentReaders ++ [segNewReader (activeSegment w)]
    else segmentReaders in
  mkReader (sortReaders segmentReaders) (nonceFile_ w) 0 0.

(** [WAL.NewReader]. *)
Definition NewReader (w : WAL) : Reader := NewReaderWithMax w 0.

(** [Reader.Next]; the recursive call moves to the next segment reader.
    When the segment reader fails with an error other than [io.EOF], the
    position it returned is [nil] and the store to [position.ValueNum]
    panics. *)
Fixpoint readerNext (fuel : nat) (pool : list Z) (r : Reader)
    : Reader * result (list Z * list Z * ChunkPosition) :=
  match fuel with
  | O => (r, NoFuel)
  | S fuel' =>
      match segmentReaders r !! currentReader r with
      | None => (r, Err EOF)
      | Some sr =>
          match segReaderNext pool sr with
          | (sr, Err EOF) =>
              readerNext fuel' pool
                (mkReader (<[currentReader r := sr]> (segmentReaders r))
                          (nonceReader r) (S (currentReader r)) (valueNum r))
          | (sr, Err _) =>
              (mkReader (<[currentReader r := sr]> (segmentReaders r))
                        (nonceReader r) (currentReader r) (valueNum r), Panic)
          | (sr, Panic) =>
              (mkReader (<[currentReader r := sr]> (segmentReaders r))
                        (nonceReader r) (currentReader r) (valueNum r), Panic)
          | (sr, NoFuel) =>
              (mkReader (<[currentReader r := sr]> (segmentReaders r))
                        (nonceReader r) (currentReader r) (valueNum r), NoFuel)
          | (sr, Ok (data, position)) =>
              let r := mkReader (<[currentReader r := sr]> (segmentReaders r))
                                (nonceReader r) (currentReader r) (valueNum r) in
              let position := setValueNum position (valueNum r) in
              let '(nonce, err) :=
                fileReadAt (nfd (nonceReader r)) nonceSize
                           (i64 (ValueNum position * nonceSize)) in
              if negb (len nonce =? nonceSize) || bool_decide (err <> None)
              then (r, Err EOF)
              else
                (mkReader (segmentReaders r) (nonceReader r) (currentReader r)
                          (i64 (valueNum r + 1)),
                 Ok (data, nonce, position))
          end
      end
  end.

Definition Next (pool : list Z) (r : Reader)
    : Reader * result (list Z * list Z * ChunkPosition) :=
  readerNext (S (length (segmentReaders r))) pool r.

(** [Reader.SkipCurrentSegment]. *)
Definition SkipCurrentSegment (r : Reader) : Reader :=
  mkReader (segmentReaders r) (nonceReader r) (S (currentReader r)) (valueNum r).

(** [Reader.CurrentSegmentId]; [None] is the index-out-of-range panic. *)
Definition CurrentSegmentId (r : Reader) : option Z :=
  match segmentReaders r !! currentReader r with
  | Some sr => Some (id (rdSegment sr))
  | None => None
  end.

(** [Reader.CurrentChunkPosition]. *)
Definition CurrentChunkPosition (r : Reader) : option ChunkPosition :=
  match segmentReaders r !! currentReader r with
  | Some sr =>
      Some (mkPos (id (rdSegment sr)) (rdBlockNumber sr) (rdChunkOffset sr) 0 0)
  | None => None
  end.

(** The [for] loop of [WAL.NewReaderWithStart]. *)
Fixpoint seekStart (fuel : nat) (pool : list Z) (reader : Reader)
    (startPos : ChunkPosition) : result Reader :=
  match fuel with
  | O => NoFuel
  | S fuel' =>
      match CurrentSegmentId reader with
      | None => Panic
      | Some segId =>
          if segId <? SegmentId startPos
          then seekStart fuel' pool (SkipCurrentSegment reader) startPos
          else
            match CurrentChunkPosition reader with
            | None => Panic
            | Some currentPos =>
                if (BlockNumber currentPos >=? BlockNumber startPos)
                   && (ChunkOffset currentPos >=? ChunkOffset startPos)
                then Ok reader
                else
                  match Next pool reader with
                  | (reader, Ok _) => seekStart fuel' pool reader startPos
                  | (reader, Err EOF) => Ok reader
                  | (reader, Err e) => Err e
                  | (reader, Panic) => Panic
                  | (reader, NoFuel) => NoFuel
                  end
            end
      end
  end.

(** Each round of the loop leaves a segment or consumes a record, and a
    record takes at least one byte of a segment. *)
Definition seekFuel (reader : Reader) : nat :=
  S (length (segmentReaders reader)
     + Z.to_nat (foldr (fun sr n => Z.max 0 (Size (rdSegment sr)) + n) 0
                       (segmentReaders reader))).

(** [WAL.NewReaderWithStart]; [None] is a [nil] start position. *)
Definition NewReaderWithStart (pool : list Z) (w : WAL)
    (startPos : option ChunkPosition) : result Reader :=
  match startPos with
  | None => Err ErrStartPosNil
  | Some startPos =>
      let reader := NewReader w in
      seekStart (seekFuel reader) pool reader startPos
  end.

(** [wal.Open] on a data directory and a nonce directory: the segment
    files are opened in ascending id order, the last one becomes the
    active segment. *)
Definition sortedIds (d : Dir) : list Z :=
  merge_sort Z.le (map fst (map_to_list (dirFiles d))).

Definition Open (options : Options) (d : Dir) (nonce : option File) : result WAL :=
  if negb (dirOk d) then Err ErrIO
  else
    let nf := openNonceFile nonce in
    match reverse (sortedIds d) with
    | [] =>
        Ok (mkWAL (openSegmentFile None initialSegmentFileID) ∅ options 0 [] [] 0
                  nf (mkDir ∅ true))
    | last :: rest =>
        let older :=
          foldr (fun i m => <[u32 i := openSegmentFile (dirFiles d !! i) (u32 i)]> m)
                ∅ rest in
        Ok (mkWAL (openSegmentFile (dirFiles d !! last) (u32 last)) older options
                  0 [] [] 0 nf (mkDir ∅ true))
    end.

(** ** Chunk position encoding (segment.go, encoding/binary) *)

(** The bytes [binary.PutUvarint] stores for [x]: seven bits per byte, low
    bits first, the top bit set on every byte but the last. *)
Fixpoint uvarintBytes (fuel : nat) (x : Z) : list Z :=
  match fuel with
  | O => [Z.land x 255]
  | S fuel' =>
      if x >=? 128
      then Z.lor (Z.land x 255) 128 :: uvarintBytes fuel' (Z.shiftr x 7)
      else [Z.land x 255]
  end.

(** [binary.PutUvarint(buf, x)]: the buffer after the call and the number
    of bytes written; indexing past [len(buf)] panics. *)
Definition PutUvarint (buf : list Z) (x : Z) : result (list Z * Z) :=
  let bs := uvarintBytes 9 x in
  if len bs <=? len buf
  then Ok (bs ++ drop (length bs) buf, len bs)
  else Panic.

(** The [for i, b := range buf] loop of [binary.Uvarint]. *)
Fixpoint uvarintLoop (buf : list Z) (i x s : Z) : Z * Z :=
  match buf with
  | [] => (0, 0)
  | b :: buf' =>
      if i =? MaxVarintLen64 then (0, - (i + 1))
      else if b <? 128 then
        if (i =? MaxVarintLen64 - 1) && (b >? 1) then (0, - (i + 1))
        else (Z.lor x (u64 (Z.shiftl b s)), i + 1)
      else
        uvarintLoop buf' (i + 1) (Z.lor x (u64 (Z.shiftl (Z.land b 127) s))) (s + 7)
  end.

(** [binary.Uvarint(buf)]. *)
Definition Uvarint (buf : list Z) : Z * Z := uvarintLoop buf 0 0 0.

(** One [index += binary.PutUvarint(buf[index:], x)] of
    [ChunkPosition.encode]. *)
Definition putField (st : result (list Z * Z)) (x : Z) : result (list Z * Z) :=
  match st with
  | Ok (buf, index) =>
      match PutUvarint (drop (Z.to_nat index) buf) x with
      | Ok (rest, n) => Ok (take (Z.to_nat index) buf ++ rest, index + n)
      | Err e => Err e
      | Panic => Panic
      | NoFuel => NoFuel
      end
  | other => other
  end.

(** [ChunkPosition.encode]. *)
Definition encode (cp : ChunkPosition) (shrink : bool) : result (list Z) :=
  let buf := repeat 0 (Z.to_nat maxLen) in
  let st := Ok (buf, 0) in
  let st := putField st (u64 (SegmentId cp)) in
  let st := putField st (u64 (BlockNumber cp)) in
  let st := putField st (u64 (ChunkOffset cp)) in
  let st := putField st (u64 (ChunkSize cp)) in
  let st := putField st (u64 (ValueNum cp)) in
  match st with
  | Ok (buf, index) => if shrink then Ok (take (Z.to_nat index) buf) else Ok buf
  | Err e => Err e
  | Panic => Panic
  | NoFuel => NoFuel
  end.

(** [ChunkPosition.Encode] and [ChunkPosition.EncodeFixedSize]. *)
Definition Encode (cp : ChunkPosition) : result (list Z) := encode cp true.
Definition EncodeFixedSize (cp : ChunkPosition) : result (list Z) := encode cp false.

(** One [v, n := binary.Uvarint(buf[index:]); index += n] of
    [DecodeChunkPosition]; [buf[index:]] panics for an index out of
    range. *)
Definition getField (buf : list Z) (index : Z) : result (Z * Z) :=
  if (0 <=? index) && (index <=? len buf)
  then let '(v, n) := Uvarint (drop (Z.to_nat index) buf) in Ok (v, index + n)
  else Panic.

(** [DecodeChunkPosition]; [Ok None] is the [nil] it returns for an empty
    buffer. *)
Definition DecodeChunkPosition (buf : list Z) : result (option ChunkPosition) :=
  if len buf =? 0 then Ok None
  else
    match getField buf 0 with
    | Ok (segmentId, index) =>
      match getField buf index with
      | Ok (blockNumber, index) =>
        match getField buf index with
        | Ok (chunkOffset, index) =>
          match getField buf index with
          | Ok (chunkSize, index) =>
            match getField buf index with
            | Ok (valueNum, index) =>
                Ok (Some (mkPos (u32 segmentId) (u32 blockNumber) (i64 chunkOffset)
                                (u32 chunkSize) (i64 valueNum)))
            | _ => Panic
            end
          | _ => Panic
          end
        | _ => Panic
        end
      | _ => Panic
      end
    | _ => Panic
    end.

(** ** Notions used in the statements *)

(** The bytes of one chunk on disk: header, then payload. *)
Definition chunkBytes (ck : chunkRec) : list Z :=
  chunkHeader (ckPayload ck) (ckType ck) ++ ckPayload ck.

(** [chain first c log data]: the chunks [log] carry [data] as one record
    whose first chunk starts at in-block offset [c].  A record in one
    chunk is [Full]; otherwise [First], [Middle]s and [Last] follow each
    other, every chunk but the last ends exactly at the end of its block
    and every chunk but the first starts at offset 0.  [first] tells
    whether the head of [log] is the first chunk of the record. *)
Fixpoint chain (first : bool) (c : Z) (log : list chunkRec) (data : list Z)
    : Prop :=
  match log with
  | [] => False
  | ck :: rest =>
      ckOffset ck = c /\
      c + chunkHeaderSize + len (ckPayload ck) <= blockSize /\
      match rest with
      | [] =>
          ckType ck = (if first then ChunkTypeFull else ChunkTypeLast) /\
          ckPayload ck = data
      | _ :: _ =>
          ckType ck = (if first then ChunkTypeFirst else ChunkTypeMiddle) /\
          c + chunkHeaderSize + len (ckPayload ck) = blockSize /\
          take (length (ckPayload ck)) data = ckPayload ck /\
          chain false 0 rest (drop (length (ckPayload ck)) data)
      end
  end.

(** [leading c before]: the chunks [before] are the opening chunks of a
    record that goes on after them.  The first starts at in-block offset
    [c], the others at offset 0, every one ends exactly at the end of its
    block and none is [Full] or [Last], so the read loop of
    [readInternal] goes on to the next block after each. *)
Fixpoint leading (c : Z) (before : list chunkRec) : Prop :=
  match before with
  | [] => True
  | ck :: before' =>
      c + chunkHeaderSize + len (ckPayload ck) = blockSize
      /\ ckType ck <> ChunkTypeFull /\ ckType ck <> ChunkTypeLast
      /\ leading 0 before'
  end.

(** The in-block offset of the chunk that follows [before]. *)
Definition offsetAfter (c : Z) (before : list chunkRec) : Z :=
  match before with [] => c | _ :: _ => 0 end.

(** A segment whose counters describe its file: the file holds
    [currentBlockNumber] full blocks and [currentBlockSize] further
    bytes.  [openSegmentFile] sets the counters so, and the block number
    is far from the end of [uint32]. *)
Definition segOk (seg : segment) : Prop :=
  0 <= currentBlockNumber seg < 2 ^ 31 /\
  0 <= currentBlockSize seg < blockSize /\
  len (fbytes (fd seg)) = Size seg /\
  len (sbBlock (startup seg)) = blockSize.

(** A WAL in a consistent state: the active segment is, the segment
    files it may still open are far below the 2^31 blocks a [uint32]
    block number can count, and the nonce file holds [curNum] nonces of
    12 bytes. *)
Definition walOk (w : WAL) : Prop :=
  segOk (activeSegment w) /\
  (forall i f, dirFiles (dataDir w) !! i = Some f -> len (fbytes f) < 2 ^ 46) /\
  len (fbytes (nfd (nonceFile_ w))) = nonceSize * curNum (nonceFile_ w) /\
  curNum (nonceFile_ w) < 2 ^ 59.

(** A WAL as [Open] makes it in an empty directory with the given
    options. *)
Definition freshWAL (options : Options) : WAL :=
  mkWAL (openSegmentFile None initialSegmentFileID) ∅ options 0 [] [] 0
        (openNonceFile None) (mkDir ∅ true).

(** Two nonces for the examples. *)
Definition nonceA : list Z := [1; 2; 3; 4; 5; 6; 7; 8; 9; 10; 11; 12].
Definition nonceB : list Z := [21; 22; 23; 24; 25; 26; 27; 28; 29; 30; 31; 32].

(** The positions of a batch as [nonceFile.writeAll] stamps them when
    every nonce is stored: the [i]-th gets ordinal [k + i]. *)
Fixpoint stampFrom (k : Z) (positions : list ChunkPosition) : list ChunkPosition :=
  match positions with
  | [] => []
  | p :: positions' => setValueNum p k :: stampFrom (k + 1) positions'
  end.

(** A fresh WAL with one record waiting in the batch buffer. *)
Definition pendingWAL : WAL :=
  PendingWrites (freshWAL DefaultOptions) [70; 71] nonceB.

(** A WAL with 64-byte segments after one record of 40 bytes: the next
    record of that size does not fit any more. *)
Definition smallOptions : Options := mkOptions 64 false 0.
Definition fullWAL : WAL :=
  fst (Write (freshWAL smallOptions) (repeat 65 40) nonceA).


(** [pendingWAL] with a nonce file whose device rejects writes. *)
Definition brokenNonceWAL : WAL :=
  setNonceFile pendingWAL (mkNonceFile (mkFile [] 0 false) 0 false).

(** A segment with two records, the first with an empty payload, and the
    same segment after the low byte of the first chunk's length field
    (byte 4 of the file) went from 0 to 4. *)
Definition twoRecords : segment :=
  activeSegment
    (fst (Write (fst (Write (freshWAL DefaultOptions) [] nonceA))
                [70; 9; 127; 145] nonceB)).

Definition mutateFile (seg : segment) (i : nat) (v : Z) : segment :=
  setFd seg (mkFile (<[i := v]> (fbytes (fd seg))) (fsynced (fd seg))
                    (fhealthy (fd seg))).

(** A segment with one record of three bytes. *)
Definition oneRecord : segment :=
  activeSegment (fst (Write (freshWAL DefaultOptions) [65; 66; 67] nonceA)).

(** An open segment with 18 bytes left in its first block, and the
    same segment after a record of 20 bytes: a [First] chunk of 11 bytes
    that ends block 0 and a [Last] chunk of 9 bytes in block 1. *)
Definition nearEnd : segment :=
  mkSegment 1 (mkFile (repeat 9 (Z.to_nat 32750)) 0 true) 0 32750 false
            (mkStartupBlock (repeat 0 (Z.to_nat blockSize)) (-1)) false.

Definition splitRecord : segment := fst (segWrite nearEnd (repeat 7 20)).

(** A segment whose two records fill block 0 to its last byte, and the
    same segment in startup traversal after a read of its first record,
    which leaves block 0 in the cache. *)
Definition fullBlock : segment :=
  activeSegment
    (fst (Write (fst (Write (freshWAL DefaultOptions) [65; 66; 67] nonceA))
                (repeat 1 (Z.to_nat 32751)) nonceB)).

Definition cachedBlock : segment :=
  fst (segRead [] (setIsStartupTraversal fullBlock true) 0 0).

(** The largest value of every field of a position. *)
Definition maxPosition : ChunkPosition :=
  mkPos (2 ^ 32 - 1) (2 ^ 32 - 1) (2 ^ 63 - 1) (2 ^ 32 - 1) (2 ^ 63 - 1).

(** A WAL whose only segment holds a record that fills block 0 and two
    short records in block 1. *)
Definition blockFill : list Z :=
  repeat 1 (Z.to_nat (blockSize - chunkHeaderSize)).

Definition twoBlocks : WAL :=
  let w := fst (Write (freshWAL DefaultOptions) blockFill nonceA) in
  let w := fst (Write w [66] nonceB) in
  fst (Write w [67] nonceA).

(** [fullWAL] after a second record, which went to segment 2. *)
Definition twoSegments : WAL := fst (Write fullWAL (repeat 66 40) nonceB).

(** The order on positions that the documentation of
    [NewReaderWithStart] speaks of: by segment, then block, then
    offset. *)
Definition posLeb (p q : ChunkPosition) : bool :=
  (SegmentId p <? SegmentId q)
  || ((SegmentId p =? SegmentId q)
      && ((BlockNumber p <? BlockNumber q)
          || ((BlockNumber p =? BlockNumber q)
              && (ChunkOffset p <=? ChunkOffset q)))).

(** A WAL holding one record that was written with the empty nonce. *)
Definition noNonceWAL : WAL :=
  fst (Write (freshWAL DefaultOptions) [65; 66; 67] []).

(** What the reader that [NewReaderWithStart] returns yields first. *)
Definition firstFrom (pool : list Z) (w : WAL) (startPos : ChunkPosition)
    : result (list Z * list Z * ChunkPosition) :=
  match NewReaderWithStart pool w (Some startPos) with
  | Ok reader => snd (Next pool reader)
  | Err e => Err e
  | Panic => Panic
  | NoFuel => NoFuel
  end.

(** The same record in a segment, a WAL and a reader written out by
    hand, with an empty nonce file. *)
Definition tinySegment : segment :=
  mkSegment 1 (mkFile [87; 9; 148; 107; 3; 0; 0; 65; 66; 67] 0 true) 0 10 false
            (mkStartupBlock [] (-1)) false.

Definition tinyWAL : WAL :=
  mkWAL tinySegment ∅ DefaultOptions 0 [] [] 0 (mkNonceFile emptyFile 0 false)
        (mkDir ∅ true).

Definition tinyReader : Reader :=
  mkReader [segNewReader tinySegment] (mkNonceFile emptyFile 0 false) 0 0.

(** ** Log records (lotusdb/structs.go, encoding/binary) *)

Definition LogRecordNormal : Z := 0.
Definition LogRecordDeleted : Z := 1.
Definition LogRecordBatchFinished : Z := 2.

Definition maxLogRecordHeaderSize : Z :=
  MaxVarintLen32 * 2 + MaxVarintLen64 + 1.

Record LogRecord : Type := mkLogRecord {
  Key : list Z;
  Value : list Z;
  Type_ : Z;
  BatchID : Z
}.

(** The [uint64] that [binary.PutVarint] hands to [PutUvarint] for the
    [int64] [x]: [uint64(x) << 1], complemented when [x < 0]. *)
Definition zigzag (x : Z) : Z :=
  let ux := u64 (Z.shiftl (u64 x) 1) in
  if x <? 0 then Z.lxor ux (2 ^ 64 - 1) else ux.

(** [binary.PutVarint(buf, x)]. *)
Definition PutVarint (buf : list Z) (x : Z) : result (list Z * Z) :=
  PutUvarint buf (zigzag x).

(** [binary.Varint(buf)]; it goes on with what [Uvarint] returned also
    when that reports an overflow. *)
Definition Varint (buf : list Z) : Z * Z :=
  let '(ux, n) := Uvarint buf in
  let x := i64 (Z.shiftr ux 1) in
  let x := if negb (Z.land ux 1 =? 0) then Z.lnot x else x in
  (x, n).

(** One [index += binary.PutVarint(header[index:], x)]. *)
Definition putVarField (st : result (list Z * Z)) (x : Z) : result (list Z * Z) :=
  match st with
  | Ok (buf, index) =>
      match PutVarint (drop (Z.to_nat index) buf) x with
      | Ok (rest, n) => Ok (take (Z.to_nat index) buf ++ rest, index + n)
      | Err e => Err e
      | Panic => Panic
      | NoFuel => NoFuel
      end
  | other => other
  end.

(** [copy(dst[lo:hi], src)]: as many elements as both slices have. *)
Definition copyTo (dst : list Z) (lo hi : Z) (src : list Z) : list Z :=
  let n := Z.min (hi - lo) (len src) in
  take (Z.to_nat lo) dst ++ take (Z.to_nat n) src ++ drop (Z.to_nat (lo + n)) dst.

(** [encodeLogRecord].  The three slices of [encBytes] it copies into are
    in range by the choice of [size]. *)
Definition encodeLogRecord (logRecord : LogRecord) : result (list Z) :=
  let header := repeat 0 (Z.to_nat maxLogRecordHeaderSize) in
  let header := <[0%nat := Type_ logRecord]> header in
  let st := Ok (header, 1) in
  let st := putField st (BatchID logRecord) in
  let st := putVarField st (len (Key logRecord)) in
  let st := putVarField st (len (Value logRecord)) in
  match st with
  | Ok (header, index) =>
      let size := index + len (Key logRecord) + len (Value logRecord) in
      let encBytes := repeat 0 (Z.to_nat size) in
      let encBytes := copyTo encBytes 0 index (slice header 0 index) in
      let encBytes := copyTo encBytes index size (Key logRecord) in
      let encBytes :=
        copyTo encBytes (index + len (Key logRecord)) size (Value logRecord) in
      Ok encBytes
  | Err e => Err e
  | Panic => Panic
  | NoFuel => NoFuel
  end.

(** [make([]byte, n)] followed by [copy] from [buf[lo:hi]], as
    [decodeLogRecord] does for the key and for the value.  A negative
    length and a slice out of range panic. *)
Definition makeCopy (buf : list Z) (n lo hi : Z) : result (list Z) :=
  if n <? 0 then Panic
  else if slice_ok buf lo hi
  then Ok (copyTo (repeat 0 (Z.to_nat n)) 0 n (slice buf lo hi))
  else Panic.

(** [decodeLogRecord]; [index] is a [uint32]. *)
Definition decodeLogRecord (buf : list Z) : result LogRecord :=
  match buf with
  | [] => Panic
  | recordType :: _ =>
      let index := 1 in
      let '(batchID, n) := Uvarint (drop (Z.to_nat index) buf) in
      let index := u32 (index + u32 n) in
      if negb (index <=? len buf) then Panic
      else
        let '(keySize, n) := Varint (drop (Z.to_nat index) buf) in
        let index := u32 (index + u32 n) in
        if negb (index <=? len buf) then Panic
        else
          let '(valueSize, n) := Varint (drop (Z.to_nat index) buf) in
          let index := u32 (index + u32 n) in
          match makeCopy buf keySize index (u32 (index + u32 keySize)) with
          | Ok key =>
              let index := u32 (index + u32 keySize) in
              match makeCopy buf valueSize index (u32 (index + u32 valueSize)) with
              | Ok value => Ok (mkLogRecord key value recordType batchID)
              | Err e => Err e
              | Panic => Panic
              | NoFuel => NoFuel
              end
          | Err e => Err e
          | Panic => Panic
          | NoFuel => NoFuel
          end
  end.

(** The number of bytes [binary.PutUvarint] writes for [x]. *)
Definition uvarintLen (x : Z) : Z := len (uvarintBytes 9 x).

(** The number of bytes the five varints of a position take. *)
Definition encodedLen (cp : ChunkPosition) : Z :=
  uvarintLen (u64 (SegmentId cp)) + uvarintLen (u64 (BlockNumber cp))
  + uvarintLen (u64 (ChunkOffset cp)) + uvarintLen (u64 (ChunkSize cp))
  + uvarintLen (u64 (ValueNum cp)).

(** The fields of a position hold values of their Go types. *)
Definition posInRange (cp : ChunkPosition) : Prop :=
  0 <= SegmentId cp < 2 ^ 32 /\ 0 <= BlockNumber cp < 2 ^ 32
  /\ - 2 ^ 63 <= ChunkOffset cp < 2 ^ 63 /\ 0 <= ChunkSize cp < 2 ^ 32
  /\ - 2 ^ 63 <= ValueNum cp < 2 ^ 63.

(** ** Notions used in the statements of the further properties *)

(** The cursor at which the next record starts when the segment's
    counters are [(b, c)]: a block tail too short for a header is skipped,
    by the writer with padding and by the reader without reading it. *)
Definition nextStart (b c : Z) : Z * Z :=
  if c + chunkHeaderSize >=? blockSize then (b + 1, 0) else (b, c).

(** The invariant of a WAL that takes [n] more records: the active
    segment's counters describe its file, sizes are far from the ends of
    the integer types (segments, and the files a rotation may open, stay
    below 32 TiB), the nonce file holds [curNum] nonces of 12 bytes, and
    [n] further records and rotations overflow neither the ordinals nor
    the segment ids. *)
Definition walInv (n : Z) (w : WAL) : Prop :=
  0 <= currentBlockNumber (activeSegment w)
  /\ 0 <= currentBlockSize (activeSegment w) < blockSize
  /\ len (fbytes (fd (activeSegment w))) = Size (activeSegment w)
  /\ Size (activeSegment w) < 2 ^ 45 + 2 ^ 32
  /\ len (sbBlock (startup (activeSegment w))) = blockSize
  /\ SegmentSize (options w) <= 2 ^ 45
  /\ (forall i f, dirFiles (dataDir w) !! i = Some f -> len (fbytes f) < 2 ^ 45)
  /\ len (fbytes (nfd (nonceFile_ w))) = nonceSize * curNum (nonceFile_ w)
  /\ 0 <= curNum (nonceFile_ w) /\ curNum (nonceFile_ w) + n < 2 ^ 59
  /\ 0 <= id (activeSegment w) /\ id (activeSegment w) + n < 2 ^ 32.

(** A client that writes records one after the other and collects the
    positions, stopping at the first failure. *)
Fixpoint writeMany (w : WAL) (records : list (list Z * list Z))
    : WAL * result (list ChunkPosition) :=
  match records with
  | [] => (w, Ok [])
  | (data, nonce) :: records' =>
      match Write w data nonce with
      | (w, Ok pos) =>
          match writeMany w records' with
          | (w, Ok positions) => (w, Ok (pos :: positions))
          | (w, Err e) => (w, Err e)
          | (w, Panic) => (w, Panic)
          | (w, NoFuel) => (w, NoFuel)
          end
      | (w, Err e) => (w, Err e)
      | (w, Panic) => (w, Panic)
      | (w, NoFuel) => (w, NoFuel)
      end
  end.

(** [recordAt seg B c data]: the file of [seg] holds, from offset [c] of
    block [B] on, the chunks of one record that carries [data]. *)
Definition recordAt (seg : segment) (B c : Z) (data : list Z) : Prop :=
  exists pre log post,
    chain true c log data
    /\ fbytes (fd seg) = pre ++ concat (map chunkBytes log) ++ post
    /\ len pre = B * blockSize + c.

(** [stored w p data nonce]: the record that position [p] names is in a
    segment the WAL holds open, with no block of that segment cached for
    startup traversal, and its nonce is in the nonce file at the ordinal
    of [p]. *)
Definition stored (w : WAL) (p : ChunkPosition) (data nonce : list Z) : Prop :=
  exists seg,
    (if SegmentId p =? id (activeSegment w) then Some (activeSegment w)
     else olderSegments w !! SegmentId p) = Some seg
    /\ SegmentId p <= id (activeSegment w)
    /\ closed seg = false
    /\ Size seg = len (fbytes (fd seg))
    /\ len (sbBlock (startup seg)) = blockSize
    /\ sbBlockNumber (startup seg) = -1
    /\ recordAt seg (BlockNumber p) (ChunkOffset p) data
    /\ 0 <= BlockNumber p < 2 ^ 31 + 1 /\ 0 <= ChunkOffset p
    /\ len data < 2 ^ 31
    /\ 0 <= ValueNum p < 2 ^ 59
    /\ nonceSize * ValueNum p + nonceSize <= len (fbytes (nfd (nonceFile_ w)))
    /\ slice (fbytes (nfd (nonceFile_ w))) (nonceSize * ValueNum p)
             (nonceSize * ValueNum p + nonceSize) = nonce
    /\ len nonce = nonceSize.

(** A client that queues records with [PendingWrites], to be written by
    one [WriteAll]. *)
Definition pendMany (w : WAL) (records : list (list Z * list Z)) : WAL :=
  fold_left (fun w r => PendingWrites w (fst r) (snd r)) records w.

(** The sum of [maxDataWriteSize] over a batch, which is what
    [PendingWrites] accumulates in [pendingSize]. *)
Definition batchSize (records : list (list Z * list Z)) : Z :=
  foldr (fun r s => maxDataWriteSize (len (fst r)) + s) 0 records.

(** [sumMax data]: [maxDataWriteSize] summed over the payloads. *)
Definition sumMax (data : list (list Z)) : Z :=
  foldr (fun d s => maxDataWriteSize (len d) + s) 0 data.

(** [placed S i frames d p]: within the bytes [frames] appended to a
    segment of id [i] and size [S], the chunks of the record [d] stand at
    the position [p]. *)
Definition placed (S i : Z) (frames : list Z) (d : list Z) (p : ChunkPosition)
    : Prop :=
  SegmentId p = i /\ ValueNum p = 0
  /\ 0 <= BlockNumber p < 2 ^ 31 + 1 /\ 0 <= ChunkOffset p
  /\ exists pre log post,
       frames = pre ++ concat (map chunkBytes log) ++ post
       /\ chain true (ChunkOffset p) log d
       /\ S + len pre = BlockNumber p * blockSize + ChunkOffset p.

(** The cursor at which the record after byte offset [off] of a segment
    starts. *)
Definition cursorAt (off : Z) : Z * Z :=
  nextStart (off / blockSize) (off mod blockSize).

(** [segHolds file off items]: from byte offset [off] to its end, [file]
    holds exactly the records [items], each a payload with the cursor
    (block, offset) at which it starts, one after the other with nothing
    but block padding in between. *)
Fixpoint segHolds (file : list Z) (off : Z) (items : list (list Z * (Z * Z)))
    : Prop :=
  match items with
  | [] => off = len file
  | (d, bc) :: items' =>
      bc = cursorAt off /\ len d < 2 ^ 31
      /\ exists pre log post,
           chain true (snd bc) log d
           /\ file = pre ++ concat (map chunkBytes log) ++ post
           /\ len pre = fst bc * blockSize + snd bc
           /\ segHolds file (len pre + len (concat (map chunkBytes log))) items'
  end.

(** The order in which [NewReaderWithMax] sorts the segment readers. *)
Definition ltId (a b : segmentReader) : Prop :=
  id (rdSegment a) < id (rdSegment b).

(** What is known of a record in the log: its data, its nonce and the
    position [Write] returned for it.  [itemCursor] is the view of it
    that [segHolds] takes. *)
Definition itemCursor (it : list Z * list Z * ChunkPosition)
    : list Z * (Z * Z) :=
  (fst (fst it), (BlockNumber (snd it), ChunkOffset (snd it))).

(** [segGood seg items]: the open segment [seg], outside startup
    traversal, holds exactly the records [items]. *)
Definition segGood (seg : segment) (items : list (list Z * list Z * ChunkPosition))
    : Prop :=
  closed seg = false /\ isStartupTraversal seg = false
  /\ Size seg = len (fbytes (fd seg)) /\ Size seg < 2 ^ 46
  /\ segHolds (fbytes (fd seg)) 0 (map itemCursor items)
  /\ Forall (fun it => SegmentId (snd it) = id seg) items.

(** [walLog w log]: the WAL holds exactly the records [log], in this
    order: the older segments by ascending id, then the active one, each
    hold their share, and the nonce file holds the nonces, all of 12
    bytes, the [i]-th record having ordinal [i].  The directory has no
    segment file left that the WAL has not opened. *)
Definition walLog (w : WAL) (log : list (list Z * list Z * ChunkPosition))
    : Prop :=
  exists olds dss,
    map snd (map_to_list (olderSegments w)) ≡ₚ olds
    /\ (forall k seg, olderSegments w !! k = Some seg -> id seg = k)
    /\ StronglySorted (fun a b => id a < id b) (olds ++ [activeSegment w])
    /\ Forall2 segGood (olds ++ [activeSegment w]) dss
    /\ log = concat dss
    /\ dirFiles (dataDir w) = ∅
    /\ fbytes (nfd (nonceFile_ w)) = concat (map (fun it => snd (fst it)) log)
    /\ Forall (fun it => len (snd (fst it)) = nonceSize) log
    /\ (forall (i : nat) it, log !! i = Some it -> ValueNum (snd it) = Z.of_nat i).

(** The loop of a client that iterates a reader to the end, as
    examples/main.go does: [Next] until it returns [io.EOF]. *)
Fixpoint readAll (fuel : nat) (pool : list Z) (r : Reader)
    : result (list (list Z * list Z * ChunkPosition)) :=
  match fuel with
  | O => NoFuel
  | S fuel' =>
      match Next pool r with
      | (r, Ok item) =>
          match readAll fuel' pool r with
          | Ok items => Ok (item :: items)
          | Err e => Err e
          | Panic => Panic
          | NoFuel => NoFuel
          end
      | (r, Err EOF) => Ok []
      | (r, Err e) => Err e
      | (r, Panic) => Panic
      | (r, NoFuel) => NoFuel
      end
  end.

(** Two positions name the same record: they agree in everything but
    [ChunkSize], which a reader only estimates. *)
Definition samePlace (p q : ChunkPosition) : Prop :=
  SegmentId p = SegmentId q /\ BlockNumber p = BlockNumber q
  /\ ChunkOffset p = ChunkOffset q /\ ValueNum p = ValueNum q.

(** [numbered bytes vn items]: the records [items] carry the ordinals
    [vn], [vn + 1], ... and the nonce file [bytes] holds their nonces at
    these ordinals. *)
Fixpoint numbered (bytes : list Z) (vn : Z)
    (items : list (list Z * list Z * ChunkPosition)) : Prop :=
  match items with
  | [] => True
  | it :: items' =>
      ValueNum (snd it) = vn /\ 0 <= vn < 2 ^ 59
      /\ nonceSize * vn + nonceSize <= len bytes
      /\ slice bytes (nonceSize * vn) (nonceSize * vn + nonceSize) = snd (fst it)
      /\ numbered bytes (vn + 1) items'
  end.

(** [readerAt r todo]: the reader [r] stands before the records [todo]
    of the log and after all the others.  Its current segment reader is
    at the cursor of the first record left in its segment, or at the end
    of the segment, and the segment readers after it are at the start of
    theirs. *)
Definition readerAt (r : Reader) (todo : list (list Z * list Z * ChunkPosition))
    : Prop :=
  exists done seg off cur rest dss,
    segmentReaders r
    = done ++ mkSegmentReader seg (fst (cursorAt off)) (snd (cursorAt off))
           :: map segNewReader rest
    /\ currentReader r = length done
    /\ closed seg = false /\ isStartupTraversal seg = false
    /\ Size seg = len (fbytes (fd seg)) /\ Size seg < 2 ^ 46
    /\ 0 <= off
    /\ segHolds (fbytes (fd seg)) off (map itemCursor cur)
    /\ Forall (fun it => SegmentId (snd it) = id seg) cur
    /\ Forall2 segGood rest dss
    /\ todo = cur ++ concat dss
    /\ numbered (fbytes (nfd (nonceReader r))) (valueNum r) todo.

(** * Properties *)

(** ** Little-endian integers and the checksum *)

Lemma lor_shiftl_add a b k :
  0 <= k -> 0 <= a < 2 ^ k -> Z.lor a (Z.shiftl b k) = a + b * 2 ^ k.
Proof.
  intros Hk Ha.
  rewrite Z.shiftl_mul_pow2 by lia.
  rewrite <- Z.lxor_lor, <- Z.add_nocarry_lxor; try reflexivity.
  all: apply Z.bits_inj'; intros n Hn; rewrite Z.land_spec, Z.bits_0.
  all: destruct (Z.lt_ge_cases n k).
  all: try (rewrite Z.mul_pow2_bits_low by lia; apply andb_false_r).
  all: destruct (Z.eq_dec a 0) as [->|]; [rewrite Z.bits_0; reflexivity|].
  all: rewrite (Z.bits_above_log2 a n); [reflexivity|lia|].
  all: apply Z.log2_lt_pow2; [lia|]; apply Z.lt_le_trans with (2 ^ k); [lia|].
  all: apply Z.pow_le_mono_r; lia.
Qed.

Lemma Uint16_PutUint16 v : 0 <= v < 65536 -> Uint16 (PutUint16 v) = v.
Proof.
  intros Hv. unfold Uint16, PutUint16, byteAt. cbn [nth].
  rewrite lor_shiftl_add; change (2 ^ 8) with 256; lia.
Qed.

Lemma Uint32_PutUint32 v : 0 <= v < 2 ^ 32 -> Uint32 (PutUint32 v) = v.
Proof.
  intros Hv. unfold Uint32, PutUint32, byteAt. cbn [nth].
  change (2 ^ 32) with 4294967296 in Hv.
  rewrite (lor_shiftl_add _ _ 8); change (2 ^ 8) with 256; [|lia..].
  rewrite (lor_shiftl_add _ _ 16); change (2 ^ 16) with 65536; [|lia..].
  rewrite (lor_shiftl_add _ _ 24); change (2 ^ 24) with 16777216; [|lia..].
  lia.
Qed.

Lemma lxor_range a b n :
  0 <= n -> 0 <= a < 2 ^ n -> 0 <= b < 2 ^ n -> 0 <= Z.lxor a b < 2 ^ n.
Proof.
  intros Hn Ha Hb.
  assert (Hnn : 0 <= Z.lxor a b) by (apply Z.lxor_nonneg; split; lia).
  split; [exact Hnn|].
  destruct (Z.eq_dec n 0) as [->|Hn0].
  { assert (a = 0) by (change (2 ^ 0) with 1 in Ha; lia).
    assert (b = 0) by (change (2 ^ 0) with 1 in Hb; lia). subst. reflexivity. }
  destruct (Z.eq_dec (Z.lxor a b) 0) as [->|Hne]; [lia|].
  apply Z.log2_lt_pow2; [lia|].
  eapply Z.le_lt_trans; [apply Z.log2_lxor; lia|].
  apply Z.max_lub_lt.
  - destruct (Z.eq_dec a 0) as [->|]; [simpl; lia|apply Z.log2_lt_pow2; lia].
  - destruct (Z.eq_dec b 0) as [->|]; [simpl; lia|apply Z.log2_lt_pow2; lia].
Qed.

Lemma tab_range i : 0 <= tab i < 2 ^ 32.
Proof.
  unfold tab.
  assert (Hb : forallb (fun x => (0 <=? x) && (x <? 2 ^ 32)) IEEETable = true)
    by (vm_compute; reflexivity).
  rewrite forallb_forall in Hb.
  destruct (Nat.lt_ge_cases (Z.to_nat i) (length IEEETable)) as [Hlt|Hge].
  - specialize (Hb _ (nth_In IEEETable 0 Hlt)). lia.
  - rewrite nth_overflow by exact Hge. lia.
Qed.

Lemma crcStep_range c v : 0 <= c < 2 ^ 32 -> 0 <= crcStep c v < 2 ^ 32.
Proof.
  intros Hc. unfold crcStep. apply lxor_range; [lia|apply tab_range|].
  rewrite Z.shiftr_div_pow2 by lia. change (2 ^ 8) with 256.
  change (2 ^ 32) with 4294967296 in *. lia.
Qed.

Lemma crcNot_range c : 0 <= c < 2 ^ 32 -> 0 <= crcNot c < 2 ^ 32.
Proof. intros Hc. unfold crcNot. apply lxor_range; [lia|exact Hc|]. change (2^32) with 4294967296. lia. Qed.

Lemma crcNot_involutive c : crcNot (crcNot c) = c.
Proof.
  unfold crcNot. rewrite Z.lxor_assoc, Z.lxor_nilpotent. apply Z.lxor_0_r.
Qed.

Lemma fold_crcStep_range p c :
  0 <= c < 2 ^ 32 -> 0 <= fold_left crcStep p c < 2 ^ 32.
Proof.
  revert c. induction p as [|v p IH]; intros c Hc; [exact Hc|].
  simpl. apply IH, crcStep_range, Hc.
Qed.

Lemma Update_range c p : 0 <= c < 2 ^ 32 -> 0 <= Update c p < 2 ^ 32.
Proof.
  intros Hc. unfold Update. apply crcNot_range, fold_crcStep_range, crcNot_range, Hc.
Qed.

Lemma Update_app c a b : Update (Update c a) b = Update c (a ++ b).
Proof.
  unfold Update. rewrite crcNot_involutive, fold_left_app. reflexivity.
Qed.

Lemma ChecksumIEEE_range p : 0 <= ChecksumIEEE p < 2 ^ 32.
Proof. apply Update_range. change (2^32) with 4294967296. lia. Qed.

(** ** Slices *)

Lemma len_nonneg {A} (l : list A) : 0 <= len l.
Proof. unfold len. lia. Qed.

Lemma len_app {A} (a b : list A) : len (a ++ b) = len a + len b.
Proof. unfold len. rewrite length_app. lia. Qed.

Lemma len_repeat {A} (x : A) n : len (repeat x n) = Z.of_nat n.
Proof. unfold len. rewrite repeat_length. reflexivity. Qed.

Lemma len_take {A} (l : list A) n : len (take n l) = Z.min (Z.of_nat n) (len l).
Proof. unfold len. rewrite length_take. lia. Qed.

Lemma len_drop {A} (l : list A) n : len (drop n l) = Z.max 0 (len l - Z.of_nat n).
Proof. unfold len. rewrite length_drop. lia. Qed.

Lemma len_slice {A} (l : list A) lo hi :
  0 <= lo -> lo <= hi -> hi <= len l -> len (slice l lo hi) = hi - lo.
Proof.
  intros. unfold slice. rewrite len_take, len_drop. lia.
Qed.

Lemma slice_app_mid {A} (pre mid post : list A) lo hi :
  lo = len pre -> hi = lo + len mid -> slice (pre ++ mid ++ post) lo hi = mid.
Proof.
  intros -> ->. unfold slice, len.
  replace (Z.to_nat (Z.of_nat (length pre))) with (length pre) by lia.
  replace (Z.to_nat (Z.of_nat (length pre) + Z.of_nat (length mid)
                     - Z.of_nat (length pre))) with (length mid) by lia.
  rewrite drop_app_length, take_app_length. reflexivity.
Qed.

Lemma slice_slice {A} (l : list A) a b c d :
  0 <= a -> 0 <= c -> c <= d -> a + d <= b ->
  slice (slice l a b) c d = slice l (a + c) (a + d).
Proof.
  intros Ha Hc Hcd Hd. unfold slice.
  rewrite skipn_firstn_comm, drop_drop, take_take.
  replace (Z.to_nat a + Z.to_nat c)%nat with (Z.to_nat (a + c)) by lia.
  f_equal. lia.
Qed.

Lemma slice_app_l {A} (l r : list A) lo hi :
  0 <= lo -> hi <= len l -> slice (l ++ r) lo hi = slice l lo hi.
Proof.
  intros Hlo Hhi. unfold slice, len in *.
  destruct (Z.le_gt_cases hi lo).
  { replace (Z.to_nat (hi - lo)) with O by lia. reflexivity. }
  rewrite drop_app_le by lia. rewrite take_app_le; [reflexivity|].
  rewrite length_drop. lia.
Qed.

Lemma slice_full {A} (l : list A) : slice l 0 (len l) = l.
Proof.
  unfold slice, len. simpl. rewrite Z.sub_0_r, Nat2Z.id. apply firstn_all.
Qed.

Lemma slice_ok_true {A} (l : list A) lo hi :
  0 <= lo -> lo <= hi -> hi <= len l -> slice_ok l lo hi = true.
Proof. intros. unfold slice_ok. rewrite !andb_true_iff. lia. Qed.

(** What a successful [ReadAt] into the front of a block buffer yields. *)
Lemma fileReadAt_ok f n off :
  0 <= off -> 0 <= n -> off + n <= len (fbytes f) ->
  fileReadAt f n off = (slice (fbytes f) off (off + n), None).
Proof.
  intros Hoff Hn Hle. unfold fileReadAt.
  destruct (off <? 0) eqn:E; [lia|].
  unfold slice. replace (off + n - off) with n by lia.
  rewrite len_take, len_drop.
  destruct (_ <? n) eqn:E2; [lia|reflexivity].
Qed.

Lemma len_copyInto buf got : len got <= len buf -> len (copyInto buf got) = len buf.
Proof.
  intros H. unfold copyInto. rewrite len_app, len_drop. unfold len in *. lia.
Qed.

Lemma slice_copyInto buf got lo hi :
  0 <= lo -> hi <= len got -> slice (copyInto buf got) lo hi = slice got lo hi.
Proof. intros. unfold copyInto. apply slice_app_l; assumption. Qed.

(** ** Reading one chunk back *)

Lemma len_PutUint32 v : len (PutUint32 v) = 4.
Proof. reflexivity. Qed.

Lemma len_chunkHeader d t : len (chunkHeader d t) = 7.
Proof. reflexivity. Qed.

Lemma len_chunkBytes ck : len (chunkBytes ck) = 7 + len (ckPayload ck).
Proof. unfold chunkBytes. rewrite len_app, len_chunkHeader. reflexivity. Qed.

Lemma header_sum_field d t :
  slice (chunkHeader d t) 0 4 =
  PutUint32 (Update (ChecksumIEEE (PutUint16 (u16 (len d)) ++ [t])) d).
Proof. reflexivity. Qed.

Lemma header_len_field d t :
  slice (chunkHeader d t) 4 6 = PutUint16 (u16 (len d)).
Proof. reflexivity. Qed.

Lemma header_type_field d t : byteAt (chunkHeader d t) 6 = t.
Proof. reflexivity. Qed.

Lemma chunkBytes_header ck :
  slice (chunkBytes ck) 0 7 = chunkHeader (ckPayload ck) (ckType ck).
Proof.
  unfold chunkBytes. rewrite slice_app_l by (rewrite ?len_chunkHeader; lia).
  apply (slice_full (chunkHeader _ _)).
Qed.

Lemma chunkBytes_payload ck :
  slice (chunkBytes ck) 7 (7 + len (ckPayload ck)) = ckPayload ck.
Proof.
  unfold chunkBytes.
  rewrite <- (app_nil_r (ckPayload ck)) at 2.
  apply slice_app_mid; rewrite ?len_chunkHeader; reflexivity.
Qed.

Lemma chunkBytes_summed ck :
  slice (chunkBytes ck) 4 (7 + len (ckPayload ck)) =
  (PutUint16 (u16 (len (ckPayload ck))) ++ [ckType ck]) ++ ckPayload ck.
Proof.
  unfold chunkBytes, chunkHeader.
  rewrite <- (app_assoc (PutUint32 _)).
  rewrite <- (app_nil_r ((_ ++ [ckType ck]) ++ ckPayload ck)) at 1.
  apply slice_app_mid; [reflexivity|].
  rewrite len_app. change (len (PutUint16 _ ++ [_])) with 3. lia.
Qed.

Lemma chunk_checksum d t :
  Update (ChecksumIEEE (PutUint16 (u16 (len d)) ++ [t])) d =
  ChecksumIEEE ((PutUint16 (u16 (len d)) ++ [t]) ++ d).
Proof. unfold ChecksumIEEE. apply Update_app. Qed.

(** One round of the read loop on a chunk that lies in the file at block
    [B], offset [c]. *)
Lemma readChunks_step fuel seg sbn block segSize B c acc ck pre post :
  fbytes (fd seg) = pre ++ chunkBytes ck ++ post ->
  len pre = B * blockSize + c ->
  0 <= B -> 0 <= c ->
  c + chunkHeaderSize + len (ckPayload ck) <= blockSize ->
  B * blockSize + c + chunkHeaderSize + len (ckPayload ck) <= segSize ->
  segSize <= len (fbytes (fd seg)) ->
  len block = blockSize ->
  (isStartupTraversal seg = true -> sbn <> B) ->
  exists block', len block' = blockSize /\
    readChunks (S fuel) seg sbn block segSize B c acc =
      let sbn' := if isStartupTraversal seg then B else sbn in
      let checksumEnd := c + chunkHeaderSize + len (ckPayload ck) in
      if (ckType ck =? ChunkTypeFull) || (ckType ck =? ChunkTypeLast)
      then (sbn', block',
            Ok (acc ++ ckPayload ck,
                if checksumEnd + chunkHeaderSize >=? blockSize
                then mkPos (id seg) (u32 (B + 1)) 0 0 0
                else mkPos (id seg) B checksumEnd 0 0))
      else readChunks fuel seg sbn' block' segSize (u32 (B + 1)) 0
                      (acc ++ ckPayload ck).
Proof.
  intros HF Hpre HB Hc Hfit Hseg HsegF Hblock Hsbn.
  set (L := len (ckPayload ck)) in *.
  assert (HL : 0 <= L) by apply len_nonneg.
  unfold chunkHeaderSize, blockSize, KB in *.
  set (size := if 32 * 1024 + B * (32 * 1024) >? segSize
               then segSize - B * (32 * 1024) else 32 * 1024).
  assert (Hsize : c + 7 + L <= size /\ size <= 32 * 1024 /\
                  B * (32 * 1024) + size <= len (fbytes (fd seg))).
  { subst size. destruct (_ >? _) eqn:E; lia. }
  set (got := slice (fbytes (fd seg)) (B * (32 * 1024)) (B * (32 * 1024) + size)).
  assert (Hgot : len got = size) by (subst got; rewrite len_slice; lia).
  exists (copyInto block got).
  assert (Hlen' : len (copyInto block got) = 32 * 1024)
    by (rewrite len_copyInto; lia).
  split; [exact Hlen'|].
  assert (Hsl : forall lo hi, 0 <= lo -> lo <= hi -> hi <= 7 + L ->
            slice (copyInto block got) (c + lo) (c + hi) = slice (chunkBytes ck) lo hi).
  { intros lo hi Hlo Hlh Hhi.
    rewrite slice_copyInto by lia. subst got.
    rewrite slice_slice by lia.
    rewrite <- (slice_app_mid pre (chunkBytes ck) post
                  (B * (32 * 1024) + c) (B * (32 * 1024) + c + (7 + L)))
      by (rewrite ?len_chunkBytes; fold L; lia).
    rewrite slice_slice by lia. rewrite <- HF. f_equal; lia. }
  cbn [readChunks].
  unfold chunkHeaderSize, blockSize, KB. fold size.
  destruct (c >=? size) eqn:E1; [lia|].
  assert (Hmust : (if isStartupTraversal seg
                   then negb (sbn =? B) || negb (size =? 32 * 1024) else true) = true).
  { destruct (isStartupTraversal seg); [|reflexivity].
    specialize (Hsbn eq_refl). destruct (sbn =? B) eqn:E; [lia|reflexivity]. }
  rewrite Hmust.
  rewrite slice_ok_true by lia.
  rewrite fileReadAt_ok by lia. fold got.
  replace (c + 7) with (c + 7) by reflexivity.
  rewrite slice_ok_true by lia.
  pose proof (Hsl 0 7 ltac:(lia) ltac:(lia) ltac:(lia)) as Hhdr.
  rewrite Z.add_0_r, chunkBytes_header in Hhdr. rewrite Hhdr.
  rewrite header_len_field, header_sum_field, header_type_field.
  assert (Hu : Uint16 (PutUint16 (u16 (len (ckPayload ck)))) = L).
  { unfold u16. rewrite Z.mod_small by (change (2 ^ 16) with 65536; lia).
    apply Uint16_PutUint16. lia. }
  rewrite Hu.
  rewrite slice_ok_true by lia.
  rewrite <- Z.add_assoc.
  rewrite (Hsl 7 (7 + L)) by lia.
  rewrite (Hsl 4 (7 + L)) by lia.
  subst L. rewrite chunkBytes_payload, chunkBytes_summed.
  rewrite Uint32_PutUint32 by apply Update_range, ChecksumIEEE_range.
  rewrite chunk_checksum, Z.eqb_refl. cbn [negb].
  cbv zeta. rewrite !Z.add_assoc.
  destruct (isStartupTraversal seg); reflexivity.
Qed.

(** ** Records as chains of chunks *)

Lemma chain_nonempty first c log data : chain first c log data -> log <> [].
Proof. destruct log; [contradiction|discriminate]. Qed.

(** The payloads of a chain add up to the record, and every chunk costs
    one header. *)
Lemma chain_len log : forall first c data,
  chain first c log data ->
  len (concat (map chunkBytes log)) = chunkHeaderSize * len log + len data.
Proof.
  induction log as [|ck rest IH]; intros first c data H; [contradiction|].
  cbn [map concat]. rewrite len_app, len_chunkBytes.
  destruct H as (Hoff & Hfit & H). destruct rest as [|ck' rest'].
  - destruct H as (_ & <-). cbn. unfold len, chunkHeaderSize. cbn [length]. lia.
  - destruct H as (_ & _ & Htake & Hrest).
    rewrite (IH _ _ _ Hrest).
    rewrite len_drop. 
    assert (len (ckPayload ck) <= len data).
    { rewrite <- Htake at 1. rewrite len_take. lia. }
    unfold len, chunkHeaderSize in *. cbn [length]. lia.
Qed.

(** Reading a chain that lies in the file at block [B], offset [c]
    gives the record back. *)
Lemma readChunks_chain seg segSize log : forall first c data B pre post acc sbn block fuel,
  chain first c log data ->
  fbytes (fd seg) = pre ++ concat (map chunkBytes log) ++ post ->
  len pre = B * blockSize + c ->
  0 <= B -> B + len log < 2 ^ 32 -> 0 <= c ->
  B * blockSize + c + len (concat (map chunkBytes log)) <= segSize ->
  segSize <= len (fbytes (fd seg)) ->
  len block = blockSize ->
  (isStartupTraversal seg = true -> sbn < B) ->
  (length log <= fuel)%nat ->
  exists sbn' block' next,
    readChunks fuel seg sbn block segSize B c acc
    = (sbn', block', Ok (acc ++ data, next)).
Proof.
  induction log as [|ck rest IH];
    intros first c data B pre post acc sbn block fuel
           Hch HF Hpre HB HBn Hc Hseg HsegF Hblock Hsbn Hfuel;
    [contradiction|].
  destruct fuel as [|fuel]; [cbn in Hfuel; lia|].
  cbn [map concat] in HF, Hseg. rewrite <- app_assoc in HF.
  rewrite len_app, len_chunkBytes in Hseg.
  pose proof (len_nonneg (concat (map chunkBytes rest))) as Hnn.
  destruct Hch as (Hoff & Hfit & Hch).
  destruct (readChunks_step fuel seg sbn block segSize B c acc ck pre
              (concat (map chunkBytes rest) ++ post))
    as (block' & Hblock' & Heq); try assumption; try lia.
  all: try (unfold chunkHeaderSize in *; lia).
  all: try (intros Hs; specialize (Hsbn Hs); lia).
  rewrite Heq. cbv zeta.
  destruct rest as [|ck' rest'].
  - destruct Hch as (Hty & <-).
    assert (Hflag : (ckType ck =? ChunkTypeFull) || (ckType ck =? ChunkTypeLast) = true)
      by (rewrite Hty; destruct first; reflexivity).
    rewrite Hflag. eauto.
  - destruct Hch as (Hty & Hfull & Htake & Hrest).
    assert (Hflag : (ckType ck =? ChunkTypeFull) || (ckType ck =? ChunkTypeLast) = false)
      by (rewrite Hty; destruct first; reflexivity).
    rewrite Hflag.
    assert (HlenS : len (ck :: ck' :: rest') = 1 + len (ck' :: rest'))
      by (unfold len; cbn [length]; lia).
    assert (Hu : u32 (B + 1) = B + 1).
    { unfold u32. apply Z.mod_small. pose proof (len_nonneg (ck' :: rest')). lia. }
    rewrite Hu.
    destruct (IH false 0 (drop (length (ckPayload ck)) data) (B + 1)
                (pre ++ chunkBytes ck) post (acc ++ ckPayload ck)
                (if isStartupTraversal seg then B else sbn) block' fuel)
      as (sbn' & block'' & next & Hr); try assumption; try lia.
    + rewrite <- app_assoc. exact HF.
    + rewrite len_app, len_chunkBytes. unfold chunkHeaderSize, blockSize, KB in *. lia.
    + unfold chunkHeaderSize, blockSize, KB in *. lia.
    + intros ->. lia.
    + cbn [length] in Hfuel |- *. lia.
    + rewrite Hr. exists sbn', block'', next.
      rewrite <- app_assoc, <- Htake at 1. rewrite take_drop. reflexivity.
Qed.

(** ** What [writeToBuffer] appends *)

Lemma appendChunkBuffer_chunkBytes buf c ty payload :
  appendChunkBuffer buf payload ty = buf ++ chunkBytes (mkChunk c ty payload).
Proof.
  unfold appendChunkBuffer, chunkBytes. cbn [ckPayload ckType].
  rewrite app_assoc. reflexivity.
Qed.

Lemma len_cons {A} (x : A) l : len (x :: l) = 1 + len l.
Proof. unfold len. cbn [length]. lia. Qed.

Lemma drop_all_len {A} (l : list A) n : len l <= Z.of_nat n -> drop n l = [].
Proof. intros H. apply drop_ge. unfold len in H. lia. Qed.

(** The chunk loop, started on a record that does not fit in the rest of
    the block, or continued at the start of a block, appends a chain. *)
Lemma writeChunks_spec fuel : forall data leftSize blockCount c buf log,
  len data < 2 ^ 31 ->
  0 < leftSize <= len data ->
  0 <= c -> c + chunkHeaderSize < blockSize ->
  0 <= blockCount -> blockCount + leftSize < 2 ^ 31 ->
  (Z.to_nat leftSize <= fuel)%nat ->
  (leftSize = len data -> c + len data + chunkHeaderSize > blockSize) ->
  (leftSize < len data -> c = 0) ->
  exists newlog,
    writeChunks fuel data (len data) leftSize blockCount c buf log
    = Some (blockCount + len newlog, buf ++ concat (map chunkBytes newlog),
            log ++ newlog)
    /\ chain (leftSize =? len data) c newlog
             (drop (Z.to_nat (len data - leftSize)) data).
Proof.
  induction fuel as [|fuel IH];
    intros data leftSize blockCount c buf log HD Hleft Hc Hc7 Hbc Hbcl Hfuel Hfirst Hnext;
    [lia|].
  set (D := len data) in *.
  change (2 ^ 31) with 2147483648 in *.
  unfold chunkHeaderSize, blockSize, KB in *.
  cbn [writeChunks]. unfold chunkHeaderSize, blockSize, KB.
  destruct (leftSize >? 0) eqn:E0; [|lia]. clear E0.
  set (cs := Z.min (32 * 1024 - c - 7) leftSize).
  assert (E1 : (if u32 (32 * 1024 - c - 7) >? leftSize then leftSize
                else u32 (32 * 1024 - c - 7)) = cs).
  { unfold u32. rewrite Z.mod_small by (change (2 ^ 32) with 4294967296; lia).
    subst cs. destruct (_ >? _) eqn:E; lia. }
  rewrite !E1.
  assert (Hcs : 0 < cs <= leftSize) by (subst cs; lia).
  assert (E2 : (if u32 (D - leftSize + cs) >? D then D else u32 (D - leftSize + cs))
               = D - leftSize + cs).
  { unfold u32. rewrite Z.mod_small by (change (2 ^ 32) with 4294967296; lia).
    destruct (D - leftSize + cs >? D) eqn:E; lia. }
  rewrite E2.
  assert (E3 : u32 (D - leftSize) = D - leftSize).
  { unfold u32. apply Z.mod_small. change (2 ^ 32) with 4294967296. lia. }
  rewrite E3.
  assert (E4 : u32 (leftSize - cs) = leftSize - cs).
  { unfold u32. apply Z.mod_small. change (2 ^ 32) with 4294967296. lia. }
  rewrite E4.
  assert (E5 : u32 (blockCount + 1) = blockCount + 1).
  { unfold u32. apply Z.mod_small. change (2 ^ 32) with 4294967296. lia. }
  rewrite E5.
  set (payload := slice data (D - leftSize) (D - leftSize + cs)).
  assert (Hpl : len payload = cs) by (subst payload; rewrite len_slice; lia).
  assert (Hpay : payload = take (Z.to_nat cs) (drop (Z.to_nat (D - leftSize)) data)).
  { subst payload. unfold slice. f_equal. f_equal. lia. }
  set (ty := if leftSize =? D then ChunkTypeFirst
             else if leftSize =? cs then ChunkTypeLast else ChunkTypeMiddle).
  rewrite (appendChunkBuffer_chunkBytes buf c ty payload).
  set (ck := mkChunk c ty payload).
  destruct (Z.eq_dec cs leftSize) as [Hfin|Hmore].
  - (* the last chunk of the record *)
    assert (HltD : leftSize < D) by (subst cs; lia).
    rewrite Hfin, Z.sub_diag.
    exists [ck]. split.
    + destruct fuel; cbn [writeChunks Z.gtb Z.compare map concat];
        rewrite app_nil_r; reflexivity.
    + subst ck ty. cbn [chain]. cbn [ckOffset ckPayload ckType]. rewrite Hpl.
      unfold chunkHeaderSize, blockSize, KB.
      destruct (leftSize =? D) eqn:E; [lia|].
      repeat split; [lia| |].
      * rewrite Hfin, Z.eqb_refl. reflexivity.
      * rewrite Hpay. apply take_ge. rewrite length_drop. unfold D, len in *. lia.
  - (* a chunk that fills its block; more follow *)
    assert (Hcsv : cs = 32 * 1024 - c - 7) by (subst cs; lia).
    assert (E6 : u32 (c + cs + 7) mod (32 * 1024) = 0).
    { unfold u32. rewrite Hcsv. replace (c + (32 * 1024 - c - 7) + 7) with 32768 by lia.
      reflexivity. }
    rewrite E6.
    destruct (IH data (leftSize - cs) (blockCount + 1) 0 (buf ++ chunkBytes ck)
                 (log ++ [ck])) as (newlog & Hw & Hchain); try lia.
    fold D in Hw, Hchain. rewrite Hw.
    exists (ck :: newlog). split.
    + rewrite len_cons. cbn [map concat].
      rewrite <- !app_assoc. cbn [app]. do 2 f_equal. f_equal. lia.
    + destruct (leftSize - cs =? D) eqn:E; [lia|].
      subst ck ty. cbn [chain]. cbn [ckOffset ckPayload ckType]. rewrite Hpl.
      unfold chunkHeaderSize, blockSize, KB.
      destruct newlog as [|ck' newlog']; [contradiction|].
      assert (Hlenp : length payload = Z.to_nat cs) by (unfold len in Hpl; lia).
      split; [reflexivity|]. split; [lia|]. split; [|split; [lia|split]].
      * destruct (leftSize =? D); [reflexivity|].
        destruct (leftSize =? cs) eqn:E'; [lia|reflexivity].
      * rewrite Hlenp. symmetry. exact Hpay.
      * rewrite Hlenp, drop_drop.
        replace (Z.to_nat (D - leftSize) + Z.to_nat cs)%nat
          with (Z.to_nat (D - (leftSize - cs))) by lia.
        exact Hchain.
Qed.

(** In a chain every chunk but the first and the last carries a full
    block of payload. *)
Lemma chain_count_tail log : forall data,
  chain false 0 log data ->
  (len log - 1) * (blockSize - chunkHeaderSize) <= len data.
Proof.
  induction log as [|ck rest IH]; intros data H; [contradiction|].
  destruct H as (_ & _ & H). rewrite len_cons.
  destruct rest as [|ck' rest'].
  - pose proof (len_nonneg data). change (len []) with 0. lia.
  - destruct H as (_ & Hfull & Htake & Hrest).
    specialize (IH _ Hrest). rewrite len_drop in IH.
    assert (len (ckPayload ck) <= len data).
    { rewrite <- Htake at 1. rewrite len_take. lia. }
    unfold len in *. lia.
Qed.

Lemma chain_count log first c data :
  chain first c log data ->
  (len log - 2) * (blockSize - chunkHeaderSize) <= len data.
Proof.
  destruct log as [|ck rest]; [contradiction|].
  intros (_ & _ & H). rewrite len_cons.
  destruct rest as [|ck' rest'].
  - pose proof (len_nonneg data). change (len []) with 0.
    unfold blockSize, chunkHeaderSize, KB. lia.
  - destruct H as (_ & _ & _ & Hrest).
    apply chain_count_tail in Hrest. rewrite len_drop in Hrest.
    pose proof (len_nonneg data).
    unfold blockSize, chunkHeaderSize, KB in *. lia.
Qed.

Lemma setCounters_twice seg a b c d :
  setCounters (setCounters seg a b) c d = setCounters seg c d.
Proof. reflexivity. Qed.

(** [writeToBuffer] on an open segment whose cursor lies inside a block:
    it pads when the header does not fit, then appends a chain for the
    record, and moves the counters over what it appended. *)
Lemma writeToBuffer_spec seg data cb :
  closed seg = false ->
  0 <= currentBlockNumber seg < 2 ^ 31 ->
  0 <= currentBlockSize seg < blockSize ->
  len data < 2 ^ 31 ->
  let padded := currentBlockSize seg + chunkHeaderSize >=? blockSize in
  let pad := if padded then blockSize - currentBlockSize seg else 0 in
  let B1 := if padded then currentBlockNumber seg + 1 else currentBlockNumber seg in
  let c1 := if padded then 0 else currentBlockSize seg in
  exists log,
    chain true c1 log data /\
    let tot := chunkHeaderSize * len log + len data in
    writeToBuffer seg data cb =
      (setCounters seg (B1 + (c1 + tot) / blockSize) ((c1 + tot) mod blockSize),
       Ok (mkFramed (mkPos (id seg) B1 c1 tot 0)
                    (cb ++ repeat 0 (Z.to_nat pad) ++ concat (map chunkBytes log))
                    pad log)).
Proof.
  intros Hclosed Hbn Hcbs HD padded pad B1 c1.
  pose proof (len_nonneg data) as HD0.
  change (2 ^ 31) with 2147483648 in *.
  unfold writeToBuffer. rewrite Hclosed.
  remember (cb ++ repeat 0 (Z.to_nat pad)) as cb1 eqn:Hcb1.
  assert (Hpre :
    (if (u32 (currentBlockSize seg + chunkHeaderSize) >=? blockSize)
        && (currentBlockSize seg <? blockSize)
     then (setCounters seg (u32 (currentBlockNumber seg + 1)) 0,
           cb ++ repeat 0 (Z.to_nat (blockSize - currentBlockSize seg)),
           u32 (blockSize - currentBlockSize seg))
     else (seg, cb, 0))
    = (setCounters seg B1 c1, cb1, pad)).
  { subst cb1. subst pad B1 c1 padded. unfold u32, chunkHeaderSize, blockSize, KB in *.
    rewrite (Z.mod_small (currentBlockSize seg + 7)) by (change (2 ^ 32) with 4294967296; lia).
    destruct (currentBlockSize seg + 7 >=? 32 * 1024) eqn:E.
    - destruct (currentBlockSize seg <? 32 * 1024) eqn:E'; [|lia].
      cbn [andb]. rewrite !Z.mod_small by (change (2 ^ 32) with 4294967296; lia).
      reflexivity.
    - cbn [andb]. cbn [Z.to_nat repeat]. rewrite app_nil_r.
      destruct seg; reflexivity. }
  rewrite Hpre. cbv beta iota.
  cbn [currentBlockSize currentBlockNumber setCounters id].
  assert (Hc1 : 0 <= c1 /\ c1 + chunkHeaderSize < blockSize).
  { subst c1 padded. unfold chunkHeaderSize, blockSize, KB in *.
    destruct (_ >=? _) eqn:E; lia. }
  assert (HB1 : 0 <= B1 <= 2147483648) by (subst B1; destruct padded; lia).
  assert (Hpad : 0 <= pad <= blockSize) by (subst pad; destruct padded; lia).
  assert (Hlcb1 : len cb1 = len cb + pad).
  { subst cb1. rewrite len_app, len_repeat. lia. }
  clearbody pad B1 c1. clear Hpre padded.
  unfold chunkHeaderSize, blockSize, KB in *.
  assert (Eu : u32 (len data) = len data).
  { unfold u32. apply Z.mod_small. change (2 ^ 32) with 4294967296. lia. }
  rewrite !Eu.
  assert (Eu2 : u32 (c1 + len data + 7) = c1 + len data + 7).
  { unfold u32. apply Z.mod_small. change (2 ^ 32) with 4294967296. lia. }
  rewrite Eu2.
  assert (Hfin : forall log, chain true c1 log data ->
    (let position := setChunkSize (mkPos (id seg) B1 c1 0 0) (7 * len log + len data) in
     let endBufferLen := len (cb1 ++ concat (map chunkBytes log)) in
     if negb (u32 (7 * len log + len data + pad) =? u32 (endBufferLen - len cb))
     then (setCounters seg B1 c1, Err ErrWrongChunkSize)
     else
       let cbs := u32 (c1 + (7 * len log + len data)) in
       let seg' :=
         if cbs >=? 32 * 1024
         then setCounters seg (u32 (B1 + cbs / (32 * 1024))) (cbs mod (32 * 1024))
         else setCounters seg B1 cbs in
       (seg', Ok (mkFramed position (cb1 ++ concat (map chunkBytes log)) pad log)))
    = (setCounters seg (B1 + (c1 + (7 * len log + len data)) / (32 * 1024))
                       ((c1 + (7 * len log + len data)) mod (32 * 1024)),
       Ok (mkFramed (mkPos (id seg) B1 c1 (7 * len log + len data) 0)
                    (cb1 ++ concat (map chunkBytes log)) pad log))).
  { intros log Hch. cbv zeta.
    pose proof (chain_len _ _ _ _ Hch) as Hlen.
    pose proof (chain_count _ _ _ _ Hch) as Hcnt.
    pose proof (len_nonneg log) as Hl0.
    unfold chunkHeaderSize, blockSize, KB in *.
    rewrite len_app, Hlen, Hlcb1.
    replace (len cb + pad + (7 * len log + len data) - len cb)
      with (7 * len log + len data + pad) by lia.
    rewrite Z.eqb_refl. cbn [negb].
    assert (Hu : u32 (c1 + (7 * len log + len data)) = c1 + (7 * len log + len data)).
    { unfold u32. apply Z.mod_small. change (2 ^ 32) with 4294967296. lia. }
    rewrite Hu. unfold setChunkSize. cbn [SegmentId BlockNumber ChunkOffset ValueNum].
    destruct (_ >=? _) eqn:E.
    - f_equal. f_equal. unfold u32. apply Z.mod_small.
      change (2 ^ 32) with 4294967296. lia.
    - f_equal. f_equal; [rewrite Z.div_small by lia; lia|rewrite Z.mod_small by lia; lia]. }
  destruct (c1 + len data + 7 <=? 32 * 1024) eqn:Efit.
  - (* one Full chunk *)
    set (ck := mkChunk c1 ChunkTypeFull data).
    exists [ck]. split.
    { subst ck. cbn [chain ckOffset ckPayload ckType].
      unfold chunkHeaderSize, blockSize, KB. repeat split; lia. }
    rewrite (appendChunkBuffer_chunkBytes cb1 c1). fold ck.
    assert (Hch : chain true c1 [ck] data).
    { subst ck. cbn [chain ckOffset ckPayload ckType].
      unfold chunkHeaderSize, blockSize, KB. repeat split; lia. }
    specialize (Hfin [ck] Hch).
    change (len [ck]) with 1 in *. 
    replace (u32 (len data + 7)) with (7 * 1 + len data)
      by (unfold u32; rewrite Z.mod_small by (change (2 ^ 32) with 4294967296; lia); lia).
    cbn [map concat] in Hfin |- *. rewrite app_nil_r in Hfin |- *.
    cbv zeta in Hfin |- *. rewrite !setCounters_twice, Hfin. subst cb1.
    rewrite <- app_assoc. reflexivity.
  - (* a chain over several blocks *)
    destruct (writeChunks_spec (S (length data)) data (len data) 0 c1 cb1 [])
      as (log & Hw & Hch); try (unfold chunkHeaderSize, blockSize, KB, len in *; lia).
    rewrite Z.eqb_refl, Z.sub_diag in Hch.
    change (Z.to_nat 0) with O in Hch. rewrite drop_0 in Hch.
    rewrite Hw. exists log. split; [exact Hch|].
    specialize (Hfin log Hch).
    pose proof (chain_count _ _ _ _ Hch) as Hcnt.
    pose proof (len_nonneg log) as Hl0.
    unfold chunkHeaderSize, blockSize, KB in *.
    replace (u32 ((0 + len log) * 7 + len data)) with (7 * len log + len data)
      by (unfold u32; rewrite Z.mod_small by (change (2 ^ 32) with 4294967296; lia); lia).
    cbn [app]. cbv zeta in Hfin |- *. rewrite !setCounters_twice, Hfin. subst cb1.
    rewrite <- app_assoc. reflexivity.
Qed.

(** A chain of [n] chunks that starts at offset [c] of a block ends in
    the [n]-th block from there. *)
Lemma chain_span log : forall first c data,
  chain first c log data -> 0 <= c ->
  (len log - 1) * blockSize < c + len (concat (map chunkBytes log))
  /\ c + len (concat (map chunkBytes log)) <= len log * blockSize.
Proof.
  induction log as [|ck rest IH]; intros first c data H Hc; [contradiction|].
  destruct H as (_ & Hfit & H). rewrite len_cons.
  cbn [map concat]. rewrite len_app, len_chunkBytes.
  pose proof (len_nonneg (ckPayload ck)).
  destruct rest as [|ck' rest'].
  - cbn [map concat]. change (len []) with 0.
    unfold chunkHeaderSize, blockSize, KB in *. lia.
  - destruct H as (_ & Hfull & _ & Hrest).
    specialize (IH _ _ _ Hrest ltac:(lia)).
    unfold chunkHeaderSize, blockSize, KB in *. lia.
Qed.

(** ** Reading a record back from a segment *)

Lemma segRead_chain pool seg log data B c pre post :
  chain true c log data ->
  fbytes (fd seg) = pre ++ concat (map chunkBytes log) ++ post ->
  len pre = B * blockSize + c ->
  0 <= B < 2 ^ 31 + 1 -> 0 <= c ->
  closed seg = false ->
  Size seg = len (fbytes (fd seg)) ->
  len (sbBlock (startup seg)) = blockSize ->
  (isStartupTraversal seg = true -> sbBlockNumber (startup seg) < B) ->
  len data < 2 ^ 31 ->
  snd (segRead pool seg B c) = Ok data.
Proof.
  intros Hch HF Hpre HB Hc Hclosed Hsize Hsb Hsbn HD.
  change (2 ^ 31) with 2147483648 in *.
  pose proof (chain_span _ _ _ _ Hch Hc) as (Hlo & Hhi).
  pose proof (chain_count _ _ _ _ Hch) as Hcnt.
  pose proof (len_nonneg log) as Hl0.
  pose proof (len_nonneg data) as Hd0.
  pose proof (len_nonneg post) as Hp0.
  assert (HlenF : len (fbytes (fd seg)) =
                  B * blockSize + c + len (concat (map chunkBytes log)) + len post).
  { rewrite HF, !len_app. lia. }
  unfold segRead, readInternal. rewrite Hclosed.
  set (block := if isStartupTraversal seg then sbBlock (startup seg)
                else if negb (len (getBuffer pool) =? blockSize)
                     then repeat 0 (Z.to_nat blockSize) else getBuffer pool).
  assert (Hblock : len block = blockSize).
  { subst block. destruct (isStartupTraversal seg); [exact Hsb|].
    destruct (len (getBuffer pool) =? blockSize) eqn:E; cbn [negb]; [lia|].
    rewrite len_repeat. unfold blockSize, KB. lia. }
  destruct (readChunks_chain seg (Size seg) log true c data B pre post []
              (sbBlockNumber (startup seg)) block (readFuel seg))
    as (sbn' & block' & next & Hr); try assumption; try lia.
  - change (2 ^ 32) with 4294967296.
    unfold blockSize, chunkHeaderSize, KB in *. lia.
  - unfold readFuel. rewrite Hsize, HlenF.
    assert (len log - 1 <= (B * blockSize + c + len (concat (map chunkBytes log)) + len post) / blockSize).
    { apply Z.div_le_lower_bound; unfold blockSize, KB in *; nia. }
    unfold len in *. lia.
  - rewrite Hr. destruct (isStartupTraversal seg); reflexivity.
Qed.

(** ** A successful write, step by step *)

(** A successful [segment.Write] appended the padding and a chain for
    the record to the file, and left counters that describe the file. *)
Lemma segWrite_inv seg data seg' fr :
  segOk seg -> len data < 2 ^ 31 ->
  segWrite seg data = (seg', Ok fr) ->
  let padded := currentBlockSize seg + chunkHeaderSize >=? blockSize in
  let pad := if padded then blockSize - currentBlockSize seg else 0 in
  let B1 := if padded then currentBlockNumber seg + 1 else currentBlockNumber seg in
  let c1 := if padded then 0 else currentBlockSize seg in
  exists log,
    chain true c1 log data /\
    let tot := chunkHeaderSize * len log + len data in
    let frames := repeat 0 (Z.to_nat pad) ++ concat (map chunkBytes log) in
    fr = mkFramed (mkPos (id seg) B1 c1 tot 0) frames pad log /\
    seg' = mkSegment (id seg)
             (mkFile (fbytes (fd seg) ++ frames) (fsynced (fd seg)) true)
             (B1 + (c1 + tot) / blockSize) ((c1 + tot) mod blockSize)
             false (mkStartupBlock (sbBlock (startup seg)) (-1))
             (isStartupTraversal seg).
Proof.
  intros (Hbn & Hcbs & Hlen & Hsb) HD Hw padded pad B1 c1.
  unfold segWrite in Hw.
  destruct (closed seg) eqn:Hclosed; [discriminate|].
  destruct (writeToBuffer_spec seg data [] Hclosed Hbn Hcbs HD)
    as (log & Hch & Hspec).
  cbv zeta in Hspec. fold padded pad B1 c1 in Hspec.
  rewrite Hspec in Hw. cbn [frBuf app] in Hw.
  exists log. split; [exact Hch|]. cbv zeta.
  unfold writeChunkBuffer in Hw.
  cbn [currentBlockSize setCounters fd startup] in Hw.
  destruct (_ >? blockSize) eqn:E in Hw.
  { unfold blockSize, KB in E. lia. }
  unfold fileWrite in Hw.
  destruct (fhealthy (fd seg)) eqn:Hh; [|discriminate].
  injection Hw as <- <-. split; [reflexivity|].
  unfold setStartup, setFd, setCounters. cbn. rewrite Hclosed. reflexivity.
Qed.

Lemma nonceWrite_inv nf nonce p nf' p' :
  nonceWrite nf nonce p = (nf', p', None) ->
  (len nonce = 0 /\ nf' = nf /\ p' = p)
  \/ (len nonce <> 0 /\
      nf' = mkNonceFile (mkFile (fbytes (nfd nf) ++ nonce) (fsynced (nfd nf)) true)
                        (i64 (curNum nf + 1)) (nclosed nf) /\
      p' = setValueNum p (curNum nf)).
Proof.
  unfold nonceWrite, fileWrite. intros H.
  destruct (len nonce =? 0) eqn:E.
  - left. injection H as <- <-. repeat split. lia.
  - right. destruct (fhealthy (nfd nf)); [|discriminate].
    injection H as <- <-. repeat split. lia.
Qed.

Lemma segSync_inv seg seg' :
  segSync seg = (seg', None) ->
  exists f, seg' = setFd seg f /\ fbytes f = fbytes (fd seg) /\
            (closed seg = false -> fsynced f = len (fbytes (fd seg))).
Proof.
  unfold segSync, fileSync. intros H.
  destruct (closed seg) eqn:Hc.
  - injection H as <-. exists (fd seg). destruct seg. repeat split. discriminate.
  - destruct (fhealthy (fd seg)); [|discriminate].
    injection H as <-. eexists. repeat split.
Qed.

Lemma nonceSync_inv nf nf' :
  nonceSync nf = (nf', None) ->
  exists f, nf' = mkNonceFile f (curNum nf) (nclosed nf) /\
            fbytes f = fbytes (nfd nf) /\
            (nclosed nf = false -> fsynced f = len (fbytes (nfd nf))) /\
            fhealthy f = fhealthy (nfd nf).
Proof.
  unfold nonceSync, fileSync. intros H.
  destruct (nclosed nf) eqn:Hc.
  - injection H as <-. exists (nfd nf). destruct nf. cbn in *. subst.
    repeat split. discriminate.
  - destruct (fhealthy (nfd nf)) eqn:Hh; [|discriminate].
    injection H as <-. eexists. repeat split.
Qed.

(** What a successful [writeRecord] leaves behind. *)
Lemma writeRecord_inv w data nonce w' pos :
  writeRecord w data nonce = (w', Ok pos) ->
  exists seg' fr nf' f fn,
    segWrite (activeSegment w) data = (seg', Ok fr) /\
    nonceWrite (nonceFile_ w) nonce (frPos fr) = (nf', pos, None) /\
    activeSegment w' = setFd seg' f /\ fbytes f = fbytes (fd seg') /\
    nonceFile_ w' = mkNonceFile fn (curNum nf') (nclosed nf') /\
    fbytes fn = fbytes (nfd nf') /\
    olderSegments w' = olderSegments w /\
    dataDir w' = dataDir w /\ options w' = options w.
Proof.
  intros H. unfold writeRecord in H.
  destruct (segWrite (activeSegment w) data) as [seg' [fr|e| |]] eqn:Hsw;
    try discriminate.
  cbn [nonceFile_ setActive] in H.
  destruct (nonceWrite (nonceFile_ w) nonce (frPos fr)) as [[nf' position] [e|]] eqn:Hnw;
    [discriminate|].
  cbv zeta in H.
  cbn [options bytesWrite setBytesWrite setNonceFile setActive activeSegment nonceFile_] in H.
  exists seg', fr, nf'.
  match type of H with
  | (if ?c then _ else _) = _ => destruct c
  end.
  - destruct (segSync seg') as [seg2 [e|]] eqn:Hss; [discriminate|].
    destruct (nonceSync nf') as [nf2 [e|]] eqn:Hns; [discriminate|].
    injection H as <- <-.
    apply segSync_inv in Hss as (f & -> & Hf & _).
    apply nonceSync_inv in Hns as (fn & -> & Hfn & _ & _).
    exists f, fn. repeat split; assumption.
  - injection H as <- <-.
    exists (fd seg'), (nfd nf'). destruct seg', nf'. repeat split; assumption.
Qed.

Lemma openSegmentFile_ok existing i :
  (forall f, existing = Some f -> len (fbytes f) < 2 ^ 46) ->
  segOk (openSegmentFile existing i).
Proof.
  intros H. unfold segOk, openSegmentFile, Size, fileSeekEnd.
  cbn [currentBlockNumber currentBlockSize fd startup sbBlock].
  set (f := match existing with Some f => f | None => emptyFile end).
  assert (Hf : 0 <= len (fbytes f) < 2 ^ 46).
  { split; [apply len_nonneg|]. subst f. destruct existing; [auto|reflexivity]. }
  change (2 ^ 46) with 70368744177664 in Hf. change (2 ^ 31) with 2147483648.
  unfold u32, blockSize, KB in *. change (2 ^ 32) with 4294967296.
  rewrite len_repeat.
  rewrite !(Z.mod_small (len (fbytes f) / _)) by lia.
  rewrite !(Z.mod_small (len (fbytes f) mod _)) by lia.
  split; [lia|]. split; [lia|]. split; lia.
Qed.

Lemma rotate_inv w w1 :
  rotateActiveSegment w = (w1, None) ->
  exists segS nfS,
    segSync (activeSegment w) = (segS, None) /\
    nonceSync (nonceFile_ w) = (nfS, None) /\
    activeSegment w1 =
      openSegmentFile (dirFiles (dataDir w) !! u32 (id (activeSegment w) + 1))
                      (u32 (id (activeSegment w) + 1)) /\
    olderSegments w1 = <[id (activeSegment w) := segS]> (olderSegments w) /\
    nonceFile_ w1 = nfS /\
    bytesWrite w1 = 0 /\
    options w1 = options w /\
    dataDir w1 = mkDir (delete (u32 (id (activeSegment w) + 1)) (dirFiles (dataDir w))) true /\
    pendingWrites w1 = pendingWrites w /\
    pendingNonceWrites w1 = pendingNonceWrites w /\
    pendingSize w1 = pendingSize w.
Proof.
  unfold rotateActiveSegment. intros H.
  destruct (segSync (activeSegment w)) as [segS [e|]] eqn:Hss; [discriminate|].
  cbn [nonceFile_ setActive] in H.
  destruct (nonceSync (nonceFile_ w)) as [nfS [e|]] eqn:Hns; [discriminate|].
  cbn [dataDir setBytesWrite setNonceFile setActive activeSegment] in H.
  unfold openInDir in H.
  destruct (dirOk (dataDir w)); [|discriminate].
  injection H as <-.
  apply segSync_inv in Hss as Hss'. destruct Hss' as (f & -> & _ & _).
  exists (setFd (activeSegment w) f), nfS.
  cbn. repeat split; assumption.
Qed.

(** [writeRecord] followed by [Read] at the position it returned. *)
Lemma writeRecord_read pool w data nonce w' pos :
  segOk (activeSegment w) ->
  len (fbytes (nfd (nonceFile_ w))) = nonceSize * curNum (nonceFile_ w) ->
  curNum (nonceFile_ w) < 2 ^ 59 ->
  len data < 2 ^ 31 -> len nonce = nonceSize ->
  writeRecord w data nonce = (w', Ok pos) ->
  snd (Read pool w' pos) = Ok (data, nonce).
Proof.
  intros Hok Hnl Hcur HD Hn Hw.
  destruct (writeRecord_inv _ _ _ _ _ Hw)
    as (seg' & fr & nf' & f & fn & Hsw & Hnw & Hact & Hf & Hnf & Hfn & Hold & _ & _).
  pose proof (segWrite_inv _ _ _ _ Hok HD Hsw) as Hinv. cbv zeta in Hinv.
  destruct Hinv as (log & Hch & -> & ->).
  apply nonceWrite_inv in Hnw as [(Hz & _)|(_ & -> & ->)];
    [unfold nonceSize in Hn; lia|].
  cbn [frPos fbytes fd nfd curNum nclosed] in *.
  destruct Hok as (Hbn & Hcbs & Hlen & Hsb).
  pose proof (len_nonneg (fbytes (nfd (nonceFile_ w)))) as Hn0.
  unfold Read. rewrite Hact, Hnf.
  cbn [SegmentId setValueNum setFd id BlockNumber ChunkOffset ValueNum nfd].
  rewrite Z.eqb_refl.
  assert (Hoff : i64 (curNum (nonceFile_ w) * nonceSize)
                 = len (fbytes (nfd (nonceFile_ w)))).
  { rewrite Hnl. unfold i64, nonceSize in *.
    change (2 ^ 59) with 576460752303423488 in Hcur.
    change (2 ^ 63) with 9223372036854775808.
    change (2 ^ 64) with 18446744073709551616.
    rewrite Z.mod_small; lia. }
  rewrite Hoff.
  rewrite fileReadAt_ok by (rewrite ?Hfn, ?len_app; unfold nonceSize in *; lia).
  rewrite Hfn.
  assert (Hsl : slice (fbytes (nfd (nonceFile_ w)) ++ nonce)
                  (len (fbytes (nfd (nonceFile_ w))))
                  (len (fbytes (nfd (nonceFile_ w))) + nonceSize) = nonce).
  { rewrite <- (app_nil_r nonce) at 1.
    apply slice_app_mid; rewrite ?Hn; reflexivity. }
  rewrite Hsl, Hn, Z.eqb_refl. cbn [negb].
  set (padded := currentBlockSize (activeSegment w) + chunkHeaderSize >=? blockSize) in *.
  set (pad := if padded then blockSize - currentBlockSize (activeSegment w) else 0) in *.
  set (B1 := if padded then currentBlockNumber (activeSegment w) + 1
             else currentBlockNumber (activeSegment w)) in *.
  set (c1 := if padded then 0 else currentBlockSize (activeSegment w)) in *.
  set (tot := chunkHeaderSize * len log + len data) in *.
  match goal with
  | |- context [segRead pool ?s B1 c1] => set (segR := s)
  end.
  assert (Hread : snd (segRead pool segR B1 c1) = Ok data).
  { assert (Hc1 : 0 <= c1) by (subst c1; destruct padded; lia).
    assert (HB1 : 0 <= B1 < 2 ^ 31 + 1) by (subst B1; destruct padded; lia).
    assert (Hpadv : 0 <= pad) by (subst pad; destruct padded; lia).
    apply (segRead_chain pool segR log data B1 c1
             (fbytes (fd (activeSegment w)) ++ repeat 0 (Z.to_nat pad)) []);
      try assumption; subst segR; cbn [fd setFd closed startup sbBlock
        sbBlockNumber isStartupTraversal]; try reflexivity; try assumption.
    - rewrite Hf. cbn [fbytes]. rewrite app_nil_r, <- app_assoc. reflexivity.
    - rewrite len_app, len_repeat, Hlen. unfold Size.
      subst pad B1 c1 padded. unfold chunkHeaderSize, blockSize, KB in *.
      destruct (_ >=? _) eqn:E; lia.
    - rewrite Hf. unfold Size, setFd.
      cbn [currentBlockNumber currentBlockSize fd fbytes].
      rewrite !len_app, len_repeat, Hlen, (chain_len _ _ _ _ Hch). fold tot.
      unfold Size. clearbody tot. subst pad B1 c1 padded.
      unfold chunkHeaderSize, blockSize, KB in *.
      destruct (_ >=? _) eqn:E; lia.
    - intros _. lia. }
  destruct (segRead pool segR B1 c1) as [segR' r]. cbn [snd] in Hread. subst r.
  reflexivity.
Qed.

(** ** C1: write, then read *)

(** X1.  The round trip of C1 for nonces of 12 bytes.  On a consistent
    WAL, for every payload below 2 GiB and every nonce of 12 bytes: when
    [Write] succeeds, [Read] at the position it returned gives the
    payload and the nonce back. *)
Theorem write_read_roundtrip pool w data nonce w' pos :
  walOk w -> len data < 2 ^ 31 -> len nonce = nonceSize ->
  Write w data nonce = (w', Ok pos) ->
  snd (Read pool w' pos) = Ok (data, nonce).
Proof.
  intros (Hseg & Hdir & Hnl & Hcur) HD Hn Hw.
  unfold Write in Hw.
  destruct (_ >? SegmentSize (options w)); [discriminate|].
  destruct (isFull w (len data)).
  - destruct (rotateActiveSegment w) as [w1 [e|]] eqn:Hrot; [discriminate|].
    destruct (rotate_inv _ _ Hrot) as (segS & nfS & _ & Hns & Hact & _ & Hnf & _).
    apply nonceSync_inv in Hns as (f & Hf & Hfb & _ & _).
    apply (writeRecord_read pool w1 data nonce w' pos); try assumption.
    + rewrite Hact. apply openSegmentFile_ok. intros f0 Hf0. eapply Hdir, Hf0.
    + rewrite Hnf, Hf. cbn [nfd curNum]. rewrite Hfb. exact Hnl.
    + rewrite Hnf, Hf. exact Hcur.
  - apply (writeRecord_read pool w data nonce w' pos); assumption.
Qed.

Lemma with_fst {A B} (x : A * B) (b : B) : snd x = b -> x = (fst x, b).
Proof. destruct x. cbn. intros ->. reflexivity. Qed.


Lemma walOk_fresh options : walOk (freshWAL options).
Proof.
  unfold walOk, freshWAL. cbn [activeSegment dataDir nonceFile_ dirFiles].
  split; [apply openSegmentFile_ok; discriminate|].
  split; [intros i f H; rewrite lookup_empty in H; discriminate|].
  split; reflexivity.
Qed.

Lemma write_read_roundtrip_witness :
  snd (Read [] (fst (Write (freshWAL DefaultOptions) [65; 66; 67] nonceA))
            (mkPos 1 0 0 10 0))
  = Ok ([65; 66; 67], nonceA).
Proof.
  apply (write_read_roundtrip [] (freshWAL DefaultOptions) [65; 66; 67] nonceA).
  - apply walOk_fresh.
  - vm_compute. reflexivity.
  - reflexivity.
  - apply with_fst. vm_compute. reflexivity.
Defined.

(** C1 fails on the code for the empty nonce, the one
    [examples/main.go] writes with.  [nonceFile.Write] returns at once
    on it: no nonce is stored and the position keeps [ValueNum] 0, yet
    [Write] succeeds.  [Read] at that position looks for the nonce of
    ordinal 0: on a fresh WAL there is none and the read fails with
    [io.EOF]; after one earlier record it returns the payload with the
    nonce of that earlier record. *)
Lemma write_read_empty_nonce :
  snd (Write (freshWAL DefaultOptions) [65; 66; 67] []) = Ok (mkPos 1 0 0 10 0)
  /\ snd (Read [] (fst (Write (freshWAL DefaultOptions) [65; 66; 67] []))
               (mkPos 1 0 0 10 0)) = Err EOF
  /\ snd (Read [] (fst (Write (freshWAL DefaultOptions) [65; 66; 67] []))
               (mkPos 1 0 0 10 0)) <> Ok ([65; 66; 67], [])
  /\ fbytes (nfd (nonceFile_ (fst (Write (freshWAL DefaultOptions) [65; 66; 67] []))))
     = []
  /\ snd (Write (fst (Write (freshWAL DefaultOptions) [65; 66; 67] nonceA)) [68] [])
     = Ok (mkPos 1 0 10 8 0)
  /\ snd (Read [] (fst (Write (fst (Write (freshWAL DefaultOptions)
                                          [65; 66; 67] nonceA)) [68] []))
               (mkPos 1 0 10 8 0)) = Ok ([68], nonceA).
Proof.
  split; [vm_compute; reflexivity|].
  split; [vm_compute; reflexivity|].
  split; [vm_compute; discriminate|].
  split; [vm_compute; reflexivity|].
  split; [vm_compute; reflexivity|].
  vm_compute. reflexivity.
Qed.

(** ** C3: nonce ordinals *)

Lemma writeAllLoop_length data : forall seg cb ps seg' ps' cb',
  writeAllLoop seg data cb ps = (seg', Ok (ps', cb')) ->
  length ps' = (length ps + length data)%nat.
Proof.
  induction data as [|d data IH]; intros seg cb ps seg' ps' cb' H; cbn [writeAllLoop] in H.
  - injection H as _ <- _. cbn. lia.
  - destruct (writeToBuffer seg d cb) as [seg1 [fr|e| |]]; try discriminate.
    apply IH in H. rewrite length_app in H. cbn [length] in *. lia.
Qed.

Lemma segWriteAll_length seg data seg' positions :
  segWriteAll seg data = (seg', Ok positions) -> length positions = length data.
Proof.
  unfold segWriteAll. intros H.
  destruct (closed seg); [discriminate|].
  destruct (writeAllLoop seg data [] []) as [seg1 [[ps cb]|e| |]] eqn:Hl;
    try discriminate.
  destruct (writeChunkBuffer seg1 cb) as [seg2 [e|]]; [discriminate|].
  injection H as _ <-. apply writeAllLoop_length in Hl. exact Hl.
Qed.

Lemma stampFrom_ValueNum positions : forall k,
  map ValueNum (stampFrom k positions)
  = map (fun i => k + Z.of_nat i) (seq 0 (length positions)).
Proof.
  induction positions as [|p ps IH]; intros k; [reflexivity|].
  cbn [stampFrom map length seq ValueNum setValueNum]. f_equal; [lia|].
  rewrite IH, <- seq_shift, map_map. apply map_ext. intros i. lia.
Qed.

(** With a nonce file that takes the writes, [nonceFile.writeAll] stores
    the nonces one after the other and numbers the positions from
    [curNum] on. *)
Lemma nonceWriteAll_ok nonce : forall nf done positions,
  fhealthy (nfd nf) = true ->
  length positions = length nonce ->
  0 <= curNum nf -> curNum nf + len nonce < 2 ^ 63 ->
  nonceWriteAll nf nonce done positions
  = (mkNonceFile (mkFile (fbytes (nfd nf) ++ concat nonce) (fsynced (nfd nf)) true)
                 (curNum nf + len nonce) (nclosed nf),
     done ++ stampFrom (curNum nf) positions, Ok tt).
Proof.
  induction nonce as [|n nonce IH]; intros nf done positions Hh Hlen H0 Hmax.
  - destruct positions; [|discriminate]. destruct nf as [[b s h] c cl].
    cbn in *. subst h. rewrite !app_nil_r, Z.add_0_r. reflexivity.
  - destruct positions as [|p positions]; [discriminate|].
    cbn [nonceWriteAll]. unfold fileWrite. rewrite Hh.
    rewrite len_cons in Hmax. pose proof (len_nonneg nonce).
    assert (Hi : i64 (curNum nf + 1) = curNum nf + 1).
    { unfold i64. change (2 ^ 63) with 9223372036854775808 in *.
      change (2 ^ 64) with 18446744073709551616. rewrite Z.mod_small; lia. }
    rewrite Hi, IH; cbn [nfd curNum fhealthy nclosed fbytes fsynced];
      try lia; try reflexivity; try (cbn [length] in Hlen; lia).
    rewrite len_cons. cbn [concat stampFrom].
    rewrite <- !app_assoc. cbn [app]. do 3 f_equal; lia.
Qed.

Lemma i64_small x : - 2 ^ 63 <= x < 2 ^ 63 -> i64 x = x.
Proof.
  intros H. unfold i64. change (2 ^ 63) with 9223372036854775808 in *.
  change (2 ^ 64) with 18446744073709551616. rewrite Z.mod_small; lia.
Qed.

(** C3 (as amended).  [openNonceFile] starts [curNum] at the file size
    divided by 12.  A successful [Write] with a non-empty nonce appends
    exactly that nonce, returns a position whose [ValueNum] is the
    [curNum] before the call, and leaves [curNum] one higher; when the
    file held [curNum] nonces of 12 bytes and the nonce has 12 bytes, it
    lies at byte [12 * ValueNum].  A successful [WriteAll] on a nonce
    file that takes the writes appends the pending nonces in order and
    numbers the positions [curNum], [curNum + 1], ... *)
Theorem nonce_ordinals existing w data nonce w1 pos w2 positions :
  0 <= curNum (nonceFile_ w) ->
  curNum (nonceFile_ w) + 1 + len (pendingNonceWrites w) < 2 ^ 63 ->
  curNum (openNonceFile existing)
    = len (fbytes (match existing with Some f => f | None => emptyFile end))
      / nonceSize
  /\ (Write w data nonce = (w1, Ok pos) -> len nonce <> 0 ->
      fbytes (nfd (nonceFile_ w1)) = fbytes (nfd (nonceFile_ w)) ++ nonce
      /\ ValueNum pos = curNum (nonceFile_ w)
      /\ curNum (nonceFile_ w1) = curNum (nonceFile_ w) + 1
      /\ (len (fbytes (nfd (nonceFile_ w))) = nonceSize * curNum (nonceFile_ w) ->
          len nonce = nonceSize ->
          slice (fbytes (nfd (nonceFile_ w1))) (nonceSize * ValueNum pos)
                (nonceSize * ValueNum pos + nonceSize) = nonce))
  /\ (WriteAll w = (w2, Ok positions) -> pendingWrites w <> [] ->
      length (pendingNonceWrites w) = length (pendingWrites w) ->
      fhealthy (nfd (nonceFile_ w)) = true ->
      fbytes (nfd (nonceFile_ w2))
        = fbytes (nfd (nonceFile_ w)) ++ concat (pendingNonceWrites w)
      /\ map ValueNum positions
         = map (fun i => curNum (nonceFile_ w) + Z.of_nat i)
               (seq 0 (length (pendingWrites w)))
      /\ curNum (nonceFile_ w2)
         = curNum (nonceFile_ w) + len (pendingNonceWrites w)).
Proof.
  intros H0 Hmax.
  pose proof (len_nonneg (pendingNonceWrites w)) as Hp0.
  split; [reflexivity|]. split.
  - (* Write *)
    intros Hw Hne. unfold Write in Hw.
    destruct (_ >? SegmentSize (options w)); [discriminate|].
    assert (Hcommon : forall wx, fbytes (nfd (nonceFile_ wx)) = fbytes (nfd (nonceFile_ w)) ->
              curNum (nonceFile_ wx) = curNum (nonceFile_ w) ->
              writeRecord wx data nonce = (w1, Ok pos) ->
              fbytes (nfd (nonceFile_ w1)) = fbytes (nfd (nonceFile_ w)) ++ nonce
              /\ ValueNum pos = curNum (nonceFile_ w)
              /\ curNum (nonceFile_ w1) = curNum (nonceFile_ w) + 1).
    { intros wx Hb Hc Hwr.
      destruct (writeRecord_inv _ _ _ _ _ Hwr)
        as (seg' & fr & nf' & f & fn & _ & Hnw & _ & _ & Hnf & Hfn & _).
      apply nonceWrite_inv in Hnw as [(Hz & _)|(_ & -> & ->)]; [contradiction|].
      rewrite Hnf. cbn [nfd curNum ValueNum setValueNum fbytes] in *.
      rewrite Hfn, Hb, Hc. repeat split. apply i64_small. lia. }
    assert (Hres : fbytes (nfd (nonceFile_ w1)) = fbytes (nfd (nonceFile_ w)) ++ nonce
              /\ ValueNum pos = curNum (nonceFile_ w)
              /\ curNum (nonceFile_ w1) = curNum (nonceFile_ w) + 1).
    { destruct (isFull w (len data)).
      - destruct (rotateActiveSegment w) as [wr [e|]] eqn:Hrot; [discriminate|].
        destruct (rotate_inv _ _ Hrot) as (segS & nfS & _ & Hns & _ & _ & Hnf & _).
        apply nonceSync_inv in Hns as (f & Hf & Hfb & _ & _).
        apply (Hcommon wr); [rewrite Hnf, Hf; exact Hfb|rewrite Hnf, Hf; reflexivity|exact Hw].
      - apply (Hcommon w); [reflexivity|reflexivity|exact Hw]. }
    destruct Hres as (Hb & Hv & Hc). repeat split; try assumption.
    intros Hlay Hn. rewrite Hb, Hv, <- Hlay.
    rewrite <- (app_nil_r nonce) at 1.
    apply slice_app_mid; rewrite ?Hn; reflexivity.
  - (* WriteAll *)
    intros Hw Hne Hlen Hh. unfold WriteAll in Hw.
    destruct (len (pendingWrites w) =? 0) eqn:E0.
    { destruct (pendingWrites w); [contradiction|]. rewrite len_cons in E0.
      pose proof (len_nonneg l0). lia. }
    destruct (pendingSize w >? SegmentSize (options w)); [discriminate|].
    assert (Hcommon : forall wx,
              fbytes (nfd (nonceFile_ wx)) = fbytes (nfd (nonceFile_ w)) ->
              curNum (nonceFile_ wx) = curNum (nonceFile_ w) ->
              fhealthy (nfd (nonceFile_ wx)) = true ->
              pendingWrites wx = pendingWrites w ->
              pendingNonceWrites wx = pendingNonceWrites w ->
              match segWriteAll (activeSegment wx) (pendingWrites wx) with
              | (seg, Ok positions) =>
                  let w := setActive wx seg in
                  match nonceWriteAll (nonceFile_ w) (pendingNonceWrites w) [] positions with
                  | (nf, positions, Panic) => (ClearPendingWrites (setNonceFile w nf), Panic)
                  | (nf, positions, _) => (ClearPendingWrites (setNonceFile w nf), Ok positions)
                  end
              | (seg, Err e) => (ClearPendingWrites (setActive wx seg), Err e)
              | (seg, Panic) => (ClearPendingWrites (setActive wx seg), Panic)
              | (seg, NoFuel) => (ClearPendingWrites (setActive wx seg), NoFuel)
              end = (w2, Ok positions) ->
              fbytes (nfd (nonceFile_ w2))
                = fbytes (nfd (nonceFile_ w)) ++ concat (pendingNonceWrites w)
              /\ map ValueNum positions
                 = map (fun i => curNum (nonceFile_ w) + Z.of_nat i)
                       (seq 0 (length (pendingWrites w)))
              /\ curNum (nonceFile_ w2)
                 = curNum (nonceFile_ w) + len (pendingNonceWrites w)).
    { intros wx Hb Hc Hhx Hpw Hpn Hx.
      destruct (segWriteAll (activeSegment wx) (pendingWrites wx))
        as [seg [ps|e| |]] eqn:Hsw; try discriminate.
      apply segWriteAll_length in Hsw. cbv zeta in Hx.
      cbn [nonceFile_ setActive pendingNonceWrites] in Hx.
      rewrite nonceWriteAll_ok in Hx; try assumption; try lia.
      - injection Hx as <- <-.
        cbn [nonceFile_ ClearPendingWrites setPending setNonceFile nfd fbytes curNum app].
        rewrite Hb, Hc, Hpn, stampFrom_ValueNum, Hsw, Hpw. repeat split.
      - rewrite Hsw, Hpw, Hpn. symmetry. exact Hlen.
      - rewrite Hc, Hpn. lia. }
    destruct (i64 (Size (activeSegment w) + pendingSize w) >? SegmentSize (options w)).
    + destruct (rotateActiveSegment w) as [wr [e|]] eqn:Hrot; [discriminate|].
      destruct (rotate_inv _ _ Hrot)
        as (segS & nfS & _ & Hns & _ & _ & Hnf & _ & _ & _ & Hpw & Hpn & _).
      apply nonceSync_inv in Hns as (f & Hf & Hfb & _ & Hfh).
      apply (Hcommon wr); try assumption; rewrite Hnf, Hf; cbn [nfd curNum];
        congruence.
    + apply (Hcommon w); try reflexivity; assumption.
Qed.

Lemma nonce_ordinals_witness :
  (fbytes (nfd (nonceFile_ (fst (Write pendingWAL [65; 66; 67] nonceA)))) = nonceA
   /\ ValueNum (mkPos 1 0 0 10 0) = 0
   /\ curNum (nonceFile_ (fst (Write pendingWAL [65; 66; 67] nonceA))) = 1)
  /\ (fbytes (nfd (nonceFile_ (fst (WriteAll pendingWAL)))) = nonceB
      /\ map ValueNum [mkPos 1 0 0 9 0] = [0]
      /\ curNum (nonceFile_ (fst (WriteAll pendingWAL))) = 1).
Proof.
  assert (H0 : 0 <= curNum (nonceFile_ pendingWAL)) by (vm_compute; discriminate).
  assert (Hmax : curNum (nonceFile_ pendingWAL) + 1
                 + len (pendingNonceWrites pendingWAL) < 2 ^ 63)
    by (vm_compute; reflexivity).
  destruct (nonce_ordinals None pendingWAL [65; 66; 67] nonceA
              (fst (Write pendingWAL [65; 66; 67] nonceA)) (mkPos 1 0 0 10 0)
              (fst (WriteAll pendingWAL)) [mkPos 1 0 0 9 0] H0 Hmax)
    as (_ & Hw & Hb).
  split.
  - destruct Hw as (Ha & Hv & Hc & _).
    + apply with_fst. vm_compute. reflexivity.
    + vm_compute. discriminate.
    + repeat split; assumption.
  - destruct Hb as (Ha & Hv & Hc).
    + apply with_fst. vm_compute. reflexivity.
    + vm_compute. discriminate.
    + reflexivity.
    + reflexivity.
    + repeat split; assumption.
Defined.

(** C3 as stated fails for a [Write] with the empty nonce: after one
    record with a nonce ([curNum] is 1) the write succeeds, appends
    nothing to the nonce file and returns [ValueNum] 0. *)
Lemma empty_nonce_not_numbered :
  curNum (nonceFile_ (fst (Write (freshWAL DefaultOptions) [65; 66; 67] nonceA))) = 1
  /\ snd (Write (fst (Write (freshWAL DefaultOptions) [65; 66; 67] nonceA)) [68] [])
     = Ok (mkPos 1 0 10 8 0)
  /\ nonceFile_ (fst (Write (fst (Write (freshWAL DefaultOptions) [65; 66; 67] nonceA))
                            [68] []))
     = nonceFile_ (fst (Write (freshWAL DefaultOptions) [65; 66; 67] nonceA))
  /\ ValueNum (mkPos 1 0 10 8 0)
     <> curNum (nonceFile_ (fst (Write (freshWAL DefaultOptions) [65; 66; 67] nonceA))).
Proof.
  split; [vm_compute; reflexivity|].
  split; [vm_compute; reflexivity|].
  split; [vm_compute; reflexivity|].
  vm_compute. discriminate.
Qed.

(** ** C8: rotation *)

Lemma writeToBuffer_id seg d cb : id (fst (writeToBuffer seg d cb)) = id seg.
Proof.
  unfold writeToBuffer.
  destruct (closed seg); [reflexivity|].
  destruct (_ && _); cbv beta iota;
    (destruct (_ <=? blockSize); [|destruct (writeChunks _ _ _ _ _ _ _ _) as [[[? ?] ?]|]]);
    cbv beta iota; try reflexivity;
    destruct (negb _); try reflexivity; cbv zeta;
    destruct (_ >=? blockSize); reflexivity.
Qed.

Lemma writeToBuffer_pos_id seg d cb seg' fr :
  writeToBuffer seg d cb = (seg', Ok fr) -> SegmentId (frPos fr) = id seg.
Proof.
  unfold writeToBuffer.
  destruct (closed seg); [discriminate|].
  destruct (_ && _); cbv beta iota;
    (destruct (_ <=? blockSize); [|destruct (writeChunks _ _ _ _ _ _ _ _) as [[[? ?] ?]|]]);
    cbv beta iota; try discriminate;
    (destruct (negb _); [discriminate|]); cbv zeta;
    intros H; injection H as _ <-; reflexivity.
Qed.

Lemma writeChunkBuffer_id seg buf : id (fst (writeChunkBuffer seg buf)) = id seg.
Proof.
  unfold writeChunkBuffer. destruct (_ >? _); [reflexivity|].
  destruct (fileWrite (fd seg) buf) as [f [e|]]; reflexivity.
Qed.

Lemma segWrite_id seg d : id (fst (segWrite seg d)) = id seg.
Proof.
  unfold segWrite. destruct (closed seg); [reflexivity|].
  pose proof (writeToBuffer_id seg d []) as H1.
  destruct (writeToBuffer seg d []) as [s1 [fr|e| |]];
    cbn [fst setCounters id] in *; try assumption.
  pose proof (writeChunkBuffer_id s1 (frBuf fr)) as H2.
  destruct (writeChunkBuffer s1 (frBuf fr)) as [s2 [e|]];
    cbn [fst setCounters id] in *; congruence.
Qed.

Lemma segWrite_pos_id seg d seg' fr :
  segWrite seg d = (seg', Ok fr) -> SegmentId (frPos fr) = id seg.
Proof.
  unfold segWrite. destruct (closed seg); [discriminate|].
  destruct (writeToBuffer seg d []) as [s1 [fr1|e| |]] eqn:H1; try discriminate.
  destruct (writeChunkBuffer s1 (frBuf fr1)) as [s2 [e|]]; [discriminate|].
  intros H. injection H as _ <-. eapply writeToBuffer_pos_id, H1.
Qed.

Lemma segSync_id seg : id (fst (segSync seg)) = id seg.
Proof.
  unfold segSync. destruct (closed seg); [reflexivity|].
  destruct (fileSync (fd seg)); reflexivity.
Qed.

(** [writeRecord] never changes which segment is the active one, nor the
    older segments. *)
Lemma writeRecord_keeps w d n :
  id (activeSegment (fst (writeRecord w d n))) = id (activeSegment w)
  /\ olderSegments (fst (writeRecord w d n)) = olderSegments w.
Proof.
  unfold writeRecord.
  pose proof (segWrite_id (activeSegment w) d) as H1.
  destruct (segWrite (activeSegment w) d) as [s1 [fr|e| |]]; cbn [fst] in *;
    try (split; [exact H1|reflexivity]).
  cbn [nonceFile_ setActive].
  destruct (nonceWrite (nonceFile_ w) n (frPos fr)) as [[nf p] [e|]];
    [split; [exact H1|reflexivity]|].
  cbv zeta.
  match goal with |- context [if ?c then _ else _] => destruct c end;
    [|split; [exact H1|reflexivity]].
  cbn [activeSegment setBytesWrite setNonceFile setActive nonceFile_].
  pose proof (segSync_id s1) as H2.
  destruct (segSync s1) as [s2 [e|]]; cbn [fst] in *;
    [split; [cbn; congruence|reflexivity]|].
  cbn [nonceFile_ setActive].
  destruct (nonceSync nf) as [nf2 [e|]]; split; cbn; first [congruence|reflexivity].
Qed.

(** C8.  For a write that passes the size test, [isFull] is the
    comparison [size + max_write_size > segment_size] with
    [max_write_size L = 7 + L + (L / 32 KiB + 1) * 7].  When it is false
    the write leaves the active segment and the older segments as they
    are.  When it is true the write rotates first: if the rotation
    fails the write returns that error; if it succeeds the former active
    segment and the nonce file have been synced (unless closed), the
    former active segment sits in the older map under its id, and the
    active segment is a newly opened one whose id is the former id plus
    one (in [uint32]). *)
Theorem write_rotation w data nonce :
  0 <= currentBlockNumber (activeSegment w) < 2 ^ 32 ->
  0 <= currentBlockSize (activeSegment w) < 2 ^ 32 ->
  len data < 2 ^ 62 ->
  len data + chunkHeaderSize <= SegmentSize (options w) ->
  let L := len data in
  let full :=
    Size (activeSegment w) + (7 + L + (L / (32 * 1024) + 1) * 7)
      >? SegmentSize (options w) in
  let w' := fst (Write w data nonce) in
  isFull w L = full
  /\ (full = false ->
      id (activeSegment w') = id (activeSegment w)
      /\ olderSegments w' = olderSegments w)
  /\ (full = true -> forall w1 e,
      rotateActiveSegment w = (w1, Some e) ->
      Write w data nonce = (w1, Err e))
  /\ (full = true -> forall w1,
      rotateActiveSegment w = (w1, None) ->
      id (activeSegment w') = u32 (id (activeSegment w) + 1)
      /\ (0 <= id (activeSegment w) < 2 ^ 32 - 1 ->
          id (activeSegment w') = id (activeSegment w) + 1)
      /\ activeSegment w1
         = openSegmentFile
             (dirFiles (dataDir w) !! u32 (id (activeSegment w) + 1))
             (u32 (id (activeSegment w) + 1))
      /\ (exists f,
            olderSegments w'
            = <[id (activeSegment w) := setFd (activeSegment w) f]> (olderSegments w)
            /\ fbytes f = fbytes (fd (activeSegment w))
            /\ (closed (activeSegment w) = false ->
                fsynced f = len (fbytes (fd (activeSegment w)))))
      /\ fbytes (nfd (nonceFile_ w1)) = fbytes (nfd (nonceFile_ w))
      /\ (nclosed (nonceFile_ w) = false ->
          fsynced (nfd (nonceFile_ w1)) = len (fbytes (nfd (nonceFile_ w))))
      /\ forall pos, snd (Write w data nonce) = Ok pos ->
           SegmentId pos = u32 (id (activeSegment w) + 1)).
Proof.
  intros Hbn Hcbs HL Hfit L full w'.
  pose proof (len_nonneg data) as HL0. fold L in HL, Hfit, HL0.
  assert (Hfull : isFull w L = full).
  { unfold isFull, maxDataWriteSize, full, Size, chunkHeaderSize, blockSize, KB in *.
    change (2 ^ 32) with 4294967296 in *. change (2 ^ 62) with 4611686018427387904 in *.
    rewrite (i64_small (7 + L + _))
      by (change (2 ^ 63) with 9223372036854775808; lia).
    rewrite i64_small by (change (2 ^ 63) with 9223372036854775808; lia).
    reflexivity. }
  assert (Hguard : (i64 (len data + chunkHeaderSize) >? SegmentSize (options w)) = false).
  { fold L. rewrite i64_small; [lia|].
    unfold chunkHeaderSize in *. change (2 ^ 62) with 4611686018427387904 in *.
    change (2 ^ 63) with 9223372036854775808. lia. }
  split; [exact Hfull|].
  subst w'. unfold Write. rewrite Hguard. fold L. rewrite Hfull.
  split; [|split].
  - intros ->. apply writeRecord_keeps.
  - intros -> w1 e Hrot. rewrite Hrot. reflexivity.
  - intros -> w1 Hrot. rewrite Hrot.
    destruct (rotate_inv _ _ Hrot)
      as (segS & nfS & Hss & Hns & Hact & Hold & Hnf & _).
    apply segSync_inv in Hss as (f & -> & Hfb & Hfs).
    apply nonceSync_inv in Hns as (fn & -> & Hnb & Hnsy & _).
    destruct (writeRecord_keeps w1 data nonce) as (Hid & Hol).
    assert (Hnew : id (activeSegment w1) = u32 (id (activeSegment w) + 1))
      by (rewrite Hact; reflexivity).
    split; [rewrite Hid; exact Hnew|].
    split.
    { intros Hr. rewrite Hid, Hnew. unfold u32. apply Z.mod_small.
      change (2 ^ 32) with 4294967296 in *. lia. }
    split; [exact Hact|].
    split; [exists f; rewrite Hol, Hold; repeat split; assumption|].
    split; [rewrite Hnf; exact Hnb|].
    split; [rewrite Hnf; exact Hnsy|].
    intros pos Hpos.
    destruct (writeRecord w1 data nonce) as [wf r] eqn:Hwr. cbn [snd] in Hpos. subst r.
    destruct (writeRecord_inv _ _ _ _ _ Hwr)
      as (seg' & fr & nf' & f' & fn' & Hsw & Hnw & _).
    apply segWrite_pos_id in Hsw.
    apply nonceWrite_inv in Hnw as [(_ & _ & ->)|(_ & _ & ->)];
      cbn [SegmentId setValueNum]; congruence.
Qed.

Lemma write_rotation_witness :
  id (activeSegment (fst (Write fullWAL (repeat 66 40) nonceB))) = 2
  /\ id (activeSegment fullWAL) = 1
  /\ exists f,
       olderSegments (fst (Write fullWAL (repeat 66 40) nonceB))
       = <[1 := setFd (activeSegment fullWAL) f]> (olderSegments fullWAL)
       /\ fsynced f = 47.
Proof.
  assert (H1 : 0 <= currentBlockNumber (activeSegment fullWAL) < 2 ^ 32)
    by (vm_compute; split; [discriminate|reflexivity]).
  assert (H2 : 0 <= currentBlockSize (activeSegment fullWAL) < 2 ^ 32)
    by (vm_compute; split; [discriminate|reflexivity]).
  assert (H3 : len (repeat 66 40) < 2 ^ 62) by (vm_compute; reflexivity).
  assert (H4 : len (repeat 66 40) + chunkHeaderSize <= SegmentSize (options fullWAL))
    by (vm_compute; discriminate).
  destruct (write_rotation fullWAL (repeat 66 40) nonceB H1 H2 H3 H4)
    as (_ & _ & _ & Hrot).
  destruct (Hrot ltac:(vm_compute; reflexivity) (fst (rotateActiveSegment fullWAL)))
    as (_ & Hid & _ & (f & Hold & _ & Hsync) & _).
  { apply with_fst. vm_compute. reflexivity. }
  split; [rewrite Hid; [reflexivity|vm_compute; split; [discriminate|reflexivity]]|].
  split; [reflexivity|].
  exists f. split; [exact Hold|]. rewrite Hsync; reflexivity.
Defined.

(** ** C6 and C7: framing *)







(** ** C4: what the checksum detects *)

Lemma lxor_cancel_l a b c : Z.lxor a b = Z.lxor a c -> b = c.
Proof.
  intros H.
  rewrite <- (Z.lxor_0_l b), <- (Z.lxor_0_l c), <- (Z.lxor_nilpotent a).
  rewrite !Z.lxor_assoc, H. reflexivity.
Qed.

Lemma lxor_cancel_r a b c : Z.lxor b a = Z.lxor c a -> b = c.
Proof. rewrite !(Z.lxor_comm _ a). apply lxor_cancel_l. Qed.

Lemma land255_lxor a v :
  Z.land (Z.lxor a v) 255 = Z.lxor (Z.land a 255) (Z.land v 255).
Proof.
  apply Z.bits_inj'. intros n Hn.
  rewrite Z.land_spec, !Z.lxor_spec, !Z.land_spec.
  destruct (Z.testbit a n), (Z.testbit v n), (Z.testbit 255 n); reflexivity.
Qed.

Lemma land255_mod a : Z.land a 255 = a mod 256.
Proof. change 255 with (Z.ones 8). rewrite Z.land_ones by lia. reflexivity. Qed.

(** The top byte of a table entry tells its index. *)
Lemma tab_top_inj i j :
  0 <= i < 256 -> 0 <= j < 256 ->
  Z.shiftr (tab i) 24 = Z.shiftr (tab j) 24 -> i = j.
Proof.
  intros Hi Hj H.
  assert (Hb : forallb (fun a => forallb (fun b =>
                  implb (Z.shiftr (nth a IEEETable 0) 24 =? Z.shiftr (nth b IEEETable 0) 24)
                        (Nat.eqb a b)) (seq 0 256)) (seq 0 256) = true)
    by (vm_compute; reflexivity).
  rewrite forallb_forall in Hb.
  specialize (Hb (Z.to_nat i)). rewrite in_seq in Hb.
  specialize (Hb ltac:(lia)). rewrite forallb_forall in Hb.
  specialize (Hb (Z.to_nat j)). rewrite in_seq in Hb.
  specialize (Hb ltac:(lia)).
  unfold tab in H. rewrite H, Z.eqb_refl in Hb. cbn [implb] in Hb.
  apply Nat.eqb_eq in Hb. lia.
Qed.

Lemma crcStep_top c v :
  0 <= c < 2 ^ 32 ->
  Z.shiftr (crcStep c v) 24 = Z.shiftr (tab (Z.land (Z.lxor c v) 255)) 24.
Proof.
  intros Hc. unfold crcStep.
  rewrite Z.shiftr_lxor, Z.shiftr_shiftr by lia. change (8 + 24) with 32.
  rewrite (Z.shiftr_div_pow2 c 32) by lia.
  rewrite (Z.div_small c) by lia. apply Z.lxor_0_r.
Qed.

Lemma idx_range c v : 0 <= Z.land (Z.lxor c v) 255 < 256.
Proof. rewrite land255_mod. lia. Qed.

(** For a given byte the step is injective in the running value. *)
Lemma crcStep_inj_state c c' v :
  0 <= c < 2 ^ 32 -> 0 <= c' < 2 ^ 32 ->
  crcStep c v = crcStep c' v -> c = c'.
Proof.
  intros Hc Hc' H.
  assert (Hidx : Z.land (Z.lxor c v) 255 = Z.land (Z.lxor c' v) 255).
  { apply tab_top_inj; try apply idx_range.
    rewrite <- !crcStep_top by assumption. rewrite H. reflexivity. }
  unfold crcStep in H. rewrite Hidx in H. apply lxor_cancel_l in H.
  rewrite !land255_lxor in Hidx. apply lxor_cancel_r in Hidx.
  rewrite !land255_mod in Hidx.
  rewrite !Z.shiftr_div_pow2 in H by lia. change (2 ^ 8) with 256 in H.
  lia.
Qed.

(** From a given running value, different bytes lead to different
    values. *)
Lemma crcStep_inj_byte c v v' :
  0 <= c < 2 ^ 32 -> 0 <= v < 256 -> 0 <= v' < 256 ->
  crcStep c v = crcStep c v' -> v = v'.
Proof.
  intros Hc Hv Hv' H.
  assert (Hidx : Z.land (Z.lxor c v) 255 = Z.land (Z.lxor c v') 255).
  { apply tab_top_inj; try apply idx_range.
    rewrite <- !crcStep_top by assumption. rewrite H. reflexivity. }
  rewrite !land255_lxor in Hidx. apply lxor_cancel_l in Hidx.
  rewrite !land255_mod in Hidx. lia.
Qed.

Lemma fold_crcStep_inj p : forall c c',
  0 <= c < 2 ^ 32 -> 0 <= c' < 2 ^ 32 ->
  fold_left crcStep p c = fold_left crcStep p c' -> c = c'.
Proof.
  induction p as [|v p IH]; intros c c' Hc Hc' H; [exact H|].
  cbn [fold_left] in H. apply IH in H; try apply crcStep_range; try assumption.
  eapply crcStep_inj_state; eassumption.
Qed.

Lemma crcNot_inj a b : crcNot a = crcNot b -> a = b.
Proof. unfold crcNot. apply lxor_cancel_r. Qed.

(** The checksum tells two messages apart that differ in one byte. *)
Lemma checksum_one_byte a b v v' :
  0 <= v < 256 -> 0 <= v' < 256 -> v <> v' ->
  ChecksumIEEE (a ++ v :: b) <> ChecksumIEEE (a ++ v' :: b).
Proof.
  intros Hv Hv' Hne H. apply Hne.
  unfold ChecksumIEEE, Update in H. apply crcNot_inj in H.
  rewrite !fold_left_app in H. cbn [fold_left] in H.
  assert (Hr : 0 <= fold_left crcStep a (crcNot 0) < 2 ^ 32)
    by (apply fold_crcStep_range, crcNot_range; change (2 ^ 32) with 4294967296; lia).
  apply fold_crcStep_inj in H; try apply crcStep_range; try assumption.
  eapply crcStep_inj_byte; eassumption.
Qed.

(** The stored checksum changes when one of its four bytes does. *)
Lemma Uint32_one_byte l1 l2 v v' :
  (length l1 + length l2 = 3)%nat ->
  0 <= v < 256 -> 0 <= v' < 256 ->
  Forall (fun b => 0 <= b < 256) (l1 ++ l2) ->
  v <> v' ->
  Uint32 (l1 ++ v :: l2) <> Uint32 (l1 ++ v' :: l2).
Proof.
  intros Hlen Hv Hv' Hall Hne.
  assert (Hval : forall b0 b1 b2 b3,
            0 <= b0 < 256 -> 0 <= b1 < 256 -> 0 <= b2 < 256 -> 0 <= b3 < 256 ->
            Uint32 [b0; b1; b2; b3] = b0 + b1 * 256 + b2 * 65536 + b3 * 16777216).
  { intros. unfold Uint32, byteAt. cbn [nth].
    rewrite (lor_shiftl_add _ _ 8); change (2 ^ 8) with 256; [|lia..].
    rewrite (lor_shiftl_add _ _ 16); change (2 ^ 16) with 65536; [|lia..].
    rewrite (lor_shiftl_add _ _ 24); change (2 ^ 24) with 16777216; [|lia..].
    reflexivity. }
  destruct l1 as [|x1 [|x2 [|x3 [|x4 l1]]]]; cbn [length app] in *;
    try (exfalso; lia);
    [destruct l2 as [|y1 [|y2 [|y3 [|y4 l2]]]]
    |destruct l2 as [|y1 [|y2 [|y3 l2]]]
    |destruct l2 as [|y1 [|y2 l2]]
    |destruct l2 as [|y1 l2]]; cbn [length app] in *; try (exfalso; lia);
    repeat match goal with
           | H : Forall _ (_ :: _) |- _ => apply Forall_cons in H; destruct H
           end;
    rewrite !Hval by assumption; lia.
Qed.

(** One round of the read loop on seven header bytes and a payload whose
    stored checksum is not the checksum of what follows it. *)
Lemma readChunks_badsum fuel seg sbn block segSize B c acc
      r0 r1 r2 r3 r4 r5 r6 rest pre post :
  fbytes (fd seg) = pre ++ ([r0; r1; r2; r3; r4; r5; r6] ++ rest) ++ post ->
  len pre = B * blockSize + c ->
  0 <= B -> 0 <= c ->
  Uint16 [r4; r5] = len rest ->
  c + chunkHeaderSize + len rest <= blockSize ->
  B * blockSize + c + chunkHeaderSize + len rest <= segSize ->
  segSize <= len (fbytes (fd seg)) ->
  len block = blockSize ->
  (isStartupTraversal seg = true ->
   sbn <> B \/ segSize < (B + 1) * blockSize) ->
  Uint32 [r0; r1; r2; r3] <> ChecksumIEEE ([r4; r5; r6] ++ rest) ->
  exists sbn' block',
    readChunks (S fuel) seg sbn block segSize B c acc
    = (sbn', block', Err ErrInvalidCRC).
Proof.
  intros HF Hpre HB Hc Hlen16 Hfit Hseg HsegF Hblock Hsbn Hbad.
  set (raw := [r0; r1; r2; r3; r4; r5; r6] ++ rest) in *.
  set (L := len rest) in *.
  assert (HL : 0 <= L) by apply len_nonneg.
  assert (Hraw : len raw = 7 + L).
  { subst raw. rewrite len_app. reflexivity. }
  unfold chunkHeaderSize, blockSize, KB in *.
  set (size := if 32 * 1024 + B * (32 * 1024) >? segSize
               then segSize - B * (32 * 1024) else 32 * 1024).
  assert (Hsize : c + 7 + L <= size /\ size <= 32 * 1024 /\
                  B * (32 * 1024) + size <= len (fbytes (fd seg))).
  { subst size. destruct (_ >? _) eqn:E; lia. }
  set (got := slice (fbytes (fd seg)) (B * (32 * 1024)) (B * (32 * 1024) + size)).
  assert (Hgot : len got = size) by (subst got; rewrite len_slice; lia).
  assert (Hlen' : len (copyInto block got) = 32 * 1024)
    by (rewrite len_copyInto; lia).
  assert (Hsl : forall lo hi, 0 <= lo -> lo <= hi -> hi <= 7 + L ->
            slice (copyInto block got) (c + lo) (c + hi) = slice raw lo hi).
  { intros lo hi Hlo Hlh Hhi.
    rewrite slice_copyInto by lia. subst got.
    rewrite slice_slice by lia.
    rewrite <- (slice_app_mid pre raw post
                  (B * (32 * 1024) + c) (B * (32 * 1024) + c + (7 + L)))
      by (rewrite ?Hraw; lia).
    rewrite slice_slice by lia. rewrite <- HF. f_equal; lia. }
  cbn [readChunks].
  unfold chunkHeaderSize, blockSize, KB. fold size.
  destruct (c >=? size) eqn:E1; [lia|].
  assert (Hmust : (if isStartupTraversal seg
                   then negb (sbn =? B) || negb (size =? 32 * 1024) else true) = true).
  { destruct (isStartupTraversal seg); [|reflexivity].
    specialize (Hsbn eq_refl). destruct (sbn =? B) eqn:E; [|reflexivity].
    destruct Hsbn as [Hsbn|Hsbn]; [lia|].
    cbn [negb orb]. subst size.
    destruct (32 * 1024 + B * (32 * 1024) >? segSize) eqn:E2; [|lia].
    destruct (segSize - B * (32 * 1024) =? 32 * 1024) eqn:E3; [lia|reflexivity]. }
  rewrite Hmust.
  rewrite slice_ok_true by lia.
  rewrite fileReadAt_ok by lia. fold got.
  rewrite slice_ok_true by lia.
  pose proof (Hsl 0 7 ltac:(lia) ltac:(lia) ltac:(lia)) as Hhdr.
  rewrite Z.add_0_r in Hhdr.
  assert (Hh7 : slice raw 0 7 = [r0; r1; r2; r3; r4; r5; r6]).
  { subst raw. rewrite slice_app_l by (change (len [r0; r1; r2; r3; r4; r5; r6]) with 7; lia).
    reflexivity. }
  rewrite Hh7 in Hhdr. rewrite Hhdr.
  change (slice [r0; r1; r2; r3; r4; r5; r6] 4 6) with [r4; r5].
  change (slice [r0; r1; r2; r3; r4; r5; r6] 0 4) with [r0; r1; r2; r3].
  rewrite Hlen16.
  rewrite slice_ok_true by lia.
  rewrite <- Z.add_assoc.
  rewrite (Hsl 4 (7 + L)) by lia.
  assert (Hsum : slice raw 4 (7 + L) = [r4; r5; r6] ++ rest).
  { subst raw. change ([r0; r1; r2; r3; r4; r5; r6] ++ rest)
      with ([r0; r1; r2; r3] ++ ([r4; r5; r6] ++ rest)).
    rewrite <- (app_nil_r ([r4; r5; r6] ++ rest)) at 1.
    apply slice_app_mid; [reflexivity|]. rewrite len_app. fold L.
    change (len [r0; r1; r2; r3]) with 4. change (len [r4; r5; r6]) with 3. lia. }
  rewrite Hsum.
  destruct (Uint32 [r0; r1; r2; r3] =? ChecksumIEEE ([r4; r5; r6] ++ rest)) eqn:E;
    [lia|].
  cbn [negb]. eauto.
Qed.

Lemma PutUint32_bytes v :
  exists s0 s1 s2 s3,
    PutUint32 v = [s0; s1; s2; s3]
    /\ Forall (fun b => 0 <= b < 256) [s0; s1; s2; s3].
Proof.
  unfold PutUint32. do 4 eexists. split; [reflexivity|].
  repeat constructor; lia.
Qed.

(** One byte of a stored chunk changed, outside the length field: the
    chunk's bytes are a header and a payload of the old length whose
    stored checksum no longer matches. *)
Lemma mutated_chunk ck (i : nat) v :
  chunkHeaderSize + len (ckPayload ck) <= blockSize ->
  0 <= ckType ck < 256 ->
  Forall (fun b => 0 <= b < 256) (ckPayload ck) ->
  (i < length (chunkBytes ck))%nat -> i <> 4%nat -> i <> 5%nat ->
  0 <= v < 256 -> chunkBytes ck !! i <> Some v ->
  exists r0 r1 r2 r3 r4 r5 r6 rest,
    <[i := v]> (chunkBytes ck) = [r0; r1; r2; r3; r4; r5; r6] ++ rest
    /\ len rest = len (ckPayload ck)
    /\ Uint16 [r4; r5] = len rest
    /\ Uint32 [r0; r1; r2; r3] <> ChecksumIEEE ([r4; r5; r6] ++ rest).
Proof.
  intros Hfit Hty Hpay Hi Hi4 Hi5 Hv Hold.
  pose proof (len_nonneg (ckPayload ck)) as HL0.
  set (payload := ckPayload ck) in *. set (ty := ckType ck) in *.
  set (lenType := PutUint16 (u16 (len payload)) ++ [ty]).
  set (sum := Update (ChecksumIEEE lenType) payload).
  assert (Hsum : sum = ChecksumIEEE (lenType ++ payload))
    by (apply chunk_checksum).
  assert (Hsumr : 0 <= sum < 2 ^ 32) by apply Update_range, ChecksumIEEE_range.
  destruct (PutUint32_bytes sum) as (s0 & s1 & s2 & s3 & Hs & Hsr).
  pose proof (Uint32_PutUint32 sum Hsumr) as Hs32. rewrite Hs in Hs32.
  assert (H16 : Uint16 (PutUint16 (u16 (len payload))) = len payload).
  { unfold u16. unfold chunkHeaderSize, blockSize, KB in Hfit.
    rewrite Z.mod_small by (change (2 ^ 16) with 65536; lia).
    apply Uint16_PutUint16. lia. }
  remember (u16 (len payload) mod 256) as l0 eqn:Hl0.
  remember ((u16 (len payload) / 256) mod 256) as l1 eqn:Hl1.
  assert (Hl : PutUint16 (u16 (len payload)) = [l0; l1])
    by (subst l0 l1; reflexivity).
  rewrite Hl in H16.
  assert (Hraw : chunkBytes ck = [s0; s1; s2; s3; l0; l1; ty] ++ payload).
  { unfold chunkBytes, chunkHeader. fold payload ty lenType sum.
    rewrite Hs. subst lenType. rewrite Hl. reflexivity. }
  assert (HlenType : lenType = [l0; l1; ty]) by (subst lenType; rewrite Hl; reflexivity).
  rewrite Hraw in Hold, Hi |- *.
  rewrite Hsum, HlenType in Hs32.
  clear Hraw Hl Hs Hsum Hl0 Hl1.
  repeat match goal with
         | H : Forall _ (_ :: _) |- _ => apply Forall_cons in H; destruct H
         end.
  destruct i as [|[|[|[|[|[|[|k]]]]]]]; try contradiction;
    cbn [lookup list_lookup app] in Hold.
  - exists v, s1, s2, s3, l0, l1, ty, payload.
    split; [reflexivity|]. split; [reflexivity|]. split; [exact H16|].
    rewrite <- Hs32. apply (Uint32_one_byte [] [s1; s2; s3]);
      [reflexivity|lia|lia|repeat constructor; lia|congruence].
  - exists s0, v, s2, s3, l0, l1, ty, payload.
    split; [reflexivity|]. split; [reflexivity|]. split; [exact H16|].
    rewrite <- Hs32. apply (Uint32_one_byte [s0] [s2; s3]);
      [reflexivity|lia|lia|repeat constructor; lia|congruence].
  - exists s0, s1, v, s3, l0, l1, ty, payload.
    split; [reflexivity|]. split; [reflexivity|]. split; [exact H16|].
    rewrite <- Hs32. apply (Uint32_one_byte [s0; s1] [s3]);
      [reflexivity|lia|lia|repeat constructor; lia|congruence].
  - exists s0, s1, s2, v, l0, l1, ty, payload.
    split; [reflexivity|]. split; [reflexivity|]. split; [exact H16|].
    rewrite <- Hs32. apply (Uint32_one_byte [s0; s1; s2] []);
      [reflexivity|lia|lia|repeat constructor; lia|congruence].
  - exists s0, s1, s2, s3, l0, l1, v, payload.
    split; [reflexivity|]. split; [reflexivity|]. split; [exact H16|].
    rewrite Hs32.
    apply (checksum_one_byte [l0; l1] payload ty v); [lia|lia|congruence].
  - cbn [length] in Hi.
    assert (Hk : (k < length payload)%nat) by (rewrite length_app in Hi; cbn in Hi; lia).
    destruct (lookup_lt_is_Some_2 payload k Hk) as [old Hlk].
    assert (Hne : old <> v) by (intros ->; apply Hold; exact Hlk).
    assert (Holdr : 0 <= old < 256).
    { rewrite Forall_forall in Hpay. eapply Hpay, list_elem_of_lookup_2, Hlk. }
    pose proof (take_drop_middle _ _ _ Hlk) as Hsplit.
    exists s0, s1, s2, s3, l0, l1, ty, (take k payload ++ v :: drop (S k) payload).
    split.
    { rewrite <- insert_take_drop by exact Hk. reflexivity. }
    assert (Hlr : len (take k payload ++ v :: drop (S k) payload) = len payload).
    { rewrite <- Hsplit at 3. rewrite !len_app, !len_cons. reflexivity. }
    split; [exact Hlr|]. split; [rewrite Hlr; exact H16|].
    rewrite Hs32. rewrite <- Hsplit at 1.
    rewrite (app_assoc [l0; l1; ty] (take k payload) (old :: _)).
    rewrite (app_assoc [l0; l1; ty] (take k payload) (v :: _)).
    apply checksum_one_byte; [lia|lia|congruence].
Qed.

(** A full block that the startup-traversal cache holds as the file has
    it is used as if it had been fetched. *)
Lemma readChunks_cached fuel seg block segSize B c acc :
  isStartupTraversal seg = true ->
  0 <= B -> c < blockSize -> (B + 1) * blockSize <= segSize ->
  segSize <= len (fbytes (fd seg)) ->
  block = slice (fbytes (fd seg)) (B * blockSize) ((B + 1) * blockSize) ->
  readChunks (S fuel) seg B block segSize B c acc
  = readChunks (S fuel) seg (B - 1) block segSize B c acc.
Proof.
  intros Hs HB Hc Hfull HsegF Hblock.
  assert (Hlen : len block = blockSize).
  { rewrite Hblock, len_slice; unfold blockSize, KB in *; lia. }
  cbn [readChunks]. rewrite Hs.
  assert (Hsz : (blockSize + B * blockSize >? segSize) = false)
    by (destruct (_ >? _) eqn:E; [lia|reflexivity]).
  rewrite Hsz.
  destruct (c >=? blockSize) eqn:E; [lia|].
  rewrite !Z.eqb_refl.
  assert (Hne : (B - 1 =? B) = false) by lia.
  rewrite Hne. cbn [negb orb].
  rewrite (slice_ok_true block 0 blockSize)
    by (unfold blockSize, KB in *; lia).
  rewrite fileReadAt_ok by (unfold blockSize, KB in *; lia).
  replace (B * blockSize + blockSize) with ((B + 1) * blockSize) by lia.
  rewrite <- Hblock.
  assert (Hcopy : copyInto block block = block).
  { unfold copyInto. rewrite drop_all. apply app_nil_r. }
  rewrite Hcopy. reflexivity.
Qed.

(** The read loop walks over the chunks that lead to a damaged chunk and
    stops there with [ErrInvalidCRC]. *)
Lemma readChunks_leading_bad seg segSize before :
  forall c B pre acc sbn block fuel r0 r1 r2 r3 r4 r5 r6 rest post,
  leading c before ->
  fbytes (fd seg)
  = pre ++ concat (map chunkBytes before)
        ++ ([r0; r1; r2; r3; r4; r5; r6] ++ rest) ++ post ->
  len pre = B * blockSize + c ->
  0 <= B -> B + len before < 2 ^ 32 -> 0 <= c ->
  Uint16 [r4; r5] = len rest ->
  offsetAfter c before + chunkHeaderSize + len rest <= blockSize ->
  (B + len before) * blockSize + offsetAfter c before + chunkHeaderSize + len rest
    <= segSize ->
  segSize <= len (fbytes (fd seg)) ->
  len block = blockSize ->
  (isStartupTraversal seg = true ->
   sbn <> B \/ segSize < (B + 1) * blockSize) ->
  (length before < fuel)%nat ->
  Uint32 [r0; r1; r2; r3] <> ChecksumIEEE ([r4; r5; r6] ++ rest) ->
  exists sbn' block',
    readChunks fuel seg sbn block segSize B c acc
    = (sbn', block', Err ErrInvalidCRC).
Proof.
  induction before as [|ck before IH];
    intros c B pre acc sbn block fuel r0 r1 r2 r3 r4 r5 r6 rest post
           Hlead HF Hpre HB HBn Hc H16 Hfit Hseg HsegF Hblock Hsbn Hfuel Hbad.
  - destruct fuel as [|fuel]; [cbn in Hfuel; lia|].
    cbn [map concat app offsetAfter] in *. change (len []) with 0 in *.
    apply (readChunks_badsum fuel seg sbn block segSize B c acc
             r0 r1 r2 r3 r4 r5 r6 rest pre post); try assumption.
    lia.
  - destruct fuel as [|fuel]; [cbn in Hfuel; lia|].
    destruct Hlead as (Hend & HnF & HnL & Hlead).
    cbn [map concat offsetAfter] in *. rewrite <- app_assoc in HF.
    rewrite len_cons in HBn, Hseg.
    pose proof (len_nonneg before) as Hb0.
    pose proof (len_nonneg (ckPayload ck)) as Hp0.
    pose proof (len_nonneg rest) as Hr0.
    assert (Hfull : (B + 1) * blockSize <= segSize)
      by (unfold chunkHeaderSize, blockSize, KB in *; nia).
    destruct (readChunks_step fuel seg sbn block segSize B c acc ck pre
                (concat (map chunkBytes before)
                 ++ ([r0; r1; r2; r3; r4; r5; r6] ++ rest) ++ post))
      as (block' & Hblock' & Heq); try assumption; try lia;
      try (unfold chunkHeaderSize, blockSize, KB in *; nia);
      try (intros Hs; specialize (Hsbn Hs); lia).
    rewrite Heq. cbv zeta.
    assert (Hflag : (ckType ck =? ChunkTypeFull) || (ckType ck =? ChunkTypeLast) = false).
    { destruct (ckType ck =? ChunkTypeFull) eqn:E1; [lia|].
      destruct (ckType ck =? ChunkTypeLast) eqn:E2; [lia|reflexivity]. }
    rewrite Hflag.
    assert (Hu : u32 (B + 1) = B + 1).
    { unfold u32. apply Z.mod_small. lia. }
    rewrite Hu.
    apply (IH 0 (B + 1) (pre ++ chunkBytes ck) (acc ++ ckPayload ck)
              (if isStartupTraversal seg then B else sbn) block' fuel
              r0 r1 r2 r3 r4 r5 r6 rest post); try assumption; try lia.
    * rewrite <- app_assoc. exact HF.
    * rewrite len_app, len_chunkBytes. unfold chunkHeaderSize, blockSize, KB in *. lia.
    * destruct before; cbn [offsetAfter] in *; lia.
    * replace (B + 1 + len before) with (B + (1 + len before)) by lia.
      destruct before; cbn [offsetAfter] in *; lia.
    * intros Hs. rewrite Hs. left. lia.
    * cbn [length] in Hfuel. lia.
Qed.

(** The whole read, from the start of the record.  In startup traversal
    the first block may come from the cache when the cache holds it as
    the file has it. *)
Lemma readInternal_leading_bad pool seg before B c
      r0 r1 r2 r3 r4 r5 r6 rest pre post :
  closed seg = false ->
  leading c before ->
  fbytes (fd seg)
  = pre ++ concat (map chunkBytes before)
        ++ ([r0; r1; r2; r3; r4; r5; r6] ++ rest) ++ post ->
  len pre = B * blockSize + c ->
  0 <= B -> B + len before < 2 ^ 32 -> 0 <= c ->
  Uint16 [r4; r5] = len rest ->
  offsetAfter c before + chunkHeaderSize + len rest <= blockSize ->
  Size seg = len (fbytes (fd seg)) ->
  len (sbBlock (startup seg)) = blockSize ->
  (isStartupTraversal seg = true ->
   sbBlockNumber (startup seg) = B -> (B + 1) * blockSize <= Size seg ->
   sbBlock (startup seg)
   = slice (fbytes (fd seg)) (B * blockSize) ((B + 1) * blockSize)) ->
  Uint32 [r0; r1; r2; r3] <> ChecksumIEEE ([r4; r5; r6] ++ rest) ->
  snd (readInternal pool seg B c) = Err ErrInvalidCRC.
Proof.
  intros Hclosed Hlead HF Hpre HB HBn Hc H16 Hfit Hsize Hsb Hcache Hbad.
  unfold readInternal. rewrite Hclosed.
  set (block := if isStartupTraversal seg then sbBlock (startup seg)
                else if negb (len (getBuffer pool) =? blockSize)
                     then repeat 0 (Z.to_nat blockSize) else getBuffer pool).
  assert (Hblock : len block = blockSize).
  { subst block. destruct (isStartupTraversal seg); [exact Hsb|].
    destruct (len (getBuffer pool) =? blockSize) eqn:E; cbn [negb]; [lia|].
    rewrite len_repeat. unfold blockSize, KB. lia. }
  pose proof (len_nonneg before) as Hb0.
  pose proof (len_nonneg rest) as Hr0.
  pose proof (len_nonneg post) as Hpo0.
  assert (Hcat : len (concat (map chunkBytes before))
                 = len before * blockSize - (c - offsetAfter c before)).
  { clear -Hlead. revert c Hlead.
    induction before as [|ck before IH]; intros c Hlead.
    - cbn [offsetAfter map concat]. change (len []) with 0. lia.
    - destruct Hlead as (Hend & _ & _ & Hlead).
      cbn [map concat offsetAfter]. rewrite len_app, len_chunkBytes, len_cons.
      rewrite (IH 0 Hlead).
      assert (offsetAfter 0 before = 0) as -> by (destruct before; reflexivity).
      unfold chunkHeaderSize in *. lia. }
  assert (HlenF : len (fbytes (fd seg))
                  = (B + len before) * blockSize + offsetAfter c before
                    + chunkHeaderSize + len rest + len post).
  { rewrite HF, !len_app, Hpre, Hcat.
    change (len [r0; r1; r2; r3; r4; r5; r6]) with 7. unfold chunkHeaderSize. lia. }
  assert (Hoff0 : 0 <= offsetAfter c before)
    by (destruct before; cbn [offsetAfter]; lia).
  assert (Hfuel : (length before < S (Z.to_nat (Size seg / blockSize)))%nat).
  { rewrite Hsize, HlenF.
    assert (len before
            <= ((B + len before) * blockSize + offsetAfter c before
                + chunkHeaderSize + len rest + len post) / blockSize).
    { apply Z.div_le_lower_bound; unfold chunkHeaderSize, blockSize, KB in *; nia. }
    unfold len in *. lia. }
  assert (Hgen : forall sbn,
            (isStartupTraversal seg = true ->
             sbn <> B \/ Size seg < (B + 1) * blockSize) ->
            exists sbn' block',
              readChunks (readFuel seg) seg sbn block (Size seg) B c []
              = (sbn', block', Err ErrInvalidCRC)).
  { intros sbn Hsbn.
    apply (readChunks_leading_bad seg (Size seg) before c B pre [] sbn block
             (readFuel seg) r0 r1 r2 r3 r4 r5 r6 rest post);
      try assumption; try lia.
    unfold readFuel. lia. }
  assert (Hres : exists sbn' block',
            readChunks (readFuel seg) seg (sbBlockNumber (startup seg)) block
                       (Size seg) B c []
            = (sbn', block', Err ErrInvalidCRC)).
  { destruct (isStartupTraversal seg) eqn:Hs;
      [|apply Hgen; intros; discriminate].
    destruct (Z.eq_dec (sbBlockNumber (startup seg)) B) as [Heq|Hne];
      [|apply Hgen; intros; left; exact Hne].
    destruct (Z_lt_le_dec (Size seg) ((B + 1) * blockSize)) as [Hlt|Hle];
      [apply Hgen; intros; right; exact Hlt|].
    assert (Hcb : c < blockSize).
    { destruct before as [|ck before'].
      - cbn [offsetAfter] in Hfit. unfold chunkHeaderSize in Hfit. lia.
      - destruct Hlead as (Hend & _).
        pose proof (len_nonneg (ckPayload ck)). unfold chunkHeaderSize in Hend.
        lia. }
    assert (Hblk : block
                   = slice (fbytes (fd seg)) (B * blockSize) ((B + 1) * blockSize)).
    { subst block. apply Hcache; [reflexivity|assumption|assumption]. }
    rewrite Heq. unfold readFuel at 1.
    rewrite (readChunks_cached _ seg block (Size seg) B c []
               Hs HB Hcb Hle ltac:(lia) Hblk).
    apply (Hgen (B - 1)). intros _. left. lia. }
  destruct Hres as (sbn' & block' & Hr).
  rewrite Hr. destruct (isStartupTraversal seg); reflexivity.
Qed.

(** The chunks of a written record before any one of them are
    [leading]: the framing of [writeToBuffer] has the shape the read
    loop walks over. *)
Lemma chain_leading log :
  forall first c data before ck rest,
  chain first c log data ->
  log = before ++ ck :: rest ->
  leading c before
  /\ ckOffset ck = offsetAfter c before
  /\ offsetAfter c before + chunkHeaderSize + len (ckPayload ck) <= blockSize.
Proof.
  induction log as [|ck0 log IH]; intros first c data before ck rest Hch Hlog.
  - destruct before; discriminate.
  - destruct before as [|b before]; cbn [app] in Hlog; injection Hlog as -> Hlog.
    + cbn [leading offsetAfter]. cbn [chain] in Hch.
      destruct Hch as (Hoff & Hfit & _). auto.
    + subst log. cbn [chain] in Hch.
      destruct Hch as (Hoff & Hfit & Hrest).
      destruct (before ++ ck :: rest) as [|x l] eqn:E;
        [destruct before; discriminate|].
      destruct Hrest as (Hty & Hend & _ & Hch).
      destruct (IH false 0 _ before ck rest Hch (eq_sym E)) as (Hl & Ho & Hf).
      assert (offsetAfter 0 before = 0) as Hz by (destruct before; reflexivity).
      rewrite Hz in Ho, Hf.
      cbn [leading offsetAfter]. repeat split; try assumption.
      * rewrite Hty. destruct first; discriminate.
      * rewrite Hty. destruct first; discriminate.
Qed.

(** C4.  Take a record stored in an open segment as the chunks [before]
    followed by the chunk [ck] (and whatever comes after), the first of
    them at block [B], offset [c], and change one byte of [ck], in its
    checksum field, its type byte or its payload (any byte but the two
    of the length field), to another byte value.  Then [segment.Read]
    and [segmentReader.Next] at the record walk over [before] and fail
    at [ck] with [ErrInvalidCRC].  In startup traversal this needs the
    cache to be in step with the file: if the cached block is block [B]
    and that block is complete, the read takes it from the cache, and
    the cache has to hold what the file holds. *)
Theorem crc_detects_mutation pool seg before ck pre post B c (i : nat) v :
  closed seg = false ->
  leading c before ->
  fbytes (fd seg)
  = pre ++ concat (map chunkBytes before) ++ <[i := v]> (chunkBytes ck) ++ post ->
  len pre = B * blockSize + c ->
  0 <= B -> B + len before < 2 ^ 32 -> 0 <= c ->
  offsetAfter c before + chunkHeaderSize + len (ckPayload ck) <= blockSize ->
  Size seg = len (fbytes (fd seg)) ->
  len (sbBlock (startup seg)) = blockSize ->
  (isStartupTraversal seg = true ->
   sbBlockNumber (startup seg) = B -> (B + 1) * blockSize <= Size seg ->
   sbBlock (startup seg)
   = slice (fbytes (fd seg)) (B * blockSize) ((B + 1) * blockSize)) ->
  0 <= ckType ck < 256 ->
  Forall (fun b => 0 <= b < 256) (ckPayload ck) ->
  (i < length (chunkBytes ck))%nat -> i <> 4%nat -> i <> 5%nat ->
  0 <= v < 256 -> chunkBytes ck !! i <> Some v ->
  snd (segRead pool seg B c) = Err ErrInvalidCRC
  /\ snd (segReaderNext pool (mkSegmentReader seg B c)) = Err ErrInvalidCRC.
Proof.
  intros Hclosed Hlead HF Hpre HB HBn Hc Hfit Hsize Hsb Hcache Hty Hpay
         Hi Hi4 Hi5 Hv Hold.
  assert (Hoff0 : 0 <= offsetAfter c before)
    by (destruct before; cbn [offsetAfter]; lia).
  destruct (mutated_chunk ck i v) as
    (r0 & r1 & r2 & r3 & r4 & r5 & r6 & rest & Hmut & Hlen & H16 & Hbad);
    try assumption; [lia|].
  rewrite Hmut in HF. rewrite <- Hlen in Hfit.
  assert (Hread : snd (readInternal pool seg B c) = Err ErrInvalidCRC).
  { apply (readInternal_leading_bad pool seg before B c
             r0 r1 r2 r3 r4 r5 r6 rest pre post); assumption. }
  split.
  - unfold segRead. destruct (readInternal pool seg B c) as [s [[? ?]|e| |]];
      cbn [snd] in *; congruence.
  - unfold segReaderNext. cbn [rdSegment rdBlockNumber rdChunkOffset].
    rewrite Hclosed.
    destruct (readInternal pool seg B c) as [s [[? ?]|e| |]];
      cbn [snd] in *; congruence.
Qed.

Lemma crc_detects_mutation_witness :
  snd (segRead [] (mutateFile splitRecord (Z.to_nat 32775) 66) 0 32750) = Err ErrInvalidCRC
  /\ snd (segReaderNext []
            (mkSegmentReader (mutateFile splitRecord (Z.to_nat 32775) 66) 0 32750))
     = Err ErrInvalidCRC.
Proof.
  apply (crc_detects_mutation [] (mutateFile splitRecord (Z.to_nat 32775) 66)
           [mkChunk 32750 ChunkTypeFirst (repeat 7 11)]
           (mkChunk 0 ChunkTypeLast (repeat 7 9))
           (repeat 9 (Z.to_nat 32750)) [] 0 32750 7 66).
  - vm_compute. reflexivity.
  - vm_compute. repeat split; discriminate.
  - apply (bool_decide_unpack _). vm_compute. exact I.
  - vm_compute. reflexivity.
  - lia.
  - vm_compute. reflexivity.
  - lia.
  - vm_compute. discriminate.
  - vm_compute. reflexivity.
  - vm_compute. reflexivity.
  - intros H. vm_compute in H. discriminate.
  - vm_compute. split; [discriminate|reflexivity].
  - repeat constructor; lia.
  - vm_compute. lia.
  - lia.
  - lia.
  - lia.
  - vm_compute. discriminate.
Defined.

(** C4 as stated fails for the length field, and for a block served
    from the startup-traversal cache.  With the low length byte of an
    empty first record changed from 0 to 4, the checksum is taken over
    the four bytes that follow as well and matches: the read succeeds
    with those four bytes as the record.  With the high length byte
    changed to 128 the payload slice runs past the block buffer and the
    read panics.  [cachedBlock] is in startup traversal and has its full
    block 0 cached: with a payload byte of its first record changed in
    the file, the read at that record returns the old payload from the
    cache; outside startup traversal the same read fails with
    [ErrInvalidCRC]. *)
Lemma length_mutation_undetected :
  nth 4 (fbytes (fd twoRecords)) 0 = 0
  /\ snd (segRead [] twoRecords 0 0) = Ok []
  /\ snd (segRead [] (mutateFile twoRecords 4 4) 0 0) = Ok [232; 1; 34; 247]
  /\ snd (segRead [] (mutateFile twoRecords 4 4) 0 0) <> Err ErrInvalidCRC
  /\ (exists v, snd (segReaderNext [] (mkSegmentReader (mutateFile twoRecords 4 4) 0 0))
                = Ok v)
  /\ snd (segRead [] (mutateFile oneRecord 5 128) 0 0) = Panic
  /\ isStartupTraversal cachedBlock = true
  /\ sbBlockNumber (startup cachedBlock) = 0
  /\ nth 7 (fbytes (fd cachedBlock)) 0 = 65
  /\ snd (segRead [] (mutateFile cachedBlock 7 66) 0 0) = Ok [65; 66; 67]
  /\ (exists v, snd (segReaderNext [] (mkSegmentReader (mutateFile cachedBlock 7 66) 0 0))
                = Ok v)
  /\ snd (segRead [] (setIsStartupTraversal (mutateFile cachedBlock 7 66) false) 0 0)
     = Err ErrInvalidCRC.
Proof.
  split; [vm_compute; reflexivity|].
  split; [vm_compute; reflexivity|].
  split; [vm_compute; reflexivity|].
  split; [vm_compute; discriminate|].
  split; [eexists; vm_compute; reflexivity|].
  split; [vm_compute; reflexivity|].
  split; [vm_compute; reflexivity|].
  split; [vm_compute; reflexivity|].
  split; [vm_compute; reflexivity|].
  split; [vm_compute; reflexivity|].
  split; [eexists; vm_compute; reflexivity|].
  vm_compute. reflexivity.
Qed.

(** ** C2: the error of the nonce file in a batch write *)

(** C2 fails on the code.  With one record pending and a nonce file
    that rejects the write, [nonceFile.writeAll] returns the error and
    [WriteAll] returns the positions with no error; the record is in the
    segment, no nonce is stored, and [WAL.Write] on the same WAL does
    return the error. *)
Theorem WriteAll_drops_nonce_error :
  snd (WriteAll brokenNonceWAL) = Ok [mkPos 1 0 0 9 0]
  /\ snd (nonceWriteAll (nonceFile_ brokenNonceWAL)
                        (pendingNonceWrites brokenNonceWAL) [] [mkPos 1 0 0 9 0])
     = Err ErrIO
  /\ len (fbytes (fd (activeSegment (fst (WriteAll brokenNonceWAL))))) = 9
  /\ fbytes (nfd (nonceFile_ (fst (WriteAll brokenNonceWAL)))) = []
  /\ snd (Write brokenNonceWAL [70; 71] nonceB) = Err ErrIO.
Proof.
  split; [vm_compute; reflexivity|].
  split; [vm_compute; reflexivity|].
  split; [vm_compute; reflexivity|].
  split; vm_compute; reflexivity.
Qed.

(** ** C5: the fixed-size encoding of a position *)

Lemma putField_len st x buf index :
  putField st x = Ok (buf, index) ->
  exists buf0 index0,
    st = Ok (buf0, index0) /\ len buf = len buf0
    /\ (0 <= index0 <= len buf0 -> 0 <= index <= len buf /\ index0 <= index).
Proof.
  unfold putField. destruct st as [[buf0 index0]|e| |]; try discriminate.
  unfold PutUvarint. generalize (uvarintBytes 9 x). intros bs.
  destruct (_ <=? _) eqn:E; [|discriminate].
  intros H. injection H as <- <-. exists buf0, index0.
  rewrite len_drop in E.
  pose proof (len_nonneg bs).
  split; [reflexivity|].
  rewrite !len_app, len_take, !len_drop.
  split; [|intros]; unfold len in *; lia.
Qed.

(** Whatever [EncodeFixedSize] returns has [maxLen] = 25 bytes. *)
Lemma EncodeFixedSize_len cp buf :
  EncodeFixedSize cp = Ok buf -> len buf = maxLen.
Proof.
  unfold EncodeFixedSize, encode.
  destruct (putField _ (u64 (ValueNum cp))) as [[b5 i5]|e| |] eqn:H5; try discriminate.
  intros H. injection H as <-.
  apply putField_len in H5 as (b4 & i4 & H4 & -> & _).
  apply putField_len in H4 as (b3 & i3 & H3 & -> & _).
  apply putField_len in H3 as (b2 & i2 & H2 & -> & _).
  apply putField_len in H2 as (b1 & i1 & H1 & -> & _).
  apply putField_len in H1 as (b0 & i0 & H0 & -> & _).
  injection H0 as <- _. reflexivity.
Qed.

(** C5 fails on the code.  The buffer has 3 * 5 + 10 = 25 bytes, not
    5 * 10; a position with large fields needs more, and
    [binary.PutUvarint] panics.  A position whose five varints take at
    most 25 bytes is encoded and decoded back. *)
Theorem EncodeFixedSize_overflows :
  maxLen = 25
  /\ 5 * MaxVarintLen64 = 50
  /\ len (uvarintBytes 9 (u64 (SegmentId maxPosition)))
     + len (uvarintBytes 9 (u64 (BlockNumber maxPosition)))
     + len (uvarintBytes 9 (u64 (ChunkOffset maxPosition)))
     + len (uvarintBytes 9 (u64 (ChunkSize maxPosition)))
     + len (uvarintBytes 9 (u64 (ValueNum maxPosition))) = 33
  /\ EncodeFixedSize maxPosition = Panic
  /\ Encode maxPosition = Panic
  /\ (exists buf, EncodeFixedSize (mkPos 1 2 300 40014 5) = Ok buf
                  /\ len buf = 25
                  /\ DecodeChunkPosition buf = Ok (Some (mkPos 1 2 300 40014 5))).
Proof.
  split; [vm_compute; reflexivity|].
  split; [vm_compute; reflexivity|].
  split; [vm_compute; reflexivity|].
  split; [vm_compute; reflexivity|].
  split; [vm_compute; reflexivity|].
  eexists.
  split; [vm_compute; reflexivity|].
  split; vm_compute; reflexivity.
Qed.

(** ** C9: a reader that starts at a position *)

(** C9 fails on the code.  [twoBlocks] holds records at (block 0,
    offset 0), (block 1, offset 0) and (block 1, offset 8).  For the
    start position (segment 1, block 0, offset 5) the first record at or
    after it is the one at (block 1, offset 0); the reader returned by
    [NewReaderWithStart] has stepped over it, because offset 0 is below
    offset 5, and yields the record at (block 1, offset 8).  In
    [twoSegments] the start position of the record in segment 2 makes
    the reader skip segment 1 without counting its record: the record
    comes with the nonce of the first record of the WAL. *)
Theorem NewReaderWithStart_skips :
  snd (Write (fst (Write (freshWAL DefaultOptions) blockFill nonceA)) [66] nonceB)
    = Ok (mkPos 1 1 0 8 1)
  /\ posLeb (mkPos 1 0 5 0 0) (mkPos 1 1 0 8 1) = true
  /\ posLeb (mkPos 1 0 5 0 0) (mkPos 1 0 0 32768 0) = false
  /\ firstFrom [] twoBlocks (mkPos 1 0 5 0 0) = Ok ([67], nonceA, mkPos 1 1 8 8 2)
  /\ firstFrom [] twoBlocks (mkPos 1 1 0 0 0) = Ok ([66], nonceB, mkPos 1 1 0 8 1)
  /\ snd (Read [] twoSegments (mkPos 2 0 0 47 1)) = Ok (repeat 66 40, nonceB)
  /\ firstFrom [] twoSegments (mkPos 2 0 0 47 1)
     = Ok (repeat 66 40, nonceA, mkPos 2 0 0 47 0).
Proof.
  split; [vm_compute; reflexivity|].
  split; [vm_compute; reflexivity|].
  split; [vm_compute; reflexivity|].
  split; [vm_compute; reflexivity|].
  split; [vm_compute; reflexivity|].
  split; vm_compute; reflexivity.
Qed.

(** ** C10: a short nonce read *)

(** C10 (as amended).  When fewer than 12 bytes are obtained at
    [ValueNum * 12]: [WAL.Read] returns an error, and for a known segment
    and a non-negative offset that error is [io.EOF], the error of the
    read itself; [Reader.Next], whose segment reader has just produced a
    record, returns [io.EOF], which is also what it returns at the end of
    the iteration. *)
Theorem short_nonce_read pool w pos r sr sr' data position :
  len (fst (fileReadAt (nfd (nonceFile_ w)) nonceSize
                       (i64 (ValueNum pos * nonceSize)))) < nonceSize ->
  segmentReaders r !! currentReader r = Some sr ->
  segReaderNext pool sr = (sr', Ok (data, position)) ->
  len (fst (fileReadAt (nfd (nonceReader r)) nonceSize
                       (i64 (valueNum r * nonceSize)))) < nonceSize ->
  (exists e, snd (Read pool w pos) = Err e)
  /\ (0 <= i64 (ValueNum pos * nonceSize) ->
      (SegmentId pos = id (activeSegment w)
       \/ is_Some (olderSegments w !! SegmentId pos)) ->
      snd (Read pool w pos) = Err EOF)
  /\ snd (Next pool r) = Err EOF
  /\ forall r', segmentReaders r' !! currentReader r' = None ->
       snd (Next pool r') = Err EOF.
Proof.
  intros Hshort Hsr Hnext Hshort'.
  assert (Hra : forall f off,
            len (fst (fileReadAt f nonceSize off)) < nonceSize ->
            exists got e, fileReadAt f nonceSize off = (got, Some e)
                          /\ (0 <= off -> e = EOF)).
  { intros f off. unfold fileReadAt. destruct (off <? 0) eqn:E.
    - intros _. exists [], ErrIO. split; [reflexivity|lia].
    - cbn [fst]. intros H. destruct (_ <? nonceSize) eqn:E'; [|lia].
      eexists _, EOF. split; reflexivity. }
  assert (HRead : forall seg, 
            (if SegmentId pos =? id (activeSegment w) then Some (activeSegment w)
             else olderSegments w !! SegmentId pos) = Some seg ->
            exists e, snd (Read pool w pos) = Err e
                      /\ (0 <= i64 (ValueNum pos * nonceSize) -> e = EOF)).
  { intros seg Hseg. unfold Read. rewrite Hseg.
    destruct (Hra _ _ Hshort) as (got & e & -> & He).
    exists e. split; [reflexivity|exact He]. }
  split; [|split; [|split]].
  - destruct (if SegmentId pos =? id (activeSegment w) then Some (activeSegment w)
              else olderSegments w !! SegmentId pos) as [seg|] eqn:Hseg.
    + destruct (HRead seg eq_refl) as (e & He & _). eauto.
    + exists ErrSegmentNotFound. unfold Read. rewrite Hseg. reflexivity.
  - intros Hoff Hfound.
    assert (Hseg : exists seg,
              (if SegmentId pos =? id (activeSegment w) then Some (activeSegment w)
               else olderSegments w !! SegmentId pos) = Some seg).
    { destruct (SegmentId pos =? id (activeSegment w)) eqn:E; [eauto|].
      destruct Hfound as [Hf|[seg Hf]]; [lia|eauto]. }
    destruct Hseg as (seg & Hseg).
    destruct (HRead seg Hseg) as (e & He & Heof). rewrite He, Heof by exact Hoff.
    reflexivity.
  - unfold Next. cbn [readerNext]. rewrite Hsr, Hnext.
    cbn [nonceReader valueNum ValueNum setValueNum].
    destruct (Hra _ _ Hshort') as (got & e & Hr & _).
    rewrite Hr. destruct (negb _); reflexivity.
  - intros r' Hnone. unfold Next. cbn [readerNext]. rewrite Hnone. reflexivity.
Qed.

Lemma short_nonce_read_witness :
  (exists e, snd (Read [] tinyWAL (mkPos 1 0 0 10 0)) = Err e)
  /\ snd (Read [] tinyWAL (mkPos 1 0 0 10 0)) = Err EOF
  /\ snd (Next [] tinyReader) = Err EOF.
Proof.
  destruct (short_nonce_read [] tinyWAL (mkPos 1 0 0 10 0) tinyReader
              (segNewReader tinySegment)
              (fst (segReaderNext [] (segNewReader tinySegment)))
              [65; 66; 67] (mkPos 1 0 0 10 0))
    as (H1 & H2 & H3 & _).
  - vm_compute. reflexivity.
  - vm_compute. reflexivity.
  - apply with_fst. vm_compute. reflexivity.
  - vm_compute. reflexivity.
  - split; [exact H1|]. split; [|exact H3].
    apply H2; [vm_compute; discriminate|left; vm_compute; reflexivity].
Defined.

(** C10 as stated fails for [Reader.Next]: the segment of [noNonceWAL]
    holds a record and the nonce file is empty; [Next] returns [io.EOF],
    exactly as it does on a WAL without records, though the segment
    reader had a record to give. *)
Lemma short_nonce_reported_as_EOF :
  (exists v, snd (segReaderNext [] (segNewReader (activeSegment noNonceWAL))) = Ok v)
  /\ fbytes (nfd (nonceFile_ noNonceWAL)) = []
  /\ snd (Next [] (NewReader noNonceWAL)) = Err EOF
  /\ snd (Next [] (NewReader (freshWAL DefaultOptions))) = Err EOF
  /\ snd (Read [] noNonceWAL (mkPos 1 0 0 10 0)) = Err EOF
  /\ fbytes (fd (activeSegment noNonceWAL)) = fbytes (fd tinySegment).
Proof.
  split; [eexists; vm_compute; reflexivity|].
  split; [vm_compute; reflexivity|].
  split; [vm_compute; reflexivity|].
  split; [vm_compute; reflexivity|].
  split; vm_compute; reflexivity.
Qed.

(** * Further properties of the code *)

(** ** Varints and the encoding of positions *)

Lemma byte_cont_facts y : 0 <= y < 256 ->
  Z.land (Z.lor y 128) 127 = y mod 128 /\ 128 <= Z.lor y 128 < 256.
Proof.
  intros H.
  assert (forallb (fun n => let y := Z.of_nat n in
            (Z.land (Z.lor y 128) 127 =? y mod 128) && (128 <=? Z.lor y 128)
            && (Z.lor y 128 <? 256)) (seq 0 256) = true) by (vm_compute; reflexivity).
  rewrite forallb_forall in H0.
  specialize (H0 (Z.to_nat y)).
  rewrite Z2Nat.id in H0 by lia.
  assert (In (Z.to_nat y) (seq 0 256)) by (apply in_seq; lia).
  apply H0 in H1. cbv zeta in H1. lia.
Qed.

Lemma lor_u64_shiftl acc b s :
  0 <= s -> 0 <= acc < 2 ^ s -> 0 <= b -> b * 2 ^ s < 2 ^ 64 ->
  Z.lor acc (u64 (Z.shiftl b s)) = acc + b * 2 ^ s.
Proof.
  intros Hs Hacc Hb Hlt.
  assert (0 < 2 ^ s) by (apply Z.pow_pos_nonneg; lia).
  unfold u64. rewrite Z.shiftl_mul_pow2 by lia.
  rewrite Z.mod_small by nia.
  rewrite <- (lor_shiftl_add acc b s) by lia.
  rewrite Z.shiftl_mul_pow2 by lia. reflexivity.
Qed.

Lemma pow2_split a b : 0 <= a -> 0 <= b -> 2 ^ (a + b) = 2 ^ a * 2 ^ b.
Proof. intros. apply Z.pow_add_r; lia. Qed.

Lemma uvarintLoop_bytes fuel : forall x i acc rest,
  i = 9 - Z.of_nat fuel -> (fuel <= 9)%nat ->
  0 <= x < 2 ^ (64 - 7 * i) ->
  0 <= acc < 2 ^ (7 * i) ->
  uvarintLoop (uvarintBytes fuel x ++ rest) i acc (7 * i)
  = (acc + x * 2 ^ (7 * i), i + len (uvarintBytes fuel x)).
Proof.
  induction fuel as [|fuel IH]; intros x i acc rest Hi Hf Hx Hacc.
  - assert (i = 9) by lia. subst i.
    cbn [uvarintBytes app uvarintLoop].
    change (64 - 7 * 9) with 1 in Hx. change (2 ^ 1) with 2 in Hx.
    unfold MaxVarintLen64. change (9 =? 10) with false. cbv iota.
    rewrite land255_mod.
    assert (x mod 256 = x) as -> by lia.
    destruct (x <? 128) eqn:E; [|lia].
    change (9 =? 10 - 1) with true. cbn [andb].
    destruct (x >? 1) eqn:E1; [lia|].
    f_equal. apply lor_u64_shiftl; lia.
  - cbn [uvarintBytes].
    assert (Hi0 : 0 <= i <= 8) by lia.
    assert (Hp : 0 < 2 ^ (7 * i)) by (apply Z.pow_pos_nonneg; lia).
    assert (H64 : 2 ^ 64 = 2 ^ (64 - 7 * i) * 2 ^ (7 * i))
      by (rewrite <- pow2_split by lia; f_equal; lia).
    destruct (x >=? 128) eqn:E.
    + cbn [app uvarintLoop]. unfold MaxVarintLen64.
      destruct (i =? 10) eqn:E10; [lia|].
      rewrite land255_mod.
      pose proof (byte_cont_facts (x mod 256) ltac:(lia)) as [Hb1 Hb2].
      destruct (_ <? 128) eqn:E2; [lia|].
      rewrite Hb1.
      assert (Hs : 7 * i + 7 = 7 * (i + 1)) by lia.
      rewrite Hs.
      assert (Hm : x mod 256 mod 128 = x mod 128) by lia. rewrite Hm.
      assert (Hle : x mod 128 <= x) by lia.
      assert (Hle' : 0 <= x mod 128 <= 127) by lia.
      rewrite lor_u64_shiftl; [|lia|lia|lia|nia].
      assert (Hpp : 2 ^ (7 * (i + 1)) = 128 * 2 ^ (7 * i)).
      { replace (7 * (i + 1)) with (7 + 7 * i) by lia.
        rewrite pow2_split by lia. reflexivity. }
      assert (Hq : 2 ^ (64 - 7 * i) = 128 * 2 ^ (64 - 7 * (i + 1))).
      { replace (64 - 7 * i) with (7 + (64 - 7 * (i + 1))) by lia.
        rewrite pow2_split by lia. reflexivity. }
      assert (0 < 2 ^ (64 - 7 * (i + 1))) by (apply Z.pow_pos_nonneg; lia).
      rewrite Z.shiftr_div_pow2 by lia. change (2 ^ 7) with 128.
      rewrite IH.
      * rewrite len_cons. f_equal; [|lia].
        rewrite Hpp. nia.
      * lia.
      * lia.
      * split; [lia|]. apply Z.div_lt_upper_bound; lia.
      * rewrite Hpp. split; [nia|]. nia.
    + cbn [app uvarintLoop]. unfold MaxVarintLen64.
      destruct (i =? 10) eqn:E10; [lia|].
      rewrite land255_mod.
      assert (x mod 256 = x) as -> by lia.
      destruct (x <? 128) eqn:E2; [|lia].
      destruct ((i =? 10 - 1) && (x >? 1)) eqn:E3.
      { assert (i = 8) by lia. subst i. lia. }
      f_equal. apply lor_u64_shiftl; try lia. nia.
Qed.

(** [binary.Uvarint] reads back what [binary.PutUvarint] stored. *)
Lemma Uvarint_uvarintBytes x rest :
  0 <= x < 2 ^ 64 ->
  Uvarint (uvarintBytes 9 x ++ rest) = (x, len (uvarintBytes 9 x)).
Proof.
  intros Hx. unfold Uvarint.
  pose proof (uvarintLoop_bytes 9 x 0 0 rest) as H.
  change (7 * 0) with 0 in H. change (2 ^ 0) with 1 in H.
  rewrite H; [f_equal; lia| reflexivity | lia | exact Hx | lia].
Qed.
Lemma uvarintBytes_len_bound fuel : forall x k,
  1 <= k -> 0 <= x < 2 ^ (7 * k) -> 1 <= len (uvarintBytes fuel x) <= k.
Proof.
  induction fuel as [|fuel IH]; intros x k Hk Hx.
  - unfold len; cbn [uvarintBytes length]; lia.
  - cbn [uvarintBytes]. destruct (x >=? 128) eqn:E.
    + rewrite len_cons.
      assert (2 <= k).
      { destruct (Z.eq_dec k 1) as [->|]; [|lia].
        change (2 ^ (7 * 1)) with 128 in Hx. lia. }
      assert (Hp : 2 ^ (7 * k) = 128 * 2 ^ (7 * (k - 1))).
      { replace (7 * k) with (7 + 7 * (k - 1)) by lia.
        rewrite Z.pow_add_r by lia. reflexivity. }
      assert (0 < 2 ^ (7 * (k - 1))) by (apply Z.pow_pos_nonneg; lia).
      specialize (IH (Z.shiftr x 7) (k - 1)).
      rewrite Z.shiftr_div_pow2 in IH by lia. change (2 ^ 7) with 128 in IH.
      assert (Hq : 0 <= x / 128 < 2 ^ (7 * (k - 1))).
      { split; [lia|]. apply Z.div_lt_upper_bound; lia. }
      specialize (IH ltac:(lia) Hq).
      rewrite Z.shiftr_div_pow2 by lia. change (2 ^ 7) with 128. lia.
    + unfold len; cbn [uvarintBytes length]; lia.
Qed.

Lemma uvarintLen_range x : 1 <= uvarintLen x <= 10.
Proof.
  unfold uvarintLen.
  assert (forall fuel x, 1 <= len (uvarintBytes fuel x) <= Z.of_nat fuel + 1).
  { clear. induction fuel as [|fuel IH]; intros x.
    - unfold len; cbn [uvarintBytes length]; lia.
    - cbn [uvarintBytes]. destruct (x >=? 128).
      + rewrite len_cons. specialize (IH (Z.shiftr x 7)). lia.
      + unfold len; cbn [uvarintBytes length]; lia. }
  specialize (H 9%nat x). lia.
Qed.

Lemma drop_repeat {A} (x : A) n k : drop k (repeat x n) = repeat x (n - k).
Proof.
  revert k. induction n as [|n IH]; intros [|k]; cbn; try reflexivity.
  apply IH.
Qed.

(** A field goes into the zero bytes that follow what is already
    written, when they are enough for it. *)
Lemma putField_zeros pre (k : nat) x :
  putField (Ok (pre ++ repeat 0 k, len pre)) x
  = if uvarintLen x <=? Z.of_nat k
    then Ok ((pre ++ uvarintBytes 9 x)
               ++ repeat 0 (k - length (uvarintBytes 9 x)),
             len (pre ++ uvarintBytes 9 x))
    else Panic.
Proof.
  unfold putField, PutUvarint, uvarintLen.
  assert (Z.to_nat (len pre) = length pre) as -> by (unfold len; lia).
  rewrite drop_app_length, take_app_length, len_repeat.
  destruct (_ <=? _); [|reflexivity].
  rewrite drop_repeat, len_app, <- app_assoc. reflexivity.
Qed.

Lemma getField_app pre x rest :
  0 <= x < 2 ^ 64 ->
  getField (pre ++ uvarintBytes 9 x ++ rest) (len pre)
  = Ok (x, len (pre ++ uvarintBytes 9 x)).
Proof.
  intros Hx. unfold getField.
  pose proof (len_nonneg pre). pose proof (len_nonneg (uvarintBytes 9 x ++ rest)).
  rewrite len_app.
  destruct (_ && _) eqn:E; [|lia].
  assert (Z.to_nat (len pre) = length pre) as -> by (unfold len; lia).
  rewrite drop_app_length, Uvarint_uvarintBytes by exact Hx.
  rewrite len_app. reflexivity.
Qed.

Lemma u32_u64 x : 0 <= x < 2 ^ 32 -> u32 (u64 x) = x.
Proof.
  unfold u32, u64. change (2 ^ 32) with 4294967296.
  change (2 ^ 64) with 18446744073709551616. lia.
Qed.

Lemma i64_u64 x : - 2 ^ 63 <= x < 2 ^ 63 -> i64 (u64 x) = x.
Proof.
  unfold i64, u64. change (2 ^ 63) with 9223372036854775808.
  change (2 ^ 64) with 18446744073709551616. lia.
Qed.

Lemma u64_range x : 0 <= u64 x < 2 ^ 64.
Proof. unfold u64. change (2 ^ 64) with 18446744073709551616. lia. Qed.

(** What [encode] does with a position, told by the space its varints
    need. *)
Lemma encode_spec cp :
  posInRange cp ->
  let bytes :=
    uvarintBytes 9 (u64 (SegmentId cp)) ++ uvarintBytes 9 (u64 (BlockNumber cp))
    ++ uvarintBytes 9 (u64 (ChunkOffset cp)) ++ uvarintBytes 9 (u64 (ChunkSize cp))
    ++ uvarintBytes 9 (u64 (ValueNum cp)) in
  len bytes = encodedLen cp
  /\ (encodedLen cp <= maxLen ->
      Encode cp = Ok bytes
      /\ EncodeFixedSize cp
         = Ok (bytes ++ repeat 0 (Z.to_nat (maxLen - encodedLen cp)))
      /\ DecodeChunkPosition bytes = Ok (Some cp)
      /\ DecodeChunkPosition
           (bytes ++ repeat 0 (Z.to_nat (maxLen - encodedLen cp)))
         = Ok (Some cp))
  /\ (maxLen < encodedLen cp ->
      Encode cp = Panic /\ EncodeFixedSize cp = Panic).
Proof.
  intros (H1 & H2 & H3 & H4 & H5). cbv zeta.
  unfold encodedLen, uvarintLen.
  set (b1 := uvarintBytes 9 (u64 (SegmentId cp))).
  set (b2 := uvarintBytes 9 (u64 (BlockNumber cp))).
  set (b3 := uvarintBytes 9 (u64 (ChunkOffset cp))).
  set (b4 := uvarintBytes 9 (u64 (ChunkSize cp))).
  set (b5 := uvarintBytes 9 (u64 (ValueNum cp))).
  assert (H35 : forall x, 0 <= x < 2 ^ 32 -> 0 <= u64 x < 2 ^ (7 * 5)).
  { intros x Hx. unfold u64. change (2 ^ 64) with 18446744073709551616.
    change (2 ^ (7 * 5)) with 34359738368. change (2 ^ 32) with 4294967296 in Hx.
    lia. }
  pose proof (uvarintBytes_len_bound 9 _ 5 ltac:(lia) (H35 _ H1)) as R1.
  pose proof (uvarintBytes_len_bound 9 _ 5 ltac:(lia) (H35 _ H2)) as R2.
  pose proof (uvarintLen_range (u64 (ChunkOffset cp))) as R3.
  pose proof (uvarintBytes_len_bound 9 _ 5 ltac:(lia) (H35 _ H4)) as R4.
  pose proof (uvarintLen_range (u64 (ValueNum cp))) as R5.
  unfold uvarintLen in R3, R5.
  fold b1 in R1. fold b2 in R2. fold b3 in R3. fold b4 in R4. fold b5 in R5.
  split; [rewrite !len_app; lia|].
  assert (Hst : forall shrink, encode cp shrink =
    match
      putField (putField (putField (putField (putField
        (Ok ([] ++ repeat 0 25, len (@nil Z))) (u64 (SegmentId cp)))
        (u64 (BlockNumber cp))) (u64 (ChunkOffset cp))) (u64 (ChunkSize cp)))
        (u64 (ValueNum cp))
    with
    | Ok (buf, index) =>
        if shrink then Ok (take (Z.to_nat index) buf) else Ok buf
    | Err e => Err e
    | Panic => Panic
    | NoFuel => NoFuel
    end) by reflexivity.
  unfold Encode, EncodeFixedSize. rewrite !Hst. clear Hst.
  unfold maxLen, MaxVarintLen32, MaxVarintLen64.
  change (5 * 3 + 10) with 25.
  rewrite putField_zeros. unfold uvarintLen. fold b1.
  destruct (len b1 <=? Z.of_nat 25) eqn:E1; [|lia].
  rewrite putField_zeros. unfold uvarintLen. fold b2.
  destruct (len b2 <=? _) eqn:E2; [|unfold len in *; lia].
  rewrite putField_zeros. unfold uvarintLen. fold b3.
  destruct (len b3 <=? _) eqn:E3; [|unfold len in *; lia].
  rewrite putField_zeros. unfold uvarintLen. fold b4.
  destruct (len b4 <=? _) eqn:E4; [|unfold len in *; lia].
  rewrite putField_zeros. unfold uvarintLen. fold b5.
  destruct (len b5 <=? _) eqn:E5.
  2:{ split; [unfold len in *; lia|]. intros _. split; reflexivity. }
  split; [|intros; unfold len in *; lia].
  intros Hfit.
  assert (Hbytes : (((([] ++ b1) ++ b2) ++ b3) ++ b4) ++ b5
                   = b1 ++ b2 ++ b3 ++ b4 ++ b5).
  { cbn [app]. rewrite <- !app_assoc. reflexivity. }
  rewrite Hbytes.
  set (bytes := b1 ++ b2 ++ b3 ++ b4 ++ b5).
  assert (Hn : (25 - length b1 - length b2 - length b3 - length b4 - length b5)%nat
               = Z.to_nat (25 - (len b1 + len b2 + len b3 + len b4 + len b5)))
    by (unfold len in *; lia).
  rewrite Hn.
  set (zs := repeat 0 (Z.to_nat (25 - (len b1 + len b2 + len b3 + len b4 + len b5)))).
  assert (Z.to_nat (len bytes) = length bytes) as -> by (unfold len; lia).
  rewrite take_app_length.
  split; [reflexivity|]. split; [reflexivity|].
  assert (Hdec : forall tail,
            DecodeChunkPosition (bytes ++ tail) = Ok (Some cp)).
  { intros tail. unfold DecodeChunkPosition.
    assert ((len (bytes ++ tail) =? 0) = false) as ->.
    { rewrite len_app. pose proof (len_nonneg tail).
      subst bytes. rewrite !len_app. lia. }
    subst bytes. rewrite <- !app_assoc.
    pose proof (getField_app [] (u64 (SegmentId cp))
                  (b2 ++ b3 ++ b4 ++ b5 ++ tail) (u64_range _)) as G1.
    cbn [app] in G1. change (len []) with 0 in G1. fold b1 in G1.
    rewrite G1.
    pose proof (getField_app b1 (u64 (BlockNumber cp))
                  (b3 ++ b4 ++ b5 ++ tail) (u64_range _)) as G2.
    fold b2 in G2. rewrite G2.
    pose proof (getField_app (b1 ++ b2) (u64 (ChunkOffset cp))
                  (b4 ++ b5 ++ tail) (u64_range _)) as G3.
    fold b3 in G3. rewrite <- !app_assoc in G3. rewrite G3.
    pose proof (getField_app (b1 ++ b2 ++ b3) (u64 (ChunkSize cp))
                  (b5 ++ tail) (u64_range _)) as G4.
    fold b4 in G4. rewrite <- !app_assoc in G4. rewrite G4.
    pose proof (getField_app (b1 ++ b2 ++ b3 ++ b4) (u64 (ValueNum cp))
                  tail (u64_range _)) as G5.
    fold b5 in G5. rewrite <- !app_assoc in G5. rewrite G5.
    rewrite !u32_u64, !i64_u64 by assumption.
    destruct cp; reflexivity. }
  split; [|apply Hdec].
  specialize (Hdec []). rewrite app_nil_r in Hdec. exact Hdec.
Qed.

(** X2.  A position whose five varints fit the 25 bytes of the buffer is
    encoded without failure, by [Encode] in exactly the bytes the varints
    take and by [EncodeFixedSize] in the same bytes followed by zeros, and
    [DecodeChunkPosition] gives the position back from either. *)
Theorem Encode_Decode_roundtrip cp :
  posInRange cp -> encodedLen cp <= maxLen ->
  exists bytes,
    Encode cp = Ok bytes
    /\ len bytes = encodedLen cp
    /\ EncodeFixedSize cp
       = Ok (bytes ++ repeat 0 (Z.to_nat (maxLen - encodedLen cp)))
    /\ DecodeChunkPosition bytes = Ok (Some cp)
    /\ DecodeChunkPosition
         (bytes ++ repeat 0 (Z.to_nat (maxLen - encodedLen cp)))
       = Ok (Some cp).
Proof.
  intros Hr Hfit.
  destruct (encode_spec cp Hr) as (Hlen & Hok & _).
  destruct (Hok Hfit) as (He & Hf & Hd & Hdf).
  eexists. split; [exact He|]. split; [exact Hlen|].
  split; [exact Hf|]. split; [exact Hd|exact Hdf].
Qed.

Lemma Encode_Decode_roundtrip_witness :
  exists bytes,
    Encode (mkPos 1 2 300 40014 5) = Ok bytes
    /\ len bytes = encodedLen (mkPos 1 2 300 40014 5)
    /\ EncodeFixedSize (mkPos 1 2 300 40014 5)
       = Ok (bytes ++ repeat 0 (Z.to_nat (maxLen - encodedLen (mkPos 1 2 300 40014 5))))
    /\ DecodeChunkPosition bytes = Ok (Some (mkPos 1 2 300 40014 5))
    /\ DecodeChunkPosition
         (bytes ++ repeat 0 (Z.to_nat (maxLen - encodedLen (mkPos 1 2 300 40014 5))))
       = Ok (Some (mkPos 1 2 300 40014 5)).
Proof.
  apply (Encode_Decode_roundtrip (mkPos 1 2 300 40014 5)).
  - unfold posInRange. cbn. lia.
  - vm_compute. discriminate.
Defined.

(** X3.  [Encode] and [EncodeFixedSize] panic exactly for the positions whose
    five varints take more than the 25 bytes of the buffer. *)
Theorem Encode_panics_iff cp :
  posInRange cp ->
  (Encode cp = Panic <-> maxLen < encodedLen cp)
  /\ (EncodeFixedSize cp = Panic <-> maxLen < encodedLen cp).
Proof.
  intros Hr. destruct (encode_spec cp Hr) as (_ & Hok & Hbad).
  destruct (Z_lt_le_dec maxLen (encodedLen cp)) as [Hlt|Hle].
  - destruct (Hbad Hlt) as [-> ->]. split; split; auto.
  - destruct (Hok Hle) as (-> & -> & _).
    split; split; first [discriminate | lia].
Qed.

Lemma Encode_panics_iff_witness :
  (Encode maxPosition = Panic <-> maxLen < encodedLen maxPosition)
  /\ (EncodeFixedSize maxPosition = Panic <-> maxLen < encodedLen maxPosition).
Proof.
  apply (Encode_panics_iff maxPosition).
  unfold posInRange. cbn. lia.
Defined.

(** ** Log records *)

Lemma zigzag_nonneg x : 0 <= x < 2 ^ 63 -> zigzag x = 2 * x.
Proof.
  intros Hx. unfold zigzag. destruct (x <? 0) eqn:E; [lia|].
  unfold u64. change (2 ^ 63) with 9223372036854775808 in Hx.
  change (2 ^ 64) with 18446744073709551616.
  rewrite (Z.mod_small x) by lia.
  rewrite Z.shiftl_mul_pow2 by lia. change (2 ^ 1) with 2.
  rewrite Z.mod_small by lia. lia.
Qed.

(** [binary.Varint] reads back what [binary.PutVarint] stored for a
    number that is not negative. *)
Lemma Varint_zigzag x rest :
  0 <= x < 2 ^ 63 ->
  Varint (uvarintBytes 9 (zigzag x) ++ rest) = (x, uvarintLen (zigzag x)).
Proof.
  intros Hx. unfold Varint, uvarintLen.
  rewrite zigzag_nonneg by exact Hx.
  change (2 ^ 63) with 9223372036854775808 in Hx.
  rewrite Uvarint_uvarintBytes
    by (change (2 ^ 64) with 18446744073709551616; lia).
  rewrite Z.shiftr_div_pow2 by lia. change (2 ^ 1) with 2.
  assert (2 * x / 2 = x) as -> by lia.
  rewrite i64_small by (change (2 ^ 63) with 9223372036854775808; lia).
  assert (Z.land (2 * x) 1 = 0) as ->.
  { change 1 with (Z.ones 1). rewrite Z.land_ones by lia.
    change (2 ^ 1) with 2. lia. }
  reflexivity.
Qed.

Lemma putVarField_putField st x : putVarField st x = putField st (zigzag x).
Proof. reflexivity. Qed.

Lemma copyTo_zeros pre (k : nat) hi src :
  len src <= Z.of_nat k -> len pre + len src <= hi ->
  copyTo (pre ++ repeat 0 k) (len pre) hi src
  = (pre ++ src) ++ repeat 0 (k - length src).
Proof.
  intros Hk Hhi. unfold copyTo.
  assert (Z.min (hi - len pre) (len src) = len src) as -> by lia.
  assert (Z.to_nat (len pre) = length pre) as -> by (unfold len; lia).
  assert (Z.to_nat (len src) = length src) as -> by (unfold len; lia).
  assert (Z.to_nat (len pre + len src) = (length pre + length src)%nat) as ->
    by (unfold len; lia).
  rewrite take_app_length, firstn_all.
  rewrite <- drop_drop, drop_app_length, drop_repeat, <- app_assoc.
  reflexivity.
Qed.

Lemma makeCopy_mid pre mid post :
  len (pre ++ mid ++ post) < 2 ^ 32 ->
  makeCopy (pre ++ mid ++ post) (len mid) (len pre)
           (u32 (len pre + u32 (len mid))) = Ok mid.
Proof.
  intros Hlen. rewrite !len_app in Hlen.
  pose proof (len_nonneg pre). pose proof (len_nonneg mid).
  pose proof (len_nonneg post).
  change (2 ^ 32) with 4294967296 in Hlen.
  assert (Hu : u32 (len pre + u32 (len mid)) = len pre + len mid).
  { unfold u32. change (2 ^ 32) with 4294967296. lia. }
  rewrite Hu. unfold makeCopy.
  destruct (len mid <? 0) eqn:E; [lia|].
  rewrite slice_ok_true by (rewrite ?len_app; lia).
  rewrite (slice_app_mid pre mid post) by lia.
  pose proof (copyTo_zeros [] (length mid) (len mid) mid) as Hc.
  cbn [app] in Hc. change (len []) with 0 in Hc.
  assert (Z.to_nat (len mid) = length mid) as -> by (unfold len; lia).
  rewrite Hc by (unfold len; lia).
  rewrite Nat.sub_diag. cbn [repeat]. rewrite app_nil_r. reflexivity.
Qed.

(** What [encodeLogRecord] produces: the type byte, the three varints,
    the key and the value. *)
Lemma encodeLogRecord_bytes r :
  0 <= BatchID r < 2 ^ 64 ->
  len (Key r) < 2 ^ 34 -> len (Value r) < 2 ^ 34 ->
  encodeLogRecord r
  = Ok (([Type_ r] ++ uvarintBytes 9 (BatchID r)
         ++ uvarintBytes 9 (zigzag (len (Key r)))
         ++ uvarintBytes 9 (zigzag (len (Value r))))
        ++ Key r ++ Value r).
Proof.
  intros Hb Hk Hv.
  pose proof (len_nonneg (Key r)) as Hk0.
  pose proof (len_nonneg (Value r)) as Hv0.
  set (b1 := uvarintBytes 9 (BatchID r)).
  set (b2 := uvarintBytes 9 (zigzag (len (Key r)))).
  set (b3 := uvarintBytes 9 (zigzag (len (Value r)))).
  pose proof (uvarintLen_range (BatchID r)) as R1. unfold uvarintLen in R1.
  fold b1 in R1.
  assert (Hz : forall x, 0 <= x < 2 ^ 34 -> 0 <= zigzag x < 2 ^ (7 * 5)).
  { intros x Hx. change (2 ^ 34) with 17179869184 in Hx.
    rewrite zigzag_nonneg by (change (2 ^ 63) with 9223372036854775808; lia).
    change (2 ^ (7 * 5)) with 34359738368. lia. }
  pose proof (uvarintBytes_len_bound 9 _ 5 ltac:(lia) (Hz _ (conj Hk0 Hk))) as R2.
  pose proof (uvarintBytes_len_bound 9 _ 5 ltac:(lia) (Hz _ (conj Hv0 Hv))) as R3.
  fold b2 in R2. fold b3 in R3.
  unfold encodeLogRecord. rewrite !putVarField_putField.
  assert (Hh : <[0%nat := Type_ r]> (repeat 0 (Z.to_nat maxLogRecordHeaderSize))
               = [Type_ r] ++ repeat 0 20) by reflexivity.
  rewrite Hh. change 1 with (len [Type_ r]) at 1.
  rewrite putField_zeros. unfold uvarintLen. fold b1.
  destruct (len b1 <=? _) eqn:E1; [|lia].
  rewrite putField_zeros. unfold uvarintLen. fold b2.
  destruct (len b2 <=? _) eqn:E2; [|unfold len in *; lia].
  rewrite putField_zeros. unfold uvarintLen. fold b3.
  destruct (len b3 <=? _) eqn:E3; [|unfold len in *; lia].
  set (hdr := (([Type_ r] ++ b1) ++ b2) ++ b3).
  set (k := (20 - length b1 - length b2 - length b3)%nat).
  assert (Hhdr : [Type_ r] ++ b1 ++ b2 ++ b3 = hdr)
    by (subst hdr; rewrite <- !app_assoc; reflexivity).
  rewrite Hhdr. f_equal.
  assert (Hs : slice (hdr ++ repeat 0 k) 0 (len hdr) = hdr).
  { rewrite slice_app_l by lia. apply slice_full. }
  rewrite Hs.
  set (size := len hdr + len (Key r) + len (Value r)).
  assert (Hsz : Z.to_nat size
                = (length hdr + length (Key r) + length (Value r))%nat)
    by (subst size; unfold len; lia).
  rewrite Hsz.
  pose proof (copyTo_zeros [] (length hdr + length (Key r) + length (Value r))
                (len hdr) hdr) as C1.
  cbn [app] in C1. change (len []) with 0 in C1.
  rewrite C1 by (unfold len; lia).
  assert (Hn1 : (length hdr + length (Key r) + length (Value r) - length hdr)%nat
                = (length (Key r) + length (Value r))%nat) by lia.
  rewrite Hn1.
  rewrite copyTo_zeros by (subst size; unfold len; lia).
  assert (Hn2 : (length (Key r) + length (Value r) - length (Key r))%nat
                = length (Value r)) by lia.
  rewrite Hn2.
  rewrite <- len_app.
  rewrite copyTo_zeros by (subst size; rewrite ?len_app; unfold len; lia).
  rewrite Nat.sub_diag. cbn [repeat]. rewrite app_nil_r, <- app_assoc.
  reflexivity.
Qed.

(** X4.  A log record comes back from its encoding: every batch id, and keys
    and values that together with the header stay below 4 GiB, the range
    of the [uint32] index of [decodeLogRecord]. *)
Theorem LogRecord_roundtrip r :
  0 <= BatchID r < 2 ^ 64 ->
  maxLogRecordHeaderSize + len (Key r) + len (Value r) < 2 ^ 32 ->
  exists bytes,
    encodeLogRecord r = Ok bytes
    /\ len bytes <= maxLogRecordHeaderSize + len (Key r) + len (Value r)
    /\ decodeLogRecord bytes = Ok r.
Proof.
  intros Hb Hsize.
  pose proof (len_nonneg (Key r)) as Hk0.
  pose proof (len_nonneg (Value r)) as Hv0.
  unfold maxLogRecordHeaderSize, MaxVarintLen32, MaxVarintLen64 in *.
  change (2 ^ 32) with 4294967296 in Hsize.
  assert (Hk : len (Key r) < 2 ^ 34) by (change (2 ^ 34) with 17179869184; lia).
  assert (Hv : len (Value r) < 2 ^ 34) by (change (2 ^ 34) with 17179869184; lia).
  rewrite encodeLogRecord_bytes by assumption.
  eexists. split; [reflexivity|].
  set (b1 := uvarintBytes 9 (BatchID r)).
  set (b2 := uvarintBytes 9 (zigzag (len (Key r)))).
  set (b3 := uvarintBytes 9 (zigzag (len (Value r)))).
  pose proof (uvarintLen_range (BatchID r)) as R1. unfold uvarintLen in R1.
  fold b1 in R1.
  assert (Hz : forall x, 0 <= x < 2 ^ 34 -> 0 <= zigzag x < 2 ^ (7 * 5)).
  { intros x Hx. change (2 ^ 34) with 17179869184 in Hx.
    rewrite zigzag_nonneg by (change (2 ^ 63) with 9223372036854775808; lia).
    change (2 ^ (7 * 5)) with 34359738368. lia. }
  pose proof (uvarintBytes_len_bound 9 _ 5 ltac:(lia) (Hz _ (conj Hk0 Hk))) as R2.
  pose proof (uvarintBytes_len_bound 9 _ 5 ltac:(lia) (Hz _ (conj Hv0 Hv))) as R3.
  fold b2 in R2. fold b3 in R3.
  split.
  { rewrite !len_app, len_cons. change (len []) with 0. lia. }
  assert (H63 : forall x, 0 <= x < 2 ^ 34 -> 0 <= x < 2 ^ 63).
  { intros x. change (2 ^ 34) with 17179869184.
    change (2 ^ 63) with 9223372036854775808. lia. }
  unfold decodeLogRecord. cbn [app]. cbv zeta.
  change (Z.to_nat 1) with 1%nat. cbn [drop]. rewrite drop_0.
  rewrite <- !app_assoc.
  subst b1. rewrite Uvarint_uvarintBytes by exact Hb.
  set (b1 := uvarintBytes 9 (BatchID r)) in *.
  set (buf := Type_ r :: b1 ++ b2 ++ b3 ++ Key r ++ Value r).
  assert (Hbuf : len buf = 1 + len b1 + len b2 + len b3 + len (Key r) + len (Value r)).
  { subst buf. rewrite len_cons, !len_app. lia. }
  assert (Hu1 : u32 (1 + u32 (len b1)) = 1 + len b1).
  { unfold u32. change (2 ^ 32) with 4294967296. lia. }
  rewrite Hu1.
  destruct (1 + len b1 <=? len buf) eqn:E1; [|lia]. cbn [negb].
  assert (Hd1 : drop (Z.to_nat (1 + len b1)) buf
                = b2 ++ b3 ++ Key r ++ Value r).
  { subst buf.
    assert (Z.to_nat (1 + len b1) = S (length b1)) as -> by (unfold len; lia).
    cbn [drop]. apply drop_app_length. }
  rewrite Hd1. subst b2.
  rewrite Varint_zigzag by (apply H63; lia).
  unfold uvarintLen. set (b2 := uvarintBytes 9 (zigzag (len (Key r)))) in *.
  assert (Hu2 : u32 (1 + len b1 + u32 (len b2)) = 1 + len b1 + len b2).
  { unfold u32. change (2 ^ 32) with 4294967296. lia. }
  rewrite Hu2.
  destruct (1 + len b1 + len b2 <=? len buf) eqn:E2; [|lia]. cbn [negb].
  assert (Hd2 : drop (Z.to_nat (1 + len b1 + len b2)) buf
                = b3 ++ Key r ++ Value r).
  { subst buf.
    assert (Z.to_nat (1 + len b1 + len b2) = S (length b1 + length b2)) as ->
      by (unfold len; lia).
    cbn [drop]. rewrite app_assoc, <- length_app. apply drop_app_length. }
  rewrite Hd2. subst b3.
  rewrite Varint_zigzag by (apply H63; lia).
  unfold uvarintLen. set (b3 := uvarintBytes 9 (zigzag (len (Value r)))) in *.
  assert (Hu3 : u32 (1 + len b1 + len b2 + u32 (len b3))
                = len (Type_ r :: b1 ++ b2 ++ b3)).
  { unfold u32. change (2 ^ 32) with 4294967296.
    rewrite len_cons, !len_app. lia. }
  rewrite Hu3.
  assert (Hbuf1 : buf = (Type_ r :: b1 ++ b2 ++ b3) ++ Key r ++ Value r).
  { subst buf. cbn [app]. rewrite <- !app_assoc. reflexivity. }
  rewrite Hbuf1.
  rewrite makeCopy_mid.
  2:{ rewrite <- Hbuf1, Hbuf. change (2 ^ 32) with 4294967296. lia. }
  assert (Hu4 : u32 (len (Type_ r :: b1 ++ b2 ++ b3) + u32 (len (Key r)))
                = len ((Type_ r :: b1 ++ b2 ++ b3) ++ Key r)).
  { unfold u32. change (2 ^ 32) with 4294967296.
    rewrite len_app, len_cons, !len_app. lia. }
  rewrite Hu4.
  assert (Hbuf2 : (Type_ r :: b1 ++ b2 ++ b3) ++ Key r ++ Value r
                  = ((Type_ r :: b1 ++ b2 ++ b3) ++ Key r) ++ Value r ++ [])
    by (rewrite app_nil_r, <- app_assoc; reflexivity).
  rewrite Hbuf2.
  rewrite makeCopy_mid.
  2:{ rewrite <- Hbuf2, <- Hbuf1, Hbuf. change (2 ^ 32) with 4294967296. lia. }
  destruct r; reflexivity.
Qed.

Lemma LogRecord_roundtrip_witness :
  exists bytes,
    encodeLogRecord (mkLogRecord [107; 49] [118; 97; 108] LogRecordNormal 300)
      = Ok bytes
    /\ len bytes <= maxLogRecordHeaderSize + len [107; 49] + len [118; 97; 108]
    /\ decodeLogRecord bytes
       = Ok (mkLogRecord [107; 49] [118; 97; 108] LogRecordNormal 300).
Proof.
  apply (LogRecord_roundtrip
           (mkLogRecord [107; 49] [118; 97; 108] LogRecordNormal 300)).
  - cbn. lia.
  - vm_compute. reflexivity.
Defined.

(** ** The state a write leaves behind *)

Lemma Write_cases w data nonce w' pos :
  Write w data nonce = (w', Ok pos) ->
  i64 (len data + chunkHeaderSize) <= SegmentSize (options w)
  /\ exists w1,
    ((isFull w (len data) = false /\ w1 = w)
     \/ (isFull w (len data) = true /\ rotateActiveSegment w = (w1, None)))
    /\ writeRecord w1 data nonce = (w', Ok pos).
Proof.
  unfold Write. intros H.
  destruct (_ >? _) eqn:E; [discriminate|]. split; [lia|].
  destruct (isFull w (len data)) eqn:Hfull.
  - destruct (rotateActiveSegment w) as [w1 [e|]] eqn:Hrot; [discriminate|].
    exists w1. split; [right; split; reflexivity|exact H].
  - exists w. split; [left; split; reflexivity|exact H].
Qed.

(** A successful [writeRecord], spelled out: where the record went, what
    the segment file and the nonce file hold afterwards. *)
Lemma writeRecord_state w data nonce w' pos :
  segOk (activeSegment w) -> len data < 2 ^ 31 ->
  writeRecord w data nonce = (w', Ok pos) ->
  let seg := activeSegment w in
  let B1 := fst (nextStart (currentBlockNumber seg) (currentBlockSize seg)) in
  let c1 := snd (nextStart (currentBlockNumber seg) (currentBlockSize seg)) in
  exists log f fn vn cn,
    chain true c1 log data
    /\ pos = mkPos (id seg) B1 c1 (chunkHeaderSize * len log + len data) vn
    /\ activeSegment w'
       = mkSegment (id seg) f
           (B1 + (c1 + (chunkHeaderSize * len log + len data)) / blockSize)
           ((c1 + (chunkHeaderSize * len log + len data)) mod blockSize)
           false (mkStartupBlock (sbBlock (startup seg)) (-1))
           (isStartupTraversal seg)
    /\ fbytes f = fbytes (fd seg)
                  ++ repeat 0 (Z.to_nat (B1 * blockSize + c1 - Size seg))
                  ++ concat (map chunkBytes log)
    /\ 0 <= B1 * blockSize + c1 - Size seg <= chunkHeaderSize
    /\ nonceFile_ w' = mkNonceFile fn cn (nclosed (nonceFile_ w))
    /\ ((len nonce = 0 /\ fbytes fn = fbytes (nfd (nonceFile_ w))
         /\ cn = curNum (nonceFile_ w) /\ vn = 0)
        \/ (len nonce <> 0 /\ fbytes fn = fbytes (nfd (nonceFile_ w)) ++ nonce
            /\ cn = i64 (curNum (nonceFile_ w) + 1)
            /\ vn = curNum (nonceFile_ w)))
    /\ olderSegments w' = olderSegments w
    /\ dataDir w' = dataDir w /\ options w' = options w.
Proof.
  intros Hok HD Hw. cbv zeta.
  destruct (writeRecord_inv _ _ _ _ _ Hw)
    as (seg' & fr & nf' & f & fn & Hsw & Hnw & Hact & Hf & Hnf & Hfn & Hold & Hdir & Hopt).
  pose proof (segWrite_inv _ _ _ _ Hok HD Hsw) as Hinv. cbv zeta in Hinv.
  destruct Hinv as (log & Hch & -> & ->).
  destruct Hok as (Hbn & Hcbs & Hlen & Hsb).
  set (seg := activeSegment w) in *.
  set (B1 := fst (nextStart (currentBlockNumber seg) (currentBlockSize seg))).
  set (c1 := snd (nextStart (currentBlockNumber seg) (currentBlockSize seg))).
  assert (HB1 : B1 = if currentBlockSize seg + chunkHeaderSize >=? blockSize
                     then currentBlockNumber seg + 1 else currentBlockNumber seg).
  { subst B1. unfold nextStart. destruct (_ >=? _); reflexivity. }
  assert (Hc1 : c1 = if currentBlockSize seg + chunkHeaderSize >=? blockSize
                     then 0 else currentBlockSize seg).
  { subst c1. unfold nextStart. destruct (_ >=? _); reflexivity. }
  assert (Hpad : B1 * blockSize + c1 - Size seg
                 = if currentBlockSize seg + chunkHeaderSize >=? blockSize
                   then blockSize - currentBlockSize seg else 0).
  { rewrite HB1, Hc1. unfold Size. destruct (_ >=? _); lia. }
  rewrite <- HB1, <- Hc1, <- Hpad in *.
  cbn [frPos fd fbytes setFd] in *.
  exists log, f, fn.
  assert (Hpadr : 0 <= B1 * blockSize + c1 - Size seg <= chunkHeaderSize).
  { rewrite Hpad. unfold chunkHeaderSize, blockSize, KB in *.
    destruct (_ >=? _) eqn:E; lia. }
  apply nonceWrite_inv in Hnw as [(Hz & Hnfe & Hpe)|(Hz & Hnfe & Hpe)].
  - exists 0, (curNum (nonceFile_ w)). subst nf' pos.
    split; [exact Hch|]. split; [reflexivity|].
    split; [rewrite Hact; reflexivity|]. split; [exact Hf|].
    split; [exact Hpadr|].
    split; [exact Hnf|]. split; [left; repeat split; assumption|].
    repeat split; assumption.
  - exists (curNum (nonceFile_ w)), (i64 (curNum (nonceFile_ w) + 1)).
    subst nf' pos.
    split; [exact Hch|]. split; [reflexivity|].
    split; [rewrite Hact; reflexivity|]. split; [exact Hf|].
    split; [exact Hpadr|].
    split; [exact Hnf|]. split; [right; repeat split; assumption|].
    repeat split; assumption.
Qed.

Lemma walInv_segOk n w : 0 <= n -> walInv n w -> segOk (activeSegment w).
Proof.
  intros Hn (Hbn & Hcbs & Hlen & Hsz & Hsb & _).
  unfold segOk. split; [|split; [exact Hcbs|split; [exact Hlen|exact Hsb]]].
  unfold Size, blockSize, KB in *.
  change (2 ^ 45) with 35184372088832 in Hsz.
  change (2 ^ 32) with 4294967296 in Hsz.
  change (2 ^ 31) with 2147483648. lia.
Qed.

Lemma walInv_walOk n w : 0 <= n -> walInv n w -> walOk w.
Proof.
  intros Hn H. pose proof (walInv_segOk n w Hn H) as Hok.
  destruct H as (_ & _ & _ & _ & _ & _ & Hdir & Hnl & Hc0 & Hc & _).
  split; [exact Hok|]. split.
  - intros i f Hf. specialize (Hdir i f Hf).
    change (2 ^ 45) with 35184372088832 in Hdir.
    change (2 ^ 46) with 70368744177664. lia.
  - split; [exact Hnl|lia].
Qed.

(** The bytes a record of less than 2 GiB takes stay below 4 GiB. *)
Lemma chain_tot_bound log first c data :
  chain first c log data -> len data < 2 ^ 31 ->
  1 <= len log /\ chunkHeaderSize * len log + len data < 2 ^ 31 + 2 ^ 19.
Proof.
  intros Hch HD. pose proof (chain_count _ _ _ _ Hch) as Hc.
  pose proof (chain_nonempty _ _ _ _ Hch) as Hne.
  pose proof (len_nonneg data).
  assert (1 <= len log) by (destruct log; [congruence|rewrite len_cons; pose proof (len_nonneg log); lia]).
  split; [assumption|].
  unfold chunkHeaderSize, blockSize, KB in *.
  change (2 ^ 31) with 2147483648 in *. change (2 ^ 19) with 524288. lia.
Qed.

Lemma i64_id x : 0 <= x < 2 ^ 63 -> i64 x = x.
Proof. intros. apply i64_small. lia. Qed.

(** The invariant after a rotation: the new active segment is what the
    directory held under the next id, below 32 TiB. *)
Lemma rotate_walInv n w w1 :
  0 <= n -> walInv (n + 1) w ->
  rotateActiveSegment w = (w1, None) ->
  walInv n w1
  /\ curNum (nonceFile_ w1) = curNum (nonceFile_ w)
  /\ id (activeSegment w1) = id (activeSegment w) + 1
  /\ Size (activeSegment w1) < 2 ^ 45
  /\ closed (activeSegment w1) = false
  /\ sbBlockNumber (startup (activeSegment w1)) = -1.
Proof.
  intros Hn Hinv Hrot.
  destruct (rotate_inv _ _ Hrot)
    as (segS & nfS & Hss & Hns & Hact & Hold & Hnf & _ & Hopt & Hdir & _).
  destruct Hinv as (Hbn & Hcbs & Hlen & Hsz & Hsb & Hss45 & Hd & Hnl & Hc0 & Hc & Hi0 & Hi).
  apply nonceSync_inv in Hns as (fn & -> & Hfn & _ & _).
  assert (Hid : u32 (id (activeSegment w) + 1) = id (activeSegment w) + 1).
  { unfold u32. change (2 ^ 32) with 4294967296 in *. lia. }
  rewrite Hid in *.
  set (ex := dirFiles (dataDir w) !! (id (activeSegment w) + 1)) in *.
  set (f := match ex with Some f => f | None => emptyFile end).
  assert (Hf : 0 <= len (fbytes f) < 2 ^ 45).
  { split; [apply len_nonneg|]. subst f. destruct ex as [f0|] eqn:E.
    - apply (Hd _ _ E).
    - reflexivity. }
  change (2 ^ 45) with 35184372088832 in *.
  change (2 ^ 32) with 4294967296 in *.
  assert (Hbnv : u32 (len (fbytes f) / blockSize) = len (fbytes f) / blockSize).
  { unfold u32, blockSize, KB. change (2 ^ 32) with 4294967296. lia. }
  assert (Hcbv : u32 (len (fbytes f) mod blockSize) = len (fbytes f) mod blockSize).
  { unfold u32, blockSize, KB. change (2 ^ 32) with 4294967296. lia. }
  assert (Hsize : Size (activeSegment w1) = len (fbytes f)).
  { rewrite Hact. unfold openSegmentFile, Size, fileSeekEnd.
    cbn [currentBlockNumber currentBlockSize]. fold f.
    rewrite Hbnv, Hcbv. unfold blockSize, KB. lia. }
  split; [|split; [rewrite Hnf; reflexivity|
              split; [rewrite Hact; reflexivity|
              split; [lia|split; rewrite Hact; reflexivity]]]].
  unfold walInv. rewrite Hsize. rewrite Hact.
  unfold openSegmentFile, fileSeekEnd.
  cbn [currentBlockNumber currentBlockSize fd startup sbBlock id].
  fold f. rewrite Hbnv, Hcbv, Hopt, Hdir, Hnf. cbn [nfd curNum dirFiles].
  rewrite len_repeat, Hfn.
  split; [unfold blockSize, KB; lia|].
  split; [unfold blockSize, KB; lia|].
  split; [reflexivity|]. split; [lia|].
  split; [unfold blockSize, KB; lia|].
  split; [exact Hss45|].
  split.
  { intros i f0 Hl. apply lookup_delete_Some in Hl as [_ Hl]. apply (Hd _ _ Hl). }
  split; [exact Hnl|]. split; [exact Hc0|]. split; [lia|]. lia.
Qed.

Lemma walInv_mono n m w : m <= n -> walInv n w -> walInv m w.
Proof.
  intros Hm (H1 & H2 & H3 & H4 & H5 & H6 & H7 & H8 & H9 & H10 & H11 & H12).
  repeat (split; [assumption|]). split; [lia|]. split; [assumption|lia].
Qed.

Lemma writeRecord_walInv n w data nonce w' pos :
  0 <= n -> walInv n w ->
  curNum (nonceFile_ w) + n + 1 < 2 ^ 59 ->
  Size (activeSegment w) < 2 ^ 45 ->
  len data < 2 ^ 31 ->
  len nonce = nonceSize \/ len nonce = 0 ->
  writeRecord w data nonce = (w', Ok pos) ->
  walInv n w'.
Proof.
  intros Hn Hinv Hcur Hsz HD Hnonce Hw.
  pose proof (walInv_segOk n w Hn Hinv) as Hok.
  pose proof (writeRecord_state _ _ _ _ _ Hok HD Hw) as Hst. cbv zeta in Hst.
  destruct Hst as (log & f & fn & vn & cn & Hch & _ & Hact & Hf & Hpad & Hnf & Hnc
                   & _ & Hdir & Hopt).
  destruct Hinv as (Hbn & Hcbs & Hlen & _ & Hsb & Hss45 & Hd & Hnl & Hc0 & Hc & Hi0 & Hi).
  destruct (chain_tot_bound _ _ _ _ Hch HD) as [Hl1 Htot].
  pose proof (len_nonneg data) as HD0.
  set (seg := activeSegment w) in *.
  set (B1 := fst (nextStart (currentBlockNumber seg) (currentBlockSize seg))) in *.
  set (c1 := snd (nextStart (currentBlockNumber seg) (currentBlockSize seg))) in *.
  set (tot := chunkHeaderSize * len log + len data) in *.
  assert (HB1c1 : 0 <= B1 /\ 0 <= c1 < blockSize).
  { subst B1 c1. unfold nextStart. destruct (_ >=? _); cbn [fst snd];
      unfold blockSize, KB in *; lia. }
  unfold walInv. rewrite Hact, Hnf, Hdir, Hopt.
  cbn [currentBlockNumber currentBlockSize fd startup sbBlock id nfd curNum].
  unfold Size at 1 2. cbn [currentBlockNumber currentBlockSize].
  rewrite Hf, !len_app, len_repeat, (chain_len _ _ _ _ Hch). fold tot.
  change (2 ^ 45) with 35184372088832 in *.
  change (2 ^ 32) with 4294967296 in *.
  change (2 ^ 31) with 2147483648 in *. change (2 ^ 19) with 524288 in *.
  change (2 ^ 59) with 576460752303423488 in *.
  unfold chunkHeaderSize, blockSize, KB in *.
  split; [lia|]. split; [lia|]. split; [lia|]. split; [lia|].
  split; [exact Hsb|]. split; [exact Hss45|]. split; [exact Hd|].
  destruct Hnc as [(Hz & -> & -> & _)|(Hz & -> & -> & _)].
  - split; [exact Hnl|]. split; [exact Hc0|]. split; [lia|]. split; [exact Hi0|exact Hi].
  - destruct Hnonce as [Hn12|Hn0]; [|lia].
    rewrite i64_id by (change (2 ^ 63) with 9223372036854775808; lia).
    rewrite len_app, Hn12, Hnl. unfold nonceSize.
    split; [lia|]. split; [lia|]. split; [lia|]. split; [exact Hi0|exact Hi].
Qed.

Lemma notFull_size w L :
  0 <= L < 2 ^ 31 ->
  0 <= Size (activeSegment w) < 2 ^ 62 ->
  isFull w L = false ->
  Size (activeSegment w) + maxDataWriteSize L <= SegmentSize (options w)
  /\ maxDataWriteSize L = chunkHeaderSize + L + (L / blockSize + 1) * chunkHeaderSize.
Proof.
  intros HL HS Hfull. unfold isFull in Hfull.
  assert (Hm : maxDataWriteSize L
               = chunkHeaderSize + L + (L / blockSize + 1) * chunkHeaderSize).
  { unfold maxDataWriteSize. apply i64_id.
    unfold chunkHeaderSize, blockSize, KB.
    change (2 ^ 31) with 2147483648 in HL.
    change (2 ^ 63) with 9223372036854775808. lia. }
  rewrite Hm in *. split; [|reflexivity].
  rewrite i64_id in Hfull; [lia|].
  unfold chunkHeaderSize, blockSize, KB.
  change (2 ^ 31) with 2147483648 in HL. change (2 ^ 62) with 4611686018427387904 in HS.
  change (2 ^ 63) with 9223372036854775808. lia.
Qed.

(** [Write] keeps the invariant: a record of less than 2 GiB with a
    12-byte (or no) nonce leaves the WAL consistent again, with one
    record less to go. *)
Lemma Write_walInv n w data nonce w' pos :
  0 <= n -> walInv (n + 1) w ->
  len data < 2 ^ 31 ->
  len nonce = nonceSize \/ len nonce = 0 ->
  Write w data nonce = (w', Ok pos) ->
  walInv n w'.
Proof.
  intros Hn Hinv HD Hnonce Hw.
  destruct (Write_cases _ _ _ _ _ Hw) as (_ & w1 & Hcase & Hrec).
  destruct Hcase as [(Hfull & ->)|(Hfull & Hrot)].
  - apply (writeRecord_walInv n w data nonce w' pos); try assumption.
    + apply (walInv_mono (n + 1)); [lia|exact Hinv].
    + destruct Hinv as (_ & _ & _ & _ & _ & _ & _ & _ & _ & Hc & _). lia.
    + pose proof (len_nonneg data).
      destruct Hinv as (Hbn & Hcbs & _ & Hsz & _ & Hss & _).
      destruct (notFull_size w (len data)) as [Hle Hm]; [lia| |exact Hfull|].
      * unfold Size, blockSize, KB in *.
        change (2 ^ 45) with 35184372088832 in *.
        change (2 ^ 32) with 4294967296 in *.
        change (2 ^ 62) with 4611686018427387904. lia.
      * rewrite Hm in Hle. unfold chunkHeaderSize, blockSize, KB in *. lia.
  - destruct (rotate_walInv n w w1 Hn Hinv Hrot) as (Hinv1 & Hcn & _ & Hsz1 & _).
    apply (writeRecord_walInv n w1 data nonce w' pos); try assumption.
    rewrite Hcn.
    destruct Hinv as (_ & _ & _ & _ & _ & _ & _ & _ & _ & Hc & _). lia.
Qed.

(** ** Records stay readable *)

Lemma stored_Read pool w p data nonce :
  stored w p data nonce -> snd (Read pool w p) = Ok (data, nonce).
Proof.
  intros (seg & Hseg & _ & Hcl & Hsz & Hsb & Hsbn & (pre & log & post & Hch & Hfile & Hpre)
          & HB & Hc & HD & Hvn & Hnlen & Hslice & Hn12).
  unfold Read. rewrite Hseg.
  assert (Hoff : i64 (ValueNum p * nonceSize) = nonceSize * ValueNum p).
  { rewrite i64_id; [lia|]. unfold nonceSize.
    change (2 ^ 59) with 576460752303423488 in Hvn.
    change (2 ^ 63) with 9223372036854775808. lia. }
  rewrite Hoff.
  rewrite fileReadAt_ok by (unfold nonceSize in *; lia).
  rewrite Hslice, Hn12, Z.eqb_refl. cbn [negb].
  assert (Hread : snd (segRead pool seg (BlockNumber p) (ChunkOffset p)) = Ok data).
  { apply (segRead_chain pool seg log data _ _ pre post); try assumption.
    intros _. lia. }
  destruct (segRead pool seg (BlockNumber p) (ChunkOffset p)) as [seg' r].
  cbn [snd] in Hread. subst r. reflexivity.
Qed.

Lemma slice_app_keep {A} (l r : list A) lo hi :
  0 <= lo -> hi <= len l -> slice (l ++ r) lo hi = slice l lo hi.
Proof. apply slice_app_l. Qed.

(** What [writeRecord] appends does not disturb the records stored
    before. *)
Lemma writeRecord_keeps_stored w data nonce w' pos p d n :
  segOk (activeSegment w) -> len data < 2 ^ 31 ->
  writeRecord w data nonce = (w', Ok pos) ->
  stored w p d n -> stored w' p d n.
Proof.
  intros Hok HD Hw (seg & Hseg & Hle & Hcl & Hsz & Hsb & Hsbn & Hrec
                    & HB & Hc & HDd & Hvn & Hnlen & Hslice & Hn12).
  pose proof (writeRecord_state _ _ _ _ _ Hok HD Hw) as Hst. cbv zeta in Hst.
  destruct Hst as (log & f & fn & vn & cn & Hch & _ & Hact & Hf & Hpad & Hnf & Hnc
                   & Hold & _ & _).
  destruct Hok as (Hbn & Hcbs & Hlen & Hsb0).
  destruct (chain_tot_bound _ _ _ _ Hch HD) as [Hl1 Htot].
  pose proof (len_nonneg data) as HD0.
  assert (Hnon : fbytes fn = fbytes (nfd (nonceFile_ w))
                 \/ fbytes fn = fbytes (nfd (nonceFile_ w)) ++ nonce).
  { destruct Hnc as [(_ & H & _)|(_ & H & _)]; [left|right]; exact H. }
  assert (Hnlen' : nonceSize * ValueNum p + nonceSize
                   <= len (fbytes (nfd (nonceFile_ w')))).
  { rewrite Hnf. cbn [nfd]. destruct Hnon as [->| ->]; [exact Hnlen|].
    rewrite len_app. pose proof (len_nonneg nonce). lia. }
  assert (Hslice' : slice (fbytes (nfd (nonceFile_ w'))) (nonceSize * ValueNum p)
                      (nonceSize * ValueNum p + nonceSize) = n).
  { rewrite Hnf. cbn [nfd]. destruct Hnon as [->| ->]; [exact Hslice|].
    rewrite slice_app_l by (unfold nonceSize in *; lia). exact Hslice. }
  destruct (SegmentId p =? id (activeSegment w)) eqn:Eid.
  - injection Hseg as <-.
    exists (activeSegment w'). rewrite Hact. cbn [id]. rewrite Eid.
    split; [reflexivity|]. split; [exact Hle|]. split; [reflexivity|].
    cbn [fd startup sbBlock sbBlockNumber].
    set (seg := activeSegment w) in *.
    set (B1 := fst (nextStart (currentBlockNumber seg) (currentBlockSize seg))) in *.
    set (c1 := snd (nextStart (currentBlockNumber seg) (currentBlockSize seg))) in *.
    set (tot := chunkHeaderSize * len log + len data) in *.
    assert (HB1c1 : 0 <= B1 /\ 0 <= c1 < blockSize).
    { subst B1 c1. unfold nextStart. destruct (_ >=? _); cbn [fst snd];
        unfold blockSize, KB in *; lia. }
    split.
    { unfold Size. cbn [currentBlockNumber currentBlockSize].
      rewrite Hf, !len_app, len_repeat, (chain_len _ _ _ _ Hch). fold tot.
      unfold chunkHeaderSize, blockSize, KB in *. lia. }
    split; [exact Hsb|]. split; [reflexivity|].
    split.
    { destruct Hrec as (pre & lg & post & H1 & H2 & H3).
      exists pre, lg, (post ++ repeat 0 (Z.to_nat (B1 * blockSize + c1 - Size seg))
                         ++ concat (map chunkBytes log)).
      split; [exact H1|]. split; [|exact H3].
      unfold recordAt. cbn [fd]. rewrite Hf, H2, <- !app_assoc. reflexivity. }
    repeat (split; [assumption|]). assumption.
  - exists seg. rewrite Hact. cbn [id]. rewrite Eid, Hold.
    split; [exact Hseg|]. repeat (split; [assumption|]). assumption.
Qed.

(** The record that [writeRecord] wrote is stored. *)
Lemma writeRecord_stores w data nonce w' pos :
  segOk (activeSegment w) -> len data < 2 ^ 31 ->
  len nonce = nonceSize ->
  len (fbytes (nfd (nonceFile_ w))) = nonceSize * curNum (nonceFile_ w) ->
  0 <= curNum (nonceFile_ w) < 2 ^ 59 ->
  writeRecord w data nonce = (w', Ok pos) ->
  stored w' pos data nonce.
Proof.
  intros Hok HD Hn12 Hnl Hcur Hw.
  pose proof (writeRecord_state _ _ _ _ _ Hok HD Hw) as Hst. cbv zeta in Hst.
  destruct Hst as (log & f & fn & vn & cn & Hch & Hpos & Hact & Hf & Hpad & Hnf & Hnc
                   & Hold & _ & _).
  destruct Hok as (Hbn & Hcbs & Hlen & Hsb0).
  destruct (chain_tot_bound _ _ _ _ Hch HD) as [Hl1 Htot].
  pose proof (len_nonneg data) as HD0.
  destruct Hnc as [(Hz & _)|(_ & Hfn & -> & ->)]; [unfold nonceSize in *; lia|].
  set (seg := activeSegment w) in *.
  set (B1 := fst (nextStart (currentBlockNumber seg) (currentBlockSize seg))) in *.
  set (c1 := snd (nextStart (currentBlockNumber seg) (currentBlockSize seg))) in *.
  set (tot := chunkHeaderSize * len log + len data) in *.
  assert (HB1c1 : 0 <= B1 <= currentBlockNumber seg + 1 /\ 0 <= c1 < blockSize).
  { subst B1 c1. unfold nextStart. destruct (_ >=? _); cbn [fst snd];
      unfold blockSize, KB in *; lia. }
  exists (activeSegment w'). rewrite Hact, Hnf, Hpos.
  cbn [SegmentId BlockNumber ChunkOffset ValueNum id nfd closed fd startup
       sbBlock sbBlockNumber].
  rewrite Z.eqb_refl.
  split; [reflexivity|]. split; [lia|]. split; [reflexivity|].
  split.
  { unfold Size. cbn [currentBlockNumber currentBlockSize].
    rewrite Hf, !len_app, len_repeat, (chain_len _ _ _ _ Hch). fold tot.
    unfold chunkHeaderSize, blockSize, KB in *. lia. }
  split; [exact Hsb0|]. split; [reflexivity|].
  split.
  { exists (fbytes (fd seg) ++ repeat 0 (Z.to_nat (B1 * blockSize + c1 - Size seg))),
           log, [].
    split; [exact Hch|]. cbn [fd]. split.
    - rewrite Hf, app_nil_r, <- app_assoc. reflexivity.
    - rewrite len_app, len_repeat, Hlen. lia. }
  split; [lia|]. split; [lia|]. split; [exact HD|]. split; [exact Hcur|].
  rewrite Hfn, len_app, Hn12, Hnl.
  split; [lia|]. split; [|reflexivity].
  rewrite <- Hnl.
  rewrite <- (app_nil_r nonce) at 1.
  apply slice_app_mid; rewrite ?Hn12; reflexivity.
Qed.

(** A rotation keeps what is stored: the segment that was active is
    found in the map of older segments, with the same bytes. *)
Lemma rotate_keeps_stored w w1 p d n :
  0 <= id (activeSegment w) -> id (activeSegment w) + 1 < 2 ^ 32 ->
  rotateActiveSegment w = (w1, None) ->
  stored w p d n -> stored w1 p d n.
Proof.
  intros Hi0 Hi Hrot (seg & Hseg & Hle & Hcl & Hsz & Hsb & Hsbn & Hrec
                      & HB & Hc & HDd & Hvn & Hnlen & Hslice & Hn12).
  destruct (rotate_inv _ _ Hrot)
    as (segS & nfS & Hss & Hns & Hact & Hold & Hnf & _).
  apply nonceSync_inv in Hns as (fn & -> & Hfn & _ & _).
  apply segSync_inv in Hss as (f & -> & Hf & _).
  assert (Hid : u32 (id (activeSegment w) + 1) = id (activeSegment w) + 1).
  { unfold u32. change (2 ^ 32) with 4294967296 in *. lia. }
  rewrite Hid in Hact.
  assert (Hida : id (activeSegment w1) = id (activeSegment w) + 1)
    by (rewrite Hact; reflexivity).
  unfold stored. rewrite Hida, Hold, Hnf. cbn [nfd]. rewrite Hfn.
  destruct (SegmentId p =? id (activeSegment w) + 1) eqn:E1; [lia|].
  destruct (SegmentId p =? id (activeSegment w)) eqn:E0.
  - injection Hseg as <-.
    exists (setFd (activeSegment w) f).
    assert (SegmentId p = id (activeSegment w)) as -> by lia.
    rewrite lookup_insert_eq.
    split; [reflexivity|]. split; [lia|]. split; [exact Hcl|].
    split; [unfold Size, setFd in *; cbn; rewrite Hf; exact Hsz|].
    split; [exact Hsb|]. split; [exact Hsbn|].
    split.
    { destruct Hrec as (pre & lg & post & H1 & H2 & H3).
      exists pre, lg, post. cbn [fd setFd]. rewrite Hf. auto. }
    repeat (split; [assumption|]). assumption.
  - exists seg. rewrite lookup_insert_ne by lia.
    split; [exact Hseg|]. split; [lia|].
    repeat (split; [assumption|]). assumption.
Qed.

(** One [Write]: the new record is stored and the earlier ones still
    are. *)
Lemma Write_stored n w data nonce w' pos :
  0 <= n -> walInv (n + 1) w ->
  len data < 2 ^ 31 -> len nonce = nonceSize ->
  Write w data nonce = (w', Ok pos) ->
  stored w' pos data nonce
  /\ forall p d nc, stored w p d nc -> stored w' p d nc.
Proof.
  intros Hn Hinv HD Hn12 Hw.
  destruct (Write_cases _ _ _ _ _ Hw) as (_ & w1 & Hcase & Hrec).
  assert (Hinv1 : walInv n w1
                  /\ (forall p d nc, stored w p d nc -> stored w1 p d nc)
                  /\ curNum (nonceFile_ w1) + n + 1 < 2 ^ 59).
  { destruct Hcase as [(_ & ->)|(_ & Hrot)].
    - split; [apply (walInv_mono (n + 1)); [lia|exact Hinv]|]. split; [auto|].
      destruct Hinv as (_ & _ & _ & _ & _ & _ & _ & _ & _ & Hc & _). lia.
    - destruct (rotate_walInv n w w1 Hn Hinv Hrot) as (H1 & Hcn & _).
      split; [exact H1|]. split.
      + intros p d nc Hs. apply (rotate_keeps_stored w w1); try assumption.
        * destruct Hinv as (_ & _ & _ & _ & _ & _ & _ & _ & _ & _ & Hi0 & _). exact Hi0.
        * destruct Hinv as (_ & _ & _ & _ & _ & _ & _ & _ & _ & _ & _ & Hi). lia.
      + rewrite Hcn.
        destruct Hinv as (_ & _ & _ & _ & _ & _ & _ & _ & _ & Hc & _). lia. }
  destruct Hinv1 as (Hinv1 & Hkeep & Hcur).
  pose proof (walInv_segOk n w1 Hn Hinv1) as Hok.
  split.
  - apply (writeRecord_stores w1); try assumption.
    + destruct Hinv1 as (_ & _ & _ & _ & _ & _ & _ & Hnl & _). exact Hnl.
    + destruct Hinv1 as (_ & _ & _ & _ & _ & _ & _ & _ & Hc0 & _). lia.
  - intros p d nc Hs.
    apply (writeRecord_keeps_stored w1 data nonce w' pos); auto.
Qed.

Lemma walInv_fresh n o :
  SegmentSize o <= 2 ^ 45 -> 0 <= n -> n + 1 < 2 ^ 32 ->
  walInv n (freshWAL o).
Proof.
  intros Hs Hn Hn1. unfold walInv, freshWAL.
  cbn [activeSegment dataDir nonceFile_ dirFiles options].
  destruct (openSegmentFile_ok None initialSegmentFileID ltac:(discriminate))
    as (Hbn & Hcbs & Hlen & Hsb).
  split; [lia|]. split; [exact Hcbs|]. split; [exact Hlen|].
  split; [vm_compute; reflexivity|]. split; [exact Hsb|]. split; [exact Hs|].
  split; [intros i f H; rewrite lookup_empty in H; discriminate|].
  split; [reflexivity|]. change (curNum (openNonceFile None)) with 0.
  change (id (openSegmentFile None initialSegmentFileID)) with 1.
  change (2 ^ 59) with 576460752303423488. change (2 ^ 32) with 4294967296 in *.
  lia.
Qed.

(** X5.  [Write] keeps the WAL consistent.  On a WAL whose active segment's
    counters describe its file, whose sizes are in range and whose nonce
    file holds [curNum] nonces of 12 bytes, a successful [Write] of a
    record below 2 GiB with a 12-byte or an empty nonce leaves a WAL of
    which the same holds. *)
Theorem Write_keeps_invariant n w data nonce w' pos :
  0 <= n -> walInv (n + 1) w ->
  len data < 2 ^ 31 ->
  len nonce = nonceSize \/ len nonce = 0 ->
  Write w data nonce = (w', Ok pos) ->
  walInv n w' /\ walOk w'.
Proof.
  intros Hn Hinv HD Hnonce Hw.
  pose proof (Write_walInv n w data nonce w' pos Hn Hinv HD Hnonce Hw) as H.
  split; [exact H|exact (walInv_walOk n w' Hn H)].
Qed.

Lemma Write_keeps_invariant_witness :
  walInv 0 (fst (Write (freshWAL DefaultOptions) [65; 66; 67] nonceA))
  /\ walOk (fst (Write (freshWAL DefaultOptions) [65; 66; 67] nonceA)).
Proof.
  apply (Write_keeps_invariant 0 (freshWAL DefaultOptions) [65; 66; 67] nonceA
           _ (mkPos 1 0 0 10 0)).
  - lia.
  - apply walInv_fresh; [vm_compute; discriminate|lia|vm_compute; reflexivity].
  - vm_compute. reflexivity.
  - left. reflexivity.
  - apply with_fst. vm_compute. reflexivity.
Defined.

Lemma writeMany_stored records : forall w w' positions,
  walInv (len records) w ->
  Forall (fun r => len (fst r) < 2 ^ 31 /\ len (snd r) = nonceSize) records ->
  writeMany w records = (w', Ok positions) ->
  walInv 0 w'
  /\ (forall p d nc, stored w p d nc -> stored w' p d nc)
  /\ Forall2 (fun r p => stored w' p (fst r) (snd r)) records positions.
Proof.
  induction records as [|[data nonce] records IH]; intros w w' positions Hinv Hall Hw.
  - cbn in Hw. injection Hw as <- <-. split; [exact Hinv|]. split; [auto|constructor].
  - cbn [writeMany] in Hw.
    destruct (Write w data nonce) as [w1 [pos|e| |]] eqn:HW; try discriminate.
    destruct (writeMany w1 records) as [w2 [ps|e| |]] eqn:HM; try discriminate.
    injection Hw as <- <-.
    inversion Hall as [|r rs [HD Hn12] Hall' Heq]; subst. cbn [fst snd] in HD, Hn12.
    rewrite len_cons in Hinv.
    assert (Hinv' : walInv (len records + 1) w)
      by (apply (walInv_mono (1 + len records)); [lia|exact Hinv]).
    pose proof (len_nonneg records) as Hl0.
    destruct (Write_stored (len records) w data nonce w1 pos Hl0 Hinv' HD Hn12 HW)
      as [Hnew Hkeep].
    pose proof (Write_walInv (len records) w data nonce w1 pos Hl0 Hinv' HD
                  (or_introl Hn12) HW) as Hinv1.
    destruct (IH w1 w2 ps Hinv1 Hall' HM) as (Hinv2 & Hkeep2 & Hrest).
    split; [exact Hinv2|]. split; [auto|].
    constructor; [apply Hkeep2; exact Hnew|exact Hrest].
Qed.

(** X6.  Records stay readable.  After any sequence of successful [Write]s of
    records below 2 GiB with 12-byte nonces, through whatever rotations
    they caused, [Read] at each of the positions returned gives back the
    data and the nonce of that record. *)
Theorem writeMany_readable pool records w w' positions :
  walInv (len records) w ->
  Forall (fun r => len (fst r) < 2 ^ 31 /\ len (snd r) = nonceSize) records ->
  writeMany w records = (w', Ok positions) ->
  length positions = length records
  /\ forall (i : nat) data nonce p,
       records !! i = Some (data, nonce) -> positions !! i = Some p ->
       snd (Read pool w' p) = Ok (data, nonce).
Proof.
  intros Hinv Hall Hw.
  destruct (writeMany_stored records w w' positions Hinv Hall Hw) as (_ & _ & H2).
  split; [symmetry; apply (Forall2_length _ _ _ H2)|].
  intros i data nonce p Hr Hp.
  apply stored_Read.
  exact (Forall2_lookup_lr _ _ _ _ _ _ H2 Hr Hp).
Qed.

Lemma writeMany_readable_witness :
  snd (Read [] (fst (writeMany (freshWAL smallOptions)
                       [(repeat 65 40, nonceA); (repeat 66 40, nonceB)]))
            (mkPos 1 0 0 47 0))
  = Ok (repeat 65 40, nonceA).
Proof.
  apply (proj2 (writeMany_readable [] [(repeat 65 40, nonceA); (repeat 66 40, nonceB)]
                  (freshWAL smallOptions)
                  (fst (writeMany (freshWAL smallOptions)
                          [(repeat 65 40, nonceA); (repeat 66 40, nonceB)]))
                  [mkPos 1 0 0 47 0; mkPos 2 0 0 47 1]
                  ltac:(apply walInv_fresh;
                        [vm_compute; discriminate|vm_compute; discriminate
                        |vm_compute; reflexivity])
                  ltac:(repeat constructor)
                  ltac:(apply with_fst; vm_compute; reflexivity))
               0%nat (repeat 65 40) nonceA (mkPos 1 0 0 47 0)
               eq_refl eq_refl).
Defined.

(** ** The size of a segment *)

(** A record that fits what is left of the block is written as one
    [Full] chunk. *)
Lemma writeToBuffer_fits seg data cb seg' fr :
  0 <= currentBlockNumber seg < 2 ^ 31 ->
  0 <= currentBlockSize seg < blockSize ->
  len data < 2 ^ 31 ->
  writeToBuffer seg data cb = (seg', Ok fr) ->
  snd (nextStart (currentBlockNumber seg) (currentBlockSize seg))
    + len data + chunkHeaderSize <= blockSize ->
  frChunks fr
  = [mkChunk (snd (nextStart (currentBlockNumber seg) (currentBlockSize seg)))
             ChunkTypeFull data].
Proof.
  intros Hbn Hcbs HD Hw Hfit.
  pose proof (len_nonneg data) as HD0.
  unfold nextStart in *. unfold writeToBuffer in Hw.
  destruct (closed seg); [discriminate|].
  unfold chunkHeaderSize, blockSize, KB in *.
  change (2 ^ 31) with 2147483648 in *.
  assert (Eu : u32 (len data) = len data).
  { unfold u32. apply Z.mod_small. change (2 ^ 32) with 4294967296. lia. }
  assert (Eu1 : u32 (currentBlockSize seg + 7) = currentBlockSize seg + 7).
  { unfold u32. apply Z.mod_small. change (2 ^ 32) with 4294967296. lia. }
  rewrite Eu, Eu1 in Hw.
  destruct (currentBlockSize seg + 7 >=? 32 * 1024) eqn:E.
  - destruct (currentBlockSize seg <? 32 * 1024) eqn:E'; [|lia].
    cbn [andb snd] in Hw, Hfit. cbv beta iota in Hw.
    cbn [currentBlockSize setCounters] in Hw.
    assert (Eu2 : u32 (0 + len data + 7) = 0 + len data + 7).
    { unfold u32. apply Z.mod_small. change (2 ^ 32) with 4294967296. lia. }
    rewrite Eu2 in Hw.
    destruct (0 + len data + 7 <=? 32 * 1024) eqn:Ef; [|lia].
    cbv beta iota zeta in Hw.
    destruct (negb _) in Hw; [discriminate|].
    injection Hw as _ <-. reflexivity.
  - cbn [andb snd] in Hw, Hfit. cbv beta iota in Hw.
    assert (Eu2 : u32 (currentBlockSize seg + len data + 7)
                  = currentBlockSize seg + len data + 7).
    { unfold u32. apply Z.mod_small. change (2 ^ 32) with 4294967296. lia. }
    rewrite Eu2 in Hw.
    destruct (currentBlockSize seg + len data + 7 <=? 32 * 1024) eqn:Ef; [|lia].
    cbv beta iota zeta in Hw.
    destruct (negb _) in Hw; [discriminate|].
    injection Hw as _ <-. reflexivity.
Qed.

(** A record of at most one block's payload that does not start at the
    beginning of a block takes two chunks at most. *)
Lemma chain_two log c data :
  chain true c log data ->
  0 <= c -> c + chunkHeaderSize < blockSize ->
  len data <= blockSize - chunkHeaderSize ->
  len log <= 2.
Proof.
  intros Hch Hc Hc7 HL.
  destruct log as [|ck1 [|ck2 [|ck3 rest]]].
  - contradiction.
  - rewrite len_cons. change (len []) with 0. lia.
  - rewrite !len_cons. change (len []) with 0. lia.
  - exfalso.
    destruct Hch as (_ & _ & _ & Hend1 & Ht1 & Hch2).
    destruct Hch2 as (_ & _ & _ & Hend2 & Ht2 & _).
    apply (f_equal len) in Ht1, Ht2.
    rewrite len_take in Ht1. rewrite len_take, len_drop in Ht2.
    unfold chunkHeaderSize, blockSize, KB, len in *. lia.
Qed.

Lemma segWrite_fits seg data seg' fr :
  segOk seg -> len data < 2 ^ 31 ->
  segWrite seg data = (seg', Ok fr) ->
  snd (nextStart (currentBlockNumber seg) (currentBlockSize seg))
    + len data + chunkHeaderSize <= blockSize ->
  frChunks fr
  = [mkChunk (snd (nextStart (currentBlockNumber seg) (currentBlockSize seg)))
             ChunkTypeFull data].
Proof.
  intros (Hbn & Hcbs & _) HD Hw Hfit. unfold segWrite in Hw.
  destruct (closed seg); [discriminate|].
  destruct (writeToBuffer seg data []) as [seg1 [fr1|e| |]] eqn:Hb; try discriminate.
  destruct (writeChunkBuffer seg1 (frBuf fr1)) as [seg2 [e|]]; [discriminate|].
  injection Hw as _ <-.
  exact (writeToBuffer_fits seg data [] seg1 fr1 Hbn Hcbs HD Hb Hfit).
Qed.

(** The bytes by which a successful [writeRecord] of a record of at most
    one block's payload lets the active segment grow: never more than
    [maxDataWriteSize] announces. *)
Lemma writeRecord_growth w data nonce w' pos :
  segOk (activeSegment w) ->
  len data <= blockSize - chunkHeaderSize ->
  writeRecord w data nonce = (w', Ok pos) ->
  Size (activeSegment w') = len (fbytes (fd (activeSegment w')))
  /\ Size (activeSegment w') <= Size (activeSegment w) + maxDataWriteSize (len data)
  /\ (currentBlockSize (activeSegment w) = 0 ->
      Size (activeSegment w')
      = Size (activeSegment w) + len data + chunkHeaderSize)
  /\ options w' = options w.
Proof.
  intros Hok HL Hw.
  pose proof (len_nonneg data) as HD0.
  assert (HD : len data < 2 ^ 31).
  { unfold blockSize, chunkHeaderSize, KB in HL. change (2 ^ 31) with 2147483648. lia. }
  destruct (writeRecord_inv _ _ _ _ _ Hw)
    as (seg' & fr & nf' & f & fn & Hsw & _ & Hact & Hf & _ & _ & _ & _ & Hopt).
  pose proof (segWrite_fits _ _ _ _ Hok HD Hsw) as Hfits.
  pose proof (segWrite_inv _ _ _ _ Hok HD Hsw) as Hinv. cbv zeta in Hinv.
  destruct Hinv as (log & Hch & Hfr & Hseg').
  destruct Hok as (Hbn & Hcbs & Hlen & Hsb).
  assert (Hm : maxDataWriteSize (len data) = len data + 14).
  { unfold maxDataWriteSize. rewrite i64_id.
    - unfold chunkHeaderSize, blockSize, KB in *.
      rewrite Z.div_small by lia. lia.
    - unfold chunkHeaderSize, blockSize, KB in *.
      change (2 ^ 63) with 9223372036854775808. lia. }
  rewrite Hm, Hact. unfold Size, setFd.
  cbn [currentBlockNumber currentBlockSize fd]. rewrite Hf.
  rewrite Hseg'. cbn [currentBlockNumber currentBlockSize fd fbytes].
  rewrite !len_app, len_repeat, (chain_len _ _ _ _ Hch), Hlen.
  rewrite Hfr in Hfits. cbn [frChunks] in Hfits.
  unfold nextStart in Hfits. unfold Size.
  clear Hseg' Hfr Hact Hsw Hw Hf.
  pose proof (chain_nonempty _ _ _ _ Hch) as Hne.
  pose proof (len_nonneg log) as Hl0.
  destruct (currentBlockSize (activeSegment w) + chunkHeaderSize >=? blockSize) eqn:E;
    cbn [snd] in Hfits.
  - rewrite Hfits in * by (unfold chunkHeaderSize, blockSize, KB in *; lia).
    change (len [_]) with 1.
    unfold chunkHeaderSize, blockSize, KB in *.
    split; [lia|]. split; [lia|]. split; [lia|exact Hopt].
  - destruct (Z_le_gt_dec
                (currentBlockSize (activeSegment w) + len data + chunkHeaderSize)
                blockSize) as [Hfit|Hno].
    + rewrite Hfits in * by exact Hfit. change (len [_]) with 1.
      unfold chunkHeaderSize, blockSize, KB in *.
      split; [lia|]. split; [lia|]. split; [lia|exact Hopt].
    + pose proof (chain_two _ _ _ Hch) as H2.
      unfold chunkHeaderSize, blockSize, KB in *.
      specialize (H2 ltac:(lia) ltac:(lia) ltac:(lia)).
      split; [lia|]. split; [lia|]. split; [lia|exact Hopt].
Qed.

(** X7.  A segment does not outgrow [SegmentSize].  For records of at most one
    block's payload (32761 bytes), when no file is left over under the
    next segment id, the active segment after a successful [Write] is no
    larger than [SegmentSize], whether the write rotated or not. *)
Theorem Write_within_SegmentSize w data nonce w' pos :
  walInv 1 w ->
  len data <= blockSize - chunkHeaderSize ->
  dirFiles (dataDir w) !! (id (activeSegment w) + 1) = None ->
  Write w data nonce = (w', Ok pos) ->
  Size (activeSegment w') <= SegmentSize (options w')
  /\ len (fbytes (fd (activeSegment w'))) = Size (activeSegment w').
Proof.
  intros Hinv HL Hdir Hw.
  pose proof (len_nonneg data) as HD0.
  destruct (Write_cases _ _ _ _ _ Hw) as (Hsize & w1 & Hcase & Hrec).
  rewrite i64_id in Hsize
    by (unfold chunkHeaderSize, blockSize, KB in *;
        change (2 ^ 63) with 9223372036854775808; lia).
  destruct Hcase as [(Hfull & ->)|(Hfull & Hrot)].
  - pose proof (walInv_segOk 1 w ltac:(lia) Hinv) as Hok.
    destruct (writeRecord_growth _ _ _ _ _ Hok HL Hrec) as (Hlen & Hgrow & _ & Hopt).
    split; [|symmetry; exact Hlen].
    rewrite Hopt.
    destruct Hinv as (Hbn & Hcbs & _ & Hsz & _).
    destruct (notFull_size w (len data)) as [Hle _]; [| |exact Hfull|lia].
    + unfold chunkHeaderSize, blockSize, KB in *. change (2 ^ 31) with 2147483648. lia.
    + unfold Size, blockSize, KB in *.
      change (2 ^ 45) with 35184372088832 in *.
      change (2 ^ 32) with 4294967296 in *.
      change (2 ^ 62) with 4611686018427387904. lia.
  - destruct (rotate_walInv 0 w w1 ltac:(lia) Hinv Hrot) as (Hinv1 & _ & _ & _).
    pose proof (walInv_segOk 0 w1 ltac:(lia) Hinv1) as Hok.
    destruct (writeRecord_growth _ _ _ _ _ Hok HL Hrec) as (Hlen & _ & Hzero & Hopt).
    destruct (rotate_inv _ _ Hrot) as (_ & _ & _ & _ & Hact & _ & _ & _ & Hopt1 & _).
    assert (Hid : u32 (id (activeSegment w) + 1) = id (activeSegment w) + 1).
    { destruct Hinv as (_ & _ & _ & _ & _ & _ & _ & _ & _ & _ & Hi0 & Hi).
      unfold u32. change (2 ^ 32) with 4294967296 in *. lia. }
    rewrite Hid, Hdir in Hact.
    split; [|symmetry; exact Hlen].
    rewrite Hopt, Hopt1, Hzero by (rewrite Hact; reflexivity).
    rewrite Hact. change (Size (openSegmentFile None _)) with 0. lia.
Qed.

Lemma Write_within_SegmentSize_witness :
  Size (activeSegment (fst (Write fullWAL (repeat 66 40) nonceB)))
    <= SegmentSize (options (fst (Write fullWAL (repeat 66 40) nonceB)))
  /\ len (fbytes (fd (activeSegment (fst (Write fullWAL (repeat 66 40) nonceB)))))
     = Size (activeSegment (fst (Write fullWAL (repeat 66 40) nonceB))).
Proof.
  apply (Write_within_SegmentSize fullWAL (repeat 66 40) nonceB _ (mkPos 2 0 0 47 1)).
  - apply (Write_walInv 1 (freshWAL smallOptions) (repeat 65 40) nonceA
             _ (mkPos 1 0 0 47 0)).
    + lia.
    + apply walInv_fresh; [vm_compute; discriminate|lia|vm_compute; reflexivity].
    + vm_compute. reflexivity.
    + left. reflexivity.
    + apply with_fst. vm_compute. reflexivity.
  - vm_compute. discriminate.
  - vm_compute. reflexivity.
  - apply with_fst. vm_compute. reflexivity.
Defined.

(** ** When a write is durable *)





(** ** Batches *)

Lemma maxDataWriteSize_small L :
  0 <= L < 2 ^ 31 ->
  maxDataWriteSize L = 14 + L + 7 * (L / blockSize).
Proof.
  intros HL. unfold maxDataWriteSize. rewrite i64_id.
  - unfold chunkHeaderSize. lia.
  - unfold chunkHeaderSize, blockSize, KB.
    change (2 ^ 31) with 2147483648 in HL.
    change (2 ^ 63) with 9223372036854775808. lia.
Qed.

Lemma sumMax_nonneg data :
  Forall (fun d : list Z => len d < 2 ^ 31) data -> 0 <= sumMax data.
Proof.
  induction 1 as [|d data HD _ IH]; cbn [sumMax foldr]; [lia|].
  fold (sumMax data). pose proof (len_nonneg d).
  rewrite maxDataWriteSize_small by lia. unfold blockSize, KB. lia.
Qed.

(** The loop of [segment.writeAll]: every record of the batch is framed
    into the chunk buffer at the position it gets. *)
Lemma writeAllLoop_spec data : forall seg cb ps,
  closed seg = false ->
  0 <= currentBlockNumber seg -> 0 <= currentBlockSize seg < blockSize ->
  Forall (fun d : list Z => len d < 2 ^ 31) data ->
  Size seg + 2 * sumMax data < 2 ^ 46 ->
  exists newps frames bn' cbs',
    writeAllLoop seg data cb ps
    = (setCounters seg bn' cbs', Ok (ps ++ newps, cb ++ frames))
    /\ 0 <= bn' /\ 0 <= cbs' < blockSize
    /\ bn' * blockSize + cbs' = Size seg + len frames
    /\ Forall2 (placed (Size seg) (id seg) frames) data newps.
Proof.
  induction data as [|d data IH]; intros seg cb ps Hcl Hbn Hcbs Hall Hsum.
  - exists [], [], (currentBlockNumber seg), (currentBlockSize seg).
    cbn [writeAllLoop]. rewrite !app_nil_r.
    split; [destruct seg; reflexivity|]. split; [exact Hbn|]. split; [exact Hcbs|].
    split; [unfold Size; change (len []) with 0; lia|constructor].
  - inversion Hall as [|d0 data0 HD Hall' Heq]; subst.
    cbn [sumMax foldr] in Hsum. fold (sumMax data) in Hsum.
    pose proof (sumMax_nonneg data Hall') as Hs0.
    pose proof (len_nonneg d) as HD0.
    rewrite maxDataWriteSize_small in Hsum by lia.
    assert (Hbn31 : 0 <= currentBlockNumber seg < 2 ^ 31).
    { unfold Size, blockSize, KB in *. change (2 ^ 46) with 70368744177664 in Hsum.
      change (2 ^ 31) with 2147483648. lia. }
    destruct (writeToBuffer_spec seg d cb Hcl Hbn31 Hcbs HD) as (log & Hch & Hspec).
    cbv zeta in Hspec.
    set (padded := currentBlockSize seg + chunkHeaderSize >=? blockSize) in *.
    set (pad := if padded then blockSize - currentBlockSize seg else 0) in *.
    set (B1 := if padded then currentBlockNumber seg + 1 else currentBlockNumber seg) in *.
    set (c1 := if padded then 0 else currentBlockSize seg) in *.
    set (tot := chunkHeaderSize * len log + len d) in *.
    assert (Hc1 : 0 <= c1 /\ c1 + chunkHeaderSize < blockSize).
    { subst c1 padded. unfold chunkHeaderSize, blockSize, KB in *.
      destruct (_ >=? _) eqn:E; lia. }
    assert (HB1 : B1 * blockSize + c1 = Size seg + pad /\ 0 <= B1 /\ 0 <= pad <= 7).
    { subst B1 c1 pad padded. unfold Size, chunkHeaderSize, blockSize, KB in *.
      destruct (_ >=? _) eqn:E; lia. }
    pose proof (chain_count _ _ _ _ Hch) as Hcnt.
    pose proof (chain_len _ _ _ _ Hch) as Hlen.
    destruct (chain_tot_bound _ _ _ _ Hch HD) as [Hl1 Htot]. fold tot in Htot, Hlen.
    assert (Hgrow : tot <= 2 * len d + 14).
    { subst tot. unfold chunkHeaderSize, blockSize, KB in *. lia. }
    cbn [writeAllLoop]. rewrite Hspec. cbn [frBuf frPos].
    set (seg1 := setCounters seg (B1 + (c1 + tot) / blockSize) ((c1 + tot) mod blockSize)).
    assert (Hsz1 : Size seg1 = Size seg + pad + tot).
    { subst seg1. unfold Size. cbn [setCounters currentBlockNumber currentBlockSize].
      unfold Size in HB1. unfold blockSize, KB in *. lia. }
    destruct (IH seg1 (cb ++ repeat 0 (Z.to_nat pad) ++ concat (map chunkBytes log))
                 (ps ++ [mkPos (id seg) B1 c1 tot 0]))
      as (newps & frames & bn' & cbs' & Hloop & Hbn' & Hcbs' & Hend & Hpl).
    + exact Hcl.
    + subst seg1. cbn [setCounters currentBlockNumber].
      unfold chunkHeaderSize, blockSize, KB in *. lia.
    + subst seg1. cbn [setCounters currentBlockSize]. unfold blockSize, KB. lia.
    + exact Hall'.
    + rewrite Hsz1. unfold blockSize, KB in *. lia.
    + exists (mkPos (id seg) B1 c1 tot 0 :: newps),
             ((repeat 0 (Z.to_nat pad) ++ concat (map chunkBytes log)) ++ frames),
             bn', cbs'.
      rewrite Hloop. subst seg1. rewrite setCounters_twice.
      split; [rewrite <- !app_assoc; reflexivity|].
      split; [exact Hbn'|]. split; [exact Hcbs'|].
      split.
      { rewrite Hend, Hsz1, !len_app, len_repeat, Hlen. lia. }
      constructor.
      * unfold placed. cbn [SegmentId ValueNum BlockNumber ChunkOffset].
        split; [reflexivity|]. split; [reflexivity|].
        split; [subst B1; destruct padded; lia|]. split; [lia|].
        exists (repeat 0 (Z.to_nat pad)), log, frames.
        split; [rewrite <- !app_assoc; reflexivity|]. split; [exact Hch|].
        rewrite len_repeat. lia.
      * eapply Forall2_impl; [exact Hpl|].
        intros d' p' (Hi & Hv & HB & Hc & pre & lg & post & Hfr & Hch' & Hoff).
        cbn [setCounters id] in Hi.
        split; [exact Hi|]. split; [exact Hv|]. split; [exact HB|]. split; [exact Hc|].
        exists ((repeat 0 (Z.to_nat pad) ++ concat (map chunkBytes log)) ++ pre), lg, post.
        split; [rewrite Hfr, <- !app_assoc; reflexivity|]. split; [exact Hch'|].
        rewrite <- Hoff, Hsz1, !len_app, len_repeat, Hlen. lia.
Qed.

Lemma segWriteAll_spec seg data seg' positions :
  0 <= currentBlockNumber seg -> 0 <= currentBlockSize seg < blockSize ->
  Forall (fun d : list Z => len d < 2 ^ 31) data ->
  Size seg + 2 * sumMax data < 2 ^ 46 ->
  segWriteAll seg data = (seg', Ok positions) ->
  exists frames bn' cbs',
    seg' = mkSegment (id seg)
             (mkFile (fbytes (fd seg) ++ frames) (fsynced (fd seg)) true)
             bn' cbs' false (mkStartupBlock (sbBlock (startup seg)) (-1))
             (isStartupTraversal seg)
    /\ 0 <= bn' /\ 0 <= cbs' < blockSize
    /\ bn' * blockSize + cbs' = Size seg + len frames
    /\ Forall2 (placed (Size seg) (id seg) frames) data positions.
Proof.
  intros Hbn Hcbs Hall Hsum Hw. unfold segWriteAll in Hw.
  destruct (closed seg) eqn:Hcl; [discriminate|].
  destruct (writeAllLoop_spec data seg [] [] Hcl Hbn Hcbs Hall Hsum)
    as (newps & frames & bn' & cbs' & Hloop & Hbn' & Hcbs' & Hend & Hpl).
  rewrite Hloop in Hw. cbn [app] in Hw.
  unfold writeChunkBuffer in Hw. cbn [setCounters currentBlockSize fd startup] in Hw.
  destruct (cbs' >? blockSize) eqn:E; [lia|].
  unfold fileWrite in Hw.
  destruct (fhealthy (fd seg)); [|discriminate].
  injection Hw as <- <-.
  exists frames, bn', cbs'.
  split; [unfold setStartup, setFd, setCounters; cbn; rewrite Hcl; reflexivity|].
  repeat (split; [assumption|]). exact Hpl.
Qed.

Lemma pendMany_fields records : forall w,
  pendingWrites (pendMany w records) = pendingWrites w ++ map fst records
  /\ pendingNonceWrites (pendMany w records)
     = pendingNonceWrites w ++ map snd records
  /\ activeSegment (pendMany w records) = activeSegment w
  /\ olderSegments (pendMany w records) = olderSegments w
  /\ options (pendMany w records) = options w
  /\ nonceFile_ (pendMany w records) = nonceFile_ w
  /\ dataDir (pendMany w records) = dataDir w
  /\ bytesWrite (pendMany w records) = bytesWrite w
  /\ (Forall (fun r => len (fst r) < 2 ^ 31) records ->
      0 <= pendingSize w -> pendingSize w + batchSize records < 2 ^ 62 ->
      pendingSize (pendMany w records) = pendingSize w + batchSize records).
Proof.
  induction records as [|[d n] records IH]; intros w.
  - cbn. rewrite !app_nil_r. repeat (split; [reflexivity|]). intros; lia.
  - cbn [pendMany fold_left fst snd map].
    fold (pendMany (PendingWrites w d n) records).
    destruct (IH (PendingWrites w d n)) as (H1 & H2 & H3 & H4 & H5 & H6 & H7 & H8 & H9).
    rewrite H1, H2, H3, H4, H5, H6, H7, H8.
    unfold PendingWrites at 1 2 3 4 5 6 7 8. unfold setPending.
    cbn [pendingWrites pendingNonceWrites activeSegment olderSegments options
         nonceFile_ dataDir bytesWrite].
    rewrite <- !app_assoc. cbn [app].
    repeat (split; [reflexivity|]).
    intros Hall Hp0 Hsum.
    inversion Hall as [|r rs HD Hall' Heq]; subst. cbn [fst] in HD.
    cbn [batchSize foldr fst] in Hsum |- *. fold (batchSize records) in Hsum |- *.
    pose proof (len_nonneg d) as HD0.
    assert (Hb0 : 0 <= batchSize records).
    { clear -Hall'. induction Hall' as [|r rs HD _ IH]; cbn [batchSize foldr]; [lia|].
      fold (batchSize rs). pose proof (len_nonneg (fst r)).
      rewrite maxDataWriteSize_small by lia. unfold blockSize, KB. lia. }
    assert (Hm := maxDataWriteSize_small (len d) ltac:(lia)).
    assert (Hm0 : 0 <= maxDataWriteSize (len d))
      by (rewrite Hm; unfold blockSize, KB; lia).
    rewrite H9; [| exact Hall' | |].
    + unfold PendingWrites, setPending. cbn [pendingSize].
      rewrite i64_id; [lia|].
      change (2 ^ 62) with 4611686018427387904 in Hsum.
      change (2 ^ 63) with 9223372036854775808. lia.
    + unfold PendingWrites, setPending. cbn [pendingSize].
      rewrite i64_id; [lia|].
      change (2 ^ 62) with 4611686018427387904 in Hsum.
      change (2 ^ 63) with 9223372036854775808. lia.
    + unfold PendingWrites, setPending. cbn [pendingSize].
      rewrite i64_id; [lia|].
      change (2 ^ 62) with 4611686018427387904 in Hsum.
      change (2 ^ 63) with 9223372036854775808. lia.
Qed.

Lemma batchSize_sumMax records : batchSize records = sumMax (map fst records).
Proof.
  induction records as [|r records IH]; [reflexivity|].
  cbn [batchSize sumMax foldr map]. fold (batchSize records).
  fold (sumMax (map fst records)). rewrite IH. reflexivity.
Qed.

Lemma len_concat_nonces (ns : list (list Z)) :
  Forall (fun n : list Z => len n = nonceSize) ns ->
  len (concat ns) = nonceSize * len ns.
Proof.
  induction 1 as [|n ns Hn _ IH]; [reflexivity|].
  cbn [concat]. rewrite len_app, len_cons, Hn, IH. lia.
Qed.

Lemma slice_concat_lookup (ns : list (list Z)) :
  Forall (fun n : list Z => len n = nonceSize) ns ->
  forall (i : nat) n pre, ns !! i = Some n ->
    slice (pre ++ concat ns) (len pre + nonceSize * Z.of_nat i)
          (len pre + nonceSize * Z.of_nat i + nonceSize) = n.
Proof.
  induction 1 as [|n0 ns Hn0 _ IH]; intros i n pre Hi; [discriminate|].
  destruct i as [|i]; cbn [lookup list_lookup concat] in Hi |- *.
  - injection Hi as <-.
    apply slice_app_mid; [lia|rewrite Hn0; lia].
  - specialize (IH i n (pre ++ n0) Hi).
    rewrite len_app, Hn0, <- app_assoc in IH.
    replace (len pre + nonceSize * Z.of_nat (S i))
      with (len pre + nonceSize + nonceSize * Z.of_nat i) by lia.
    exact IH.
Qed.

Lemma stampFrom_lookup positions : forall k (i : nat) p,
  stampFrom k positions !! i = Some p ->
  exists p0, positions !! i = Some p0 /\ p = setValueNum p0 (k + Z.of_nat i).
Proof.
  induction positions as [|q positions IH]; intros k i p Hp; [discriminate|].
  destruct i as [|i]; cbn [stampFrom lookup list_lookup] in Hp |- *.
  - injection Hp as <-. exists q. split; [reflexivity|]. f_equal. lia.
  - destruct (IH (k + 1) i p Hp) as (p0 & H0 & ->).
    exists p0. split; [exact H0|]. f_equal. lia.
Qed.

(** What a batch leaves behind: the segment's [writeAll] followed by the
    nonce file's, on a nonce file that accepts writes. *)
Lemma batch_stored w1 w' ds ns seg' ps0 :
  walInv 0 w1 ->
  Size (activeSegment w1) + 2 * sumMax ds < 2 ^ 46 ->
  Forall (fun d : list Z => len d < 2 ^ 31) ds ->
  Forall (fun n : list Z => len n = nonceSize) ns ->
  length ns = length ds ->
  fhealthy (nfd (nonceFile_ w1)) = true ->
  curNum (nonceFile_ w1) + len ns < 2 ^ 59 ->
  segWriteAll (activeSegment w1) ds = (seg', Ok ps0) ->
  activeSegment w' = seg' ->
  nonceFile_ w' = fst (fst (nonceWriteAll (nonceFile_ w1) ns [] ps0)) ->
  exists positions,
    nonceWriteAll (nonceFile_ w1) ns [] ps0 = (nonceFile_ w', positions, Ok tt)
    /\ length positions = length ds
    /\ forall (i : nat) d n p,
         ds !! i = Some d -> ns !! i = Some n -> positions !! i = Some p ->
         ValueNum p = curNum (nonceFile_ w1) + Z.of_nat i
         /\ stored w' p d n.
Proof.
  intros Hinv Hsum Hds Hns Hlen Hh Hcur Hsw Hact Hnf.
  destruct Hinv as (Hbn & Hcbs & Hfl & _ & Hsb & _ & _ & Hnl & Hc0 & _ & Hi0 & _).
  destruct (segWriteAll_spec _ _ _ _ Hbn Hcbs Hds Hsum Hsw)
    as (frames & bn' & cbs' & Hseg' & Hbn' & Hcbs' & Hend & Hpl).
  pose proof (Forall2_length _ _ _ Hpl) as Hlps.
  assert (Hnw := nonceWriteAll_ok ns (nonceFile_ w1) [] ps0 Hh
                   ltac:(lia) Hc0
                   ltac:(change (2 ^ 59) with 576460752303423488 in Hcur;
                         change (2 ^ 63) with 9223372036854775808; lia)).
  rewrite Hnw in Hnf. cbn [fst app] in Hnf, Hnw.
  exists (stampFrom (curNum (nonceFile_ w1)) ps0).
  split; [rewrite Hnf; exact Hnw|].
  split.
  { assert (Hl : length (map ValueNum (stampFrom (curNum (nonceFile_ w1)) ps0))
                 = length ps0)
      by (rewrite stampFrom_ValueNum, length_map, length_seq; reflexivity).
    rewrite length_map in Hl. lia. }
  intros i d n p Hd Hn Hp.
  destruct (stampFrom_lookup _ _ _ _ Hp) as (p0 & Hp0 & ->).
  cbn [ValueNum setValueNum]. split; [reflexivity|].
  pose proof (Forall2_lookup_lr _ _ _ _ _ _ Hpl Hd Hp0)
    as (Hid & Hv & HB & Hc & pre & log & post & Hfr & Hch & Hoff).
  pose proof (lookup_lt_Some _ _ _ Hn) as Hilt.
  assert (HD : len d < 2 ^ 31)
    by (apply (Forall_lookup_1 _ _ _ _ Hds Hd)).
  exists seg'. rewrite Hact, Hnf, Hseg'.
  cbn [SegmentId BlockNumber ChunkOffset ValueNum setValueNum id nfd closed fd
       fbytes startup sbBlock sbBlockNumber].
  rewrite Hid, Z.eqb_refl.
  split; [reflexivity|]. split; [lia|]. split; [reflexivity|].
  split.
  { unfold Size. cbn [currentBlockNumber currentBlockSize]. rewrite len_app, Hfl. lia. }
  split; [exact Hsb|]. split; [reflexivity|].
  split.
  { exists (fbytes (fd (activeSegment w1)) ++ pre), log, post.
    split; [exact Hch|]. cbn [fd fbytes].
    split; [rewrite Hfr, <- !app_assoc; reflexivity|].
    rewrite len_app, Hfl. exact Hoff. }
  split; [exact HB|]. split; [exact Hc|]. split; [exact HD|].
  unfold len in Hcur.
  split; [lia|].
  rewrite len_app, (len_concat_nonces ns Hns), Hnl.
  split; [unfold nonceSize, len; lia|].
  split.
  - pose proof (slice_concat_lookup ns Hns i n (fbytes (nfd (nonceFile_ w1))) Hn) as Hs.
    rewrite Hnl in Hs.
    replace (nonceSize * (curNum (nonceFile_ w1) + Z.of_nat i))
      with (nonceSize * curNum (nonceFile_ w1) + nonceSize * Z.of_nat i) by lia.
    exact Hs.
  - apply (Forall_lookup_1 _ _ _ _ Hns Hn).
Qed.

(** X9.  A batch can be read back.  Records queued with [PendingWrites] on a
    consistent WAL whose nonce file accepts writes, each below 2 GiB and
    with a 12-byte nonce: when [WriteAll] succeeds it returns one position
    per record, numbered from [curNum] on in the order of queueing, and
    [Read] at each position gives back the data and the nonce of that
    record; the pending lists are empty afterwards. *)
Theorem WriteAll_readable pool w records w' positions :
  walInv (len records + 1) w ->
  SegmentSize (options w) <= 2 ^ 43 ->
  pendingWrites w = [] -> pendingNonceWrites w = [] -> pendingSize w = 0 ->
  fhealthy (nfd (nonceFile_ w)) = true ->
  Forall (fun r => len (fst r) < 2 ^ 31 /\ len (snd r) = nonceSize) records ->
  batchSize records < 2 ^ 62 ->
  WriteAll (pendMany w records) = (w', Ok positions) ->
  length positions = length records
  /\ pendingWrites w' = [] /\ pendingNonceWrites w' = []
  /\ forall (i : nat) data nonce p,
       records !! i = Some (data, nonce) -> positions !! i = Some p ->
       ValueNum p = curNum (nonceFile_ w) + Z.of_nat i
       /\ snd (Read pool w' p) = Ok (data, nonce).
Proof.
  intros Hinv Hss Hpw0 Hpn0 Hps0 Hh Hall Hbs Hw.
  assert (Hds : Forall (fun d : list Z => len d < 2 ^ 31) (map fst records)).
  { apply Forall_map. eapply Forall_impl; [exact Hall|]. intros r [H _]. exact H. }
  assert (Hns : Forall (fun n : list Z => len n = nonceSize) (map snd records)).
  { apply Forall_map. eapply Forall_impl; [exact Hall|]. intros r [_ H]. exact H. }
  assert (Hall1 : Forall (fun r => len (fst r) < 2 ^ 31) records).
  { eapply Forall_impl; [exact Hall|]. intros r [H _]. exact H. }
  destruct (pendMany_fields records w)
    as (Hpw & Hpn & Hact & Hold & Hopt & Hnf & Hdir & Hbw & Hps).
  rewrite Hpw0 in Hpw. rewrite Hpn0 in Hpn. cbn [app] in Hpw, Hpn.
  rewrite Hps0 in Hps. specialize (Hps Hall1 ltac:(lia) ltac:(lia)).
  rewrite Z.add_0_l in Hps.
  pose proof (sumMax_nonneg _ Hds) as Hsm0.
  rewrite batchSize_sumMax in Hps, Hbs.
  set (w0 := pendMany w records) in *.
  assert (Hinv0 : walInv (len records + 1) w0).
  { unfold walInv. rewrite Hact, Hopt, Hnf, Hdir. exact Hinv. }
  unfold WriteAll in Hw. rewrite Hpw in Hw.
  destruct (len (map fst records) =? 0) eqn:Eempty.
  { injection Hw as <- <-.
    assert (records = []) as ->.
    { destruct records; [reflexivity|]. cbn [map] in Eempty.
      rewrite len_cons in Eempty. pose proof (len_nonneg (map fst records)). lia. }
    split; [reflexivity|]. split; [exact Hpw|]. split; [exact Hpn|].
    intros i data nonce p Hr. discriminate. }
  rewrite Hps, Hopt in Hw.
  destruct (sumMax (map fst records) >? SegmentSize (options w)) eqn:Ebig;
    [discriminate|].
  pose proof (len_nonneg records) as Hl0.
  assert (Hw1 : exists w1,
    walInv 0 w1
    /\ Size (activeSegment w1) + 2 * sumMax (map fst records) < 2 ^ 46
    /\ fhealthy (nfd (nonceFile_ w1)) = true
    /\ curNum (nonceFile_ w1) = curNum (nonceFile_ w)
    /\ pendingWrites w1 = map fst records
    /\ pendingNonceWrites w1 = map snd records
    /\ match segWriteAll (activeSegment w1) (pendingWrites w1) with
       | (seg, Ok positions) =>
           let w := setActive w1 seg in
           match nonceWriteAll (nonceFile_ w) (pendingNonceWrites w) [] positions with
           | (nf, positions, Panic) => (ClearPendingWrites (setNonceFile w nf), Panic)
           | (nf, positions, _) =>
               (ClearPendingWrites (setNonceFile w nf), Ok positions)
           end
       | (seg, Err e) => (ClearPendingWrites (setActive w1 seg), Err e)
       | (seg, Panic) => (ClearPendingWrites (setActive w1 seg), Panic)
       | (seg, NoFuel) => (ClearPendingWrites (setActive w1 seg), NoFuel)
       end = (w', Ok positions)).
  { change (2 ^ 43) with 8796093022208 in Hss.
    change (2 ^ 46) with 70368744177664.
    destruct (i64 (Size (activeSegment w0) + sumMax (map fst records))
                >? SegmentSize (options w)) eqn:Efull.
    - destruct (rotateActiveSegment w0) as [w1 [e|]] eqn:Hrot; [discriminate|].
      exists w1.
      destruct (rotate_walInv (len records) w0 w1 Hl0 Hinv0 Hrot)
        as (Hinv1 & Hcn & _ & Hsz1 & _).
      destruct (rotate_inv _ _ Hrot)
        as (_ & nfS & _ & Hnsy & _ & _ & Hnf1 & _ & _ & _ & Hp1 & Hp2 & _).
      apply nonceSync_inv in Hnsy as (fn & -> & _ & _ & Hhf).
      split; [apply (walInv_mono (len records)); [lia|exact Hinv1]|].
      change (2 ^ 45) with 35184372088832 in Hsz1.
      split; [lia|].
      split; [rewrite Hnf1; cbn [nfd]; rewrite Hhf, Hnf; exact Hh|].
      split; [rewrite Hcn, Hnf; reflexivity|].
      split; [rewrite Hp1; exact Hpw|]. split; [rewrite Hp2; exact Hpn|exact Hw].
    - exists w0.
      split; [apply (walInv_mono (len records + 1)); [lia|exact Hinv0]|].
      destruct Hinv0 as (Hbn & Hcbs & _ & Hsz & _).
      assert (0 <= Size (activeSegment w0)) by (unfold Size, blockSize, KB in *; lia).
      change (2 ^ 45) with 35184372088832 in Hsz.
      change (2 ^ 32) with 4294967296 in Hsz.
      rewrite i64_id in Efull
        by (change (2 ^ 63) with 9223372036854775808;
            change (2 ^ 62) with 4611686018427387904 in Hbs; lia).
      split; [lia|]. split; [rewrite Hnf; exact Hh|].
      split; [rewrite Hnf; reflexivity|].
      split; [exact Hpw|]. split; [exact Hpn|exact Hw]. }
  clear Hw. destruct Hw1 as (w1 & Hinv1 & Hsz1 & Hh1 & Hcn1 & Hpw1 & Hpn1 & Hw).
  rewrite Hpw1 in Hw.
  destruct (segWriteAll (activeSegment w1) (map fst records)) as [seg' [ps0|e| |]] eqn:Hsw;
    try discriminate.
  cbv zeta in Hw. cbn [nonceFile_ pendingNonceWrites setActive] in Hw.
  rewrite Hpn1 in Hw.
  assert (Hcur : curNum (nonceFile_ w1) + len (map snd records) < 2 ^ 59).
  { rewrite Hcn1. unfold len. rewrite length_map. fold (len records).
    destruct Hinv as (_ & _ & _ & _ & _ & _ & _ & _ & _ & Hc & _). lia. }
  destruct (batch_stored w1
              (setNonceFile (setActive w1 seg')
                 (fst (fst (nonceWriteAll (nonceFile_ w1) (map snd records) [] ps0))))
              (map fst records) (map snd records) seg' ps0
              Hinv1 Hsz1 Hds Hns ltac:(rewrite !length_map; reflexivity) Hh1 Hcur Hsw
              eq_refl eq_refl)
    as (positions' & Hnw & Hlen & Hst).
  cbn [nonceFile_ setNonceFile] in Hnw. rewrite Hnw in Hw.
  injection Hw as <- <-.
  split; [rewrite Hlen, length_map; reflexivity|].
  split; [reflexivity|]. split; [reflexivity|].
  intros i data nonce p Hr Hp.
  assert (Hd : map fst records !! i = Some data)
    by (rewrite list_lookup_fmap, Hr; reflexivity).
  assert (Hn : map snd records !! i = Some nonce)
    by (rewrite list_lookup_fmap, Hr; reflexivity).
  destruct (Hst i data nonce p Hd Hn Hp) as [Hv Hs].
  split; [rewrite Hv, Hcn1; reflexivity|].
  apply stored_Read.
  destruct Hs as (seg & Hs). exists seg. exact Hs.
Qed.

Lemma WriteAll_readable_witness :
  ValueNum (mkPos 1 0 9 8 1) = curNum (nonceFile_ (freshWAL DefaultOptions)) + Z.of_nat 1
  /\ snd (Read [] (fst (WriteAll (pendMany (freshWAL DefaultOptions)
                                    [([70; 71], nonceB); ([72], nonceA)])))
              (mkPos 1 0 9 8 1))
     = Ok ([72], nonceA).
Proof.
  apply (proj2 (proj2 (proj2
           (WriteAll_readable [] (freshWAL DefaultOptions)
              [([70; 71], nonceB); ([72], nonceA)]
              (fst (WriteAll (pendMany (freshWAL DefaultOptions)
                                [([70; 71], nonceB); ([72], nonceA)])))
              [mkPos 1 0 0 9 0; mkPos 1 0 9 8 1]
              ltac:(apply walInv_fresh;
                    [vm_compute; discriminate|vm_compute; discriminate
                    |vm_compute; reflexivity])
              ltac:(vm_compute; discriminate)
              eq_refl eq_refl eq_refl eq_refl
              ltac:(repeat constructor)
              ltac:(vm_compute; reflexivity)
              ltac:(apply with_fst; vm_compute; reflexivity))))
           1%nat [72] nonceA (mkPos 1 0 9 8 1) eq_refl eq_refl).
Defined.

(** ** Iteration *)

(** Reading a record whose chunks are in the file: the data, and the
    cursor of the record that follows. *)
Lemma readChunks_chain_next seg segSize log : forall first c data B pre post acc sbn block fuel,
  chain first c log data ->
  fbytes (fd seg) = pre ++ concat (map chunkBytes log) ++ post ->
  len pre = B * blockSize + c ->
  0 <= B -> B + len log < 2 ^ 32 -> 0 <= c ->
  B * blockSize + c + len (concat (map chunkBytes log)) <= segSize ->
  segSize <= len (fbytes (fd seg)) ->
  len block = blockSize ->
  (isStartupTraversal seg = true -> sbn < B) ->
  (length log <= fuel)%nat ->
  exists sbn' block',
    readChunks fuel seg sbn block segSize B c acc
    = (sbn', block',
       Ok (acc ++ data,
           mkPos (id seg)
             (fst (cursorAt (len pre + len (concat (map chunkBytes log)))))
             (snd (cursorAt (len pre + len (concat (map chunkBytes log)))))
             0 0)).
Proof.
  induction log as [|ck rest IH];
    intros first c data B pre post acc sbn block fuel
           Hch HF Hpre HB HBn Hc Hseg HsegF Hblock Hsbn Hfuel;
    [contradiction|].
  destruct fuel as [|fuel]; [cbn in Hfuel; lia|].
  cbn [map concat] in HF, Hseg |- *. rewrite <- app_assoc in HF.
  rewrite len_app, len_chunkBytes in Hseg |- *.
  pose proof (len_nonneg (concat (map chunkBytes rest))) as Hnn.
  pose proof (len_nonneg (ckPayload ck)) as Hpl0.
  destruct Hch as (Hoff & Hfit & Hch).
  destruct (readChunks_step fuel seg sbn block segSize B c acc ck pre
              (concat (map chunkBytes rest) ++ post))
    as (block' & Hblock' & Heq); try assumption; try lia.
  all: try (unfold chunkHeaderSize in *; lia).
  all: try (intros Hs; specialize (Hsbn Hs); lia).
  rewrite Heq. cbv zeta.
  destruct rest as [|ck' rest'].
  - destruct Hch as (Hty & <-).
    assert (Hflag : (ckType ck =? ChunkTypeFull) || (ckType ck =? ChunkTypeLast) = true)
      by (rewrite Hty; destruct first; reflexivity).
    rewrite Hflag. eexists _, _. f_equal. f_equal. f_equal.
    cbn [map concat]. change (len []) with 0.
    rewrite Hpre. unfold cursorAt, nextStart.
    change (2 ^ 32) with 4294967296 in HBn.
    rewrite len_cons in HBn. change (len []) with 0 in HBn.
    unfold chunkHeaderSize, blockSize, KB in *.
    destruct (Z.eq_dec (c + 7 + len (ckPayload ck)) (32 * 1024)) as [Hend|Hend].
    + assert (Hd : (B * (32 * 1024) + c + (7 + len (ckPayload ck) + 0)) / (32 * 1024)
                   = B + 1) by lia.
      assert (Hm : (B * (32 * 1024) + c + (7 + len (ckPayload ck) + 0)) mod (32 * 1024)
                   = 0) by lia.
      rewrite Hd, Hm.
      destruct (c + 7 + len (ckPayload ck) + 7 >=? 32 * 1024) eqn:E1; [|lia].
      destruct (0 + 7 >=? 32 * 1024) eqn:E2; [lia|]. cbn [fst snd].
      unfold u32. rewrite Z.mod_small by (change (2 ^ 32) with 4294967296; lia).
      reflexivity.
    + assert (Hd : (B * (32 * 1024) + c + (7 + len (ckPayload ck) + 0)) / (32 * 1024)
                   = B) by lia.
      assert (Hm : (B * (32 * 1024) + c + (7 + len (ckPayload ck) + 0)) mod (32 * 1024)
                   = c + 7 + len (ckPayload ck)) by lia.
      rewrite Hd, Hm.
      destruct (c + 7 + len (ckPayload ck) + 7 >=? 32 * 1024) eqn:E1; cbn [fst snd].
      * unfold u32. rewrite Z.mod_small by (change (2 ^ 32) with 4294967296; lia).
        reflexivity.
      * reflexivity.
  - destruct Hch as (Hty & Hfull & Htake & Hrest).
    assert (Hflag : (ckType ck =? ChunkTypeFull) || (ckType ck =? ChunkTypeLast) = false)
      by (rewrite Hty; destruct first; reflexivity).
    rewrite Hflag.
    assert (HlenS : len (ck :: ck' :: rest') = 1 + len (ck' :: rest'))
      by (unfold len; cbn [length]; lia).
    assert (Hu : u32 (B + 1) = B + 1).
    { unfold u32. apply Z.mod_small. pose proof (len_nonneg (ck' :: rest')). lia. }
    rewrite Hu.
    destruct (IH false 0 (drop (length (ckPayload ck)) data) (B + 1)
                (pre ++ chunkBytes ck) post (acc ++ ckPayload ck)
                (if isStartupTraversal seg then B else sbn) block' fuel)
      as (sbn' & block'' & Hr); try assumption; try lia.
    + rewrite <- app_assoc. exact HF.
    + rewrite len_app, len_chunkBytes. unfold chunkHeaderSize, blockSize, KB in *. lia.
    + unfold chunkHeaderSize, blockSize, KB in *. lia.
    + intros ->. lia.
    + cbn [length] in Hfuel |- *. lia.
    + rewrite Hr. exists sbn', block''.
      rewrite len_app, len_chunkBytes.
      replace (len pre + (7 + len (ckPayload ck)) + len (concat (map chunkBytes (ck' :: rest'))))
        with (len pre + (7 + len (ckPayload ck) + len (concat (map chunkBytes (ck' :: rest')))))
        by lia.
      rewrite <- app_assoc, <- Htake at 1. rewrite take_drop. reflexivity.
Qed.

Lemma cursorAt_range off :
  0 <= off ->
  0 <= fst (cursorAt off) <= off / blockSize + 1
  /\ 0 <= snd (cursorAt off) /\ snd (cursorAt off) + chunkHeaderSize < blockSize
  /\ off <= fst (cursorAt off) * blockSize + snd (cursorAt off) <= off + chunkHeaderSize.
Proof.
  intros Hoff. unfold cursorAt, nextStart, chunkHeaderSize, blockSize, KB.
  destruct (_ >=? _) eqn:E; cbn [fst snd]; lia.
Qed.

(** The segment reader at the start of a stored record, outside startup
    traversal: it yields the record and moves to the cursor after it. *)
Lemma segReaderNext_item pool seg B c d pre log post :
  isStartupTraversal seg = false -> closed seg = false ->
  Size seg = len (fbytes (fd seg)) ->
  chain true c log d ->
  fbytes (fd seg) = pre ++ concat (map chunkBytes log) ++ post ->
  len pre = B * blockSize + c ->
  0 <= B < 2 ^ 31 + 1 -> 0 <= c -> len d < 2 ^ 31 ->
  let next := cursorAt (len pre + len (concat (map chunkBytes log))) in
  segReaderNext pool (mkSegmentReader seg B c)
  = (mkSegmentReader seg (fst next) (snd next),
     Ok (d, mkPos (id seg) B c
              (u32 (fst next * blockSize + u32 (snd next)
                    - (B * blockSize + u32 c))) 0)).
Proof.
  intros Hst Hclosed Hsize Hch HF Hpre HB Hc HD next.
  change (2 ^ 31) with 2147483648 in *.
  pose proof (chain_span _ _ _ _ Hch Hc) as (Hlo & Hhi).
  pose proof (chain_count _ _ _ _ Hch) as Hcnt.
  pose proof (len_nonneg log) as Hl0.
  pose proof (len_nonneg d) as Hd0.
  pose proof (len_nonneg post) as Hp0.
  assert (HlenF : len (fbytes (fd seg)) =
                  B * blockSize + c + len (concat (map chunkBytes log)) + len post).
  { rewrite HF, !len_app. lia. }
  unfold segReaderNext. cbn [rdSegment rdBlockNumber rdChunkOffset].
  rewrite Hclosed. unfold readInternal. rewrite Hclosed, Hst.
  set (block := if negb (len (getBuffer pool) =? blockSize)
                then repeat 0 (Z.to_nat blockSize) else getBuffer pool).
  assert (Hblock : len block = blockSize).
  { subst block.
    destruct (len (getBuffer pool) =? blockSize) eqn:E; cbn [negb]; [lia|].
    rewrite len_repeat. unfold blockSize, KB. lia. }
  destruct (readChunks_chain_next seg (Size seg) log true c d B pre post []
              (sbBlockNumber (startup seg)) block (readFuel seg))
    as (sbn' & block' & Hr); try assumption; try lia.
  - change (2 ^ 32) with 4294967296.
    unfold blockSize, chunkHeaderSize, KB in *. lia.
  - rewrite Hst. discriminate.
  - unfold readFuel. rewrite Hsize, HlenF.
    assert (len log - 1 <= (B * blockSize + c + len (concat (map chunkBytes log)) + len post) / blockSize).
    { apply Z.div_le_lower_bound; unfold blockSize, KB in *; nia. }
    unfold len in *. lia.
  - rewrite Hr. cbn [app BlockNumber ChunkOffset]. reflexivity.
Qed.

(** The segment reader at the cursor after the last record: [io.EOF]. *)
Lemma segReaderNext_eof pool seg :
  isStartupTraversal seg = false -> closed seg = false ->
  0 <= Size seg ->
  segReaderNext pool
    (mkSegmentReader seg (fst (cursorAt (Size seg))) (snd (cursorAt (Size seg))))
  = (mkSegmentReader seg (fst (cursorAt (Size seg))) (snd (cursorAt (Size seg))),
     Err EOF).
Proof.
  intros Hst Hclosed Hsz.
  unfold segReaderNext. cbn [rdSegment rdBlockNumber rdChunkOffset].
  rewrite Hclosed. unfold readInternal. rewrite Hclosed, Hst.
  unfold readFuel. cbn [readChunks].
  set (off := Size seg) in *.
  assert (Heof : (snd (cursorAt off) >=?
                  (if blockSize + fst (cursorAt off) * blockSize >? off
                   then off - fst (cursorAt off) * blockSize else blockSize)) = true).
  { unfold cursorAt, nextStart, chunkHeaderSize, blockSize, KB.
    destruct (off mod (32 * 1024) + 7 >=? 32 * 1024) eqn:E; cbn [fst snd].
    - destruct (_ >? off) eqn:E2; lia.
    - destruct (_ >? off) eqn:E2; lia. }
  rewrite Heof. reflexivity.
Qed.

Lemma cursorAt_Size seg :
  0 <= currentBlockNumber seg -> 0 <= currentBlockSize seg < blockSize ->
  cursorAt (Size seg) = nextStart (currentBlockNumber seg) (currentBlockSize seg).
Proof.
  intros Hbn Hcbs. unfold cursorAt, Size.
  assert ((currentBlockNumber seg * blockSize + currentBlockSize seg) / blockSize
          = currentBlockNumber seg) as -> by (unfold blockSize, KB in *; lia).
  assert ((currentBlockNumber seg * blockSize + currentBlockSize seg) mod blockSize
          = currentBlockSize seg) as -> by (unfold blockSize, KB in *; lia).
  reflexivity.
Qed.

(** Appending a record to a file keeps the records it held and adds the
    new one after them. *)
Lemma segHolds_write file d log items : forall off,
  chain true (snd (cursorAt (len file))) log d -> len d < 2 ^ 31 ->
  segHolds file off items ->
  segHolds
    (file
     ++ repeat 0 (Z.to_nat (fst (cursorAt (len file)) * blockSize
                            + snd (cursorAt (len file)) - len file))
     ++ concat (map chunkBytes log))
    off (items ++ [(d, cursorAt (len file))]).
Proof.
  intros off Hch HD. revert off.
  pose proof (cursorAt_range (len file) (len_nonneg file)) as (_ & _ & _ & Hr).
  induction items as [|[d0 bc0] items IH]; intros off H.
  - cbn [segHolds] in H. subst off. cbn [app segHolds].
    split; [reflexivity|]. split; [exact HD|].
    exists (file ++ repeat 0 (Z.to_nat (fst (cursorAt (len file)) * blockSize
                                        + snd (cursorAt (len file)) - len file))),
           log, [].
    split; [exact Hch|].
    split; [rewrite app_nil_r, <- app_assoc; reflexivity|].
    split; [rewrite len_app, len_repeat; lia|].
    rewrite <- len_app, <- app_assoc. reflexivity.
  - cbn [app segHolds] in H |- *.
    destruct H as (Hbc & HD0 & pre & log0 & post & Hch0 & Hfile & Hpre & Hrest).
    split; [exact Hbc|]. split; [exact HD0|].
    exists pre, log0,
      (post ++ repeat 0 (Z.to_nat (fst (cursorAt (len file)) * blockSize
                                   + snd (cursorAt (len file)) - len file))
            ++ concat (map chunkBytes log)).
    split; [exact Hch0|].
    split; [rewrite Hfile at 1; rewrite <- !app_assoc; reflexivity|].
    split; [exact Hpre|]. apply IH. exact Hrest.
Qed.

(** *** Sorting the segment readers *)

Lemma insertReader_perm r l : insertReader r l ≡ₚ r :: l.
Proof.
  induction l as [|x l IH]; cbn [insertReader]; [reflexivity|].
  destruct (_ <? _); [reflexivity|].
  rewrite IH. apply Permutation_swap.
Qed.

Lemma insertReader_sorted r l :
  StronglySorted ltId l ->
  Forall (fun x => id (rdSegment x) <> id (rdSegment r)) l ->
  StronglySorted ltId (insertReader r l).
Proof.
  induction 1 as [|x l Hs IH Hx]; intros Hne; cbn [insertReader].
  - repeat constructor.
  - inversion Hne as [|? ? Hxr Hne']; subst.
    destruct (id (rdSegment r) <? id (rdSegment x)) eqn:E.
    + constructor; [constructor; assumption|].
      constructor; [unfold ltId; lia|].
      eapply Forall_impl; [exact Hx|]. unfold ltId. intros y Hy. lia.
    + constructor; [apply IH; exact Hne'|].
      rewrite insertReader_perm. constructor; [unfold ltId; lia|exact Hx].
Qed.

(** [sort.Slice] by segment id: of readers with distinct ids it makes the
    one ascending list. *)
Lemma sortReaders_sorted l l0 :
  l ≡ₚ l0 -> StronglySorted ltId l0 -> sortReaders l = l0.
Proof.
  intros Hp Hs0.
  assert (Hnd : forall l, NoDup (map (fun x => id (rdSegment x)) l) ->
                sortReaders l ≡ₚ l /\ StronglySorted ltId (sortReaders l)).
  { clear. induction l as [|x l IH]; intros Hnd; cbn [sortReaders foldr].
    - split; [reflexivity|constructor].
    - cbn [map] in Hnd. apply NoDup_cons in Hnd as [Hx Hnd].
      destruct (IH Hnd) as [Hp Hs]. fold (sortReaders l).
      split; [rewrite insertReader_perm, Hp; reflexivity|].
      apply insertReader_sorted; [exact Hs|].
      rewrite Hp. apply Forall_forall. intros y Hy Heq.
      apply Hx. rewrite <- Heq. apply list_elem_of_fmap. exists y. split; [reflexivity|].
      exact Hy. }
  assert (Hnd0 : NoDup (map (fun x => id (rdSegment x)) l0)).
  { clear -Hs0. induction Hs0 as [|x l Hs IH Hx]; cbn [map]; constructor; [|exact IH].
    intros Hin. apply list_elem_of_fmap in Hin as (y & Hy & Hin).
    rewrite Forall_forall in Hx.
    specialize (Hx y Hin). unfold ltId in Hx. lia. }
  assert (Hndl : NoDup (map (fun x => id (rdSegment x)) l)).
  { rewrite Hp. exact Hnd0. }
  destruct (Hnd l Hndl) as [Hpl Hsl].
  apply (StronglySorted_unique_strong ltId); try assumption.
  - intros x1 x2 _ _ H1 H2. unfold ltId in *. lia.
  - rewrite Hpl. exact Hp.
Qed.

(** *** The log of a WAL *)

Lemma walLog_fresh o : walLog (freshWAL o) [].
Proof.
  exists [], [[]].
  unfold freshWAL.
  cbn [olderSegments activeSegment dataDir dirFiles nonceFile_ app].
  rewrite map_to_list_empty.
  split; [reflexivity|].
  split; [intros k seg H; rewrite lookup_empty in H; discriminate|].
  split; [repeat constructor|].
  split.
  { constructor; [|constructor].
    unfold segGood, openSegmentFile. cbn. repeat split; try reflexivity.
    constructor. }
  split; [reflexivity|].
  split; [reflexivity|].
  split; [reflexivity|].
  split; [constructor|].
  intros i it H. destruct i; discriminate.
Qed.

Lemma segGood_setFd seg f items :
  fbytes f = fbytes (fd seg) -> segGood seg items -> segGood (setFd seg f) items.
Proof.
  intros Hf (Hc & Hs & Hsz & Hlt & Hh & Hid).
  unfold segGood, setFd, Size in *.
  cbn [closed isStartupTraversal fd id currentBlockNumber currentBlockSize].
  rewrite Hf. auto 10.
Qed.

(** The ids of the older segments are below the id of the active one,
    so the active segment is not yet among them. *)
Lemma walLog_active_new w olds :
  map snd (map_to_list (olderSegments w)) ≡ₚ olds ->
  (forall k seg, olderSegments w !! k = Some seg -> id seg = k) ->
  StronglySorted (fun a b => id a < id b) (olds ++ [activeSegment w]) ->
  olderSegments w !! id (activeSegment w) = None.
Proof.
  intros Hp Hk Hs.
  destruct (olderSegments w !! id (activeSegment w)) as [seg|] eqn:E;
    [|reflexivity].
  exfalso.
  pose proof (Hk _ _ E) as Hid.
  assert (Hin : seg ∈ olds).
  { rewrite <- Hp. apply list_elem_of_fmap.
    exists (id (activeSegment w), seg). split; [reflexivity|].
    apply elem_of_map_to_list. exact E. }
  pose proof (StronglySorted_app_1_elem_of _ _ _ seg (activeSegment w) Hs Hin
                ltac:(apply list_elem_of_singleton; reflexivity)) as Hlt.
  cbv beta in Hlt. lia.
Qed.

(** A rotation keeps the log: the segment that was active joins the
    older ones, and the new active segment is empty. *)
Lemma rotate_walLog w w1 log :
  0 <= id (activeSegment w) -> id (activeSegment w) + 1 < 2 ^ 32 ->
  walLog w log ->
  rotateActiveSegment w = (w1, None) ->
  walLog w1 log.
Proof.
  intros Hi0 Hi (olds & dss & Hp & Hk & Hs & Hg & Hlog & Hdir & Hnb & Hn12 & Hvn) Hrot.
  destruct (rotate_inv _ _ Hrot)
    as (segS & nfS & Hss & Hns & Hact & Hold & Hnf & _ & _ & Hdir1 & _).
  apply segSync_inv in Hss as (f & -> & Hf & _).
  apply nonceSync_inv in Hns as (fn & -> & Hfn & _ & _).
  assert (Hu : u32 (id (activeSegment w) + 1) = id (activeSegment w) + 1).
  { unfold u32. apply Z.mod_small. lia. }
  rewrite Hu in Hact, Hdir1. rewrite Hdir, lookup_empty in Hact.
  pose proof (walLog_active_new w olds Hp Hk Hs) as Hnone.
  apply Forall2_app_inv_l in Hg as (dso & dsa & Hgo & Hga & ->).
  apply Forall2_cons_inv_l in Hga as (da & dn & Hga & Hnil & ->).
  apply Forall2_nil_inv_l in Hnil as ->.
  exists (olds ++ [setFd (activeSegment w) f]), (dso ++ [da] ++ [[]]).
  split.
  { rewrite Hold. rewrite map_to_list_insert by exact Hnone.
    cbn [map snd]. rewrite Hp. apply Permutation_cons_append. }
  split.
  { intros k seg. rewrite Hold. intros H.
    destruct (decide (k = id (activeSegment w))) as [->|Hne].
    - rewrite lookup_insert_eq in H. injection H as <-. reflexivity.
    - rewrite lookup_insert_ne in H by congruence. eapply Hk, H. }
  split.
  { rewrite Hact. apply StronglySorted_app in Hs as (Hx & Hso & _).
    apply StronglySorted_app_2.
    - intros x1 x2 H1 H2. apply list_elem_of_singleton in H2 as ->.
      unfold openSegmentFile. cbn [id].
      apply elem_of_app in H1 as [H1|H1].
      + specialize (Hx x1 (activeSegment w) H1
                       ltac:(apply list_elem_of_singleton; reflexivity)).
        cbv beta in Hx. lia.
      + apply list_elem_of_singleton in H1 as ->. cbn [setFd id]. lia.
    - apply StronglySorted_app_2; [|exact Hso|repeat constructor].
      intros x1 x2 H1 H2. apply list_elem_of_singleton in H2 as ->.
      cbn [setFd id]. apply (Hx x1 (activeSegment w) H1).
      apply list_elem_of_singleton. reflexivity.
    - repeat constructor. }
  split.
  { rewrite <- app_assoc. apply Forall2_app; [exact Hgo|].
    constructor; [apply segGood_setFd; assumption|].
    constructor; [|constructor].
    rewrite Hact. unfold segGood, openSegmentFile. cbn.
    repeat split; try reflexivity. constructor. }
  split.
  { rewrite Hlog, !concat_app. cbn [concat app]. rewrite !app_nil_r. reflexivity. }
  split; [rewrite Hdir1, Hdir; apply delete_empty|].
  rewrite Hnf. cbn [nfd]. rewrite Hfn. auto.
Qed.

(** A record written to the active segment joins the log at its end,
    at the position [writeRecord] returns. *)
Lemma writeRecord_walLog w data nonce w' pos log :
  walInv 0 w -> walInv 0 w' ->
  walLog w log ->
  len data < 2 ^ 31 -> len nonce = nonceSize ->
  writeRecord w data nonce = (w', Ok pos) ->
  walLog w' (log ++ [(data, nonce, pos)]).
Proof.
  intros Hinv Hinv' (olds & dss & Hp & Hk & Hs & Hg & Hlog & Hdir & Hnb & Hn12 & Hvn)
         HD Hnonce Hw.
  pose proof (walInv_segOk 0 w ltac:(lia) Hinv) as Hok.
  destruct Hinv as (Hbn & Hcbs & Hfile & _ & _ & _ & _ & Hnlen & Hcur0 & _).
  destruct Hinv' as (_ & _ & Hfile' & Hsz' & _).
  destruct (writeRecord_state w data nonce w' pos Hok HD Hw)
    as (lg & f & fn & vn & cn & Hch & Hpos & Hact & Hfb & Hpad & Hnf & Hcase
        & Hold & Hdir' & _).
  destruct Hcase as [(H0 & _)|(_ & Hfnb & Hcn & Hvn')];
    [unfold nonceSize in Hnonce; lia|].
  set (seg := activeSegment w) in *.
  pose proof (cursorAt_Size seg Hbn Hcbs) as Hcur.
  rewrite <- Hfile in Hcur.
  apply Forall2_app_inv_l in Hg as (dso & dsa & Hgo & Hga & ->).
  apply Forall2_cons_inv_l in Hga as (da & dn & Hga & Hnil & ->).
  apply Forall2_nil_inv_l in Hnil as ->.
  destruct Hga as (Hc & Hst & Hsz & Hlt & Hh & Hid).
  assert (Hcurnum : curNum (nonceFile_ w) = len log).
  { rewrite Hnb in Hnlen. rewrite len_concat_nonces in Hnlen.
    - unfold len in Hnlen |- *. rewrite length_map in Hnlen.
      unfold nonceSize in Hnlen. lia.
    - apply Forall_map. exact Hn12. }
  exists olds, (dso ++ [da ++ [(data, nonce, pos)]]).
  split; [rewrite Hold; exact Hp|].
  split; [rewrite Hold; exact Hk|].
  split.
  { apply StronglySorted_app in Hs as (Hx & Hso & _).
    apply StronglySorted_app_2; [|exact Hso|repeat constructor].
    intros x1 x2 H1 H2. apply list_elem_of_singleton in H2 as ->.
    rewrite Hact. cbn [id].
    apply (Hx x1 seg H1). apply list_elem_of_singleton. reflexivity. }
  split.
  { apply Forall2_app; [exact Hgo|]. constructor; [|constructor].
    unfold segGood. rewrite <- Hfile'.
    split; [rewrite Hact; reflexivity|].
    split; [rewrite Hact; cbn [isStartupTraversal]; exact Hst|].
    split; [reflexivity|].
    split; [rewrite Hfile'; change (2 ^ 46) with (2 * 2 ^ 45);
            change (2 ^ 32) with 4294967296 in Hsz';
            change (2 ^ 45) with 35184372088832 in *; lia|].
    split.
    - rewrite Hact. cbn [fd]. rewrite Hfb, map_app. cbn [map].
      unfold itemCursor at 2. cbn [fst snd]. rewrite Hpos.
      cbn [BlockNumber ChunkOffset].
      pose proof (segHolds_write (fbytes (fd seg)) data lg (map itemCursor da) 0) as H.
      rewrite Hcur in H. rewrite Hfile in H. cbv zeta in H.
      rewrite <- surjective_pairing.
      apply H; [exact Hch|exact HD|exact Hh].
    - rewrite Hact. cbn [id]. apply Forall_app. split; [exact Hid|].
      constructor; [|constructor]. cbn [snd]. rewrite Hpos. reflexivity. }
  split.
  { rewrite Hlog, !concat_app. cbn [concat]. rewrite !app_nil_r, app_assoc.
    reflexivity. }
  split; [rewrite Hdir'; exact Hdir|].
  split.
  { rewrite Hnf. cbn [nfd]. rewrite Hfnb, Hnb, map_app, concat_app.
    cbn [map concat fst snd]. rewrite app_nil_r. reflexivity. }
  split.
  { apply Forall_app. split; [exact Hn12|]. constructor; [exact Hnonce|constructor]. }
  intros i it Hit.
  apply lookup_app_Some in Hit as [Hit|(Hge & Hit)]; [apply Hvn; exact Hit|].
  destruct (i - length log)%nat as [|k] eqn:Ek; [|destruct k; discriminate].
  cbn in Hit. injection Hit as <-. cbn [snd]. rewrite Hpos. cbn [ValueNum].
  rewrite Hvn', Hcurnum. unfold len. lia.
Qed.

(** [Write] adds the record to the end of the log. *)
Lemma Write_walLog n w data nonce w' pos log :
  0 <= n -> walInv (n + 1) w ->
  walLog w log ->
  len data < 2 ^ 31 -> len nonce = nonceSize ->
  Write w data nonce = (w', Ok pos) ->
  walLog w' (log ++ [(data, nonce, pos)]).
Proof.
  intros Hn Hinv Hlog HD Hnonce Hw.
  pose proof (Write_walInv n w data nonce w' pos Hn Hinv HD (or_introl Hnonce) Hw)
    as Hinv'.
  destruct (Write_cases _ _ _ _ _ Hw) as (_ & w1 & Hcase & Hrec).
  destruct Hcase as [(_ & ->)|(_ & Hrot)].
  - apply (writeRecord_walLog w data nonce w' pos log); try assumption.
    + apply (walInv_mono (n + 1)); [lia|exact Hinv].
    + apply (walInv_mono n); [lia|exact Hinv'].
  - destruct (rotate_walInv n w w1 Hn Hinv Hrot) as (Hinv1 & _).
    apply (writeRecord_walLog w1 data nonce w' pos log); try assumption.
    + apply (walInv_mono n); [lia|exact Hinv1].
    + apply (walInv_mono n); [lia|exact Hinv'].
    + destruct Hinv as (_ & _ & _ & _ & _ & _ & _ & _ & _ & _ & Hi0 & Hi).
      apply (rotate_walLog w w1 log); try assumption. lia.
Qed.

(** A sequence of writes adds its records to the log, in order, each
    with the position returned for it. *)
Lemma writeMany_walLog records : forall w w' positions log,
  walInv (len records) w ->
  walLog w log ->
  Forall (fun r => len (fst r) < 2 ^ 31 /\ len (snd r) = nonceSize) records ->
  writeMany w records = (w', Ok positions) ->
  exists items,
    walLog w' (log ++ items)
    /\ map fst items = records /\ map snd items = positions.
Proof.
  induction records as [|[data nonce] records IH];
    intros w w' positions log Hinv Hlog Hall Hw.
  - cbn in Hw. injection Hw as <- <-. exists []. rewrite app_nil_r. auto.
  - cbn [writeMany] in Hw.
    destruct (Write w data nonce) as [w1 [pos|e| |]] eqn:HW; try discriminate.
    destruct (writeMany w1 records) as [w2 [ps|e| |]] eqn:HM; try discriminate.
    injection Hw as <- <-.
    inversion Hall as [|r rs [HD Hn12] Hall' Heq]; subst. cbn [fst snd] in HD, Hn12.
    rewrite len_cons in Hinv.
    assert (Hinv' : walInv (len records + 1) w)
      by (apply (walInv_mono (1 + len records)); [lia|exact Hinv]).
    pose proof (len_nonneg records) as Hl0.
    pose proof (Write_walInv (len records) w data nonce w1 pos Hl0 Hinv' HD
                  (or_introl Hn12) HW) as Hinv1.
    pose proof (Write_walLog (len records) w data nonce w1 pos log Hl0 Hinv' Hlog
                  HD Hn12 HW) as Hlog1.
    destruct (IH w1 w2 ps _ Hinv1 Hlog1 Hall' HM) as (items & Hl & Hf & Hs).
    exists ((data, nonce, pos) :: items).
    split; [rewrite <- app_assoc in Hl; exact Hl|].
    cbn [map fst snd]. rewrite Hf, Hs. auto.
Qed.

(** *** Iterating a reader *)

Lemma cursorAt_0 : cursorAt 0 = (0, 0).
Proof. reflexivity. Qed.

(** One call of [Reader.Next] on a reader that stands before [todo]:
    with nothing left it returns [io.EOF]; otherwise it returns the first
    record left, with its nonce and at its position, and stands before
    the rest. *)
Lemma readerNext_at pool fuel : forall r todo,
  readerAt r todo ->
  (length (segmentReaders r) - currentReader r < fuel)%nat ->
  match todo with
  | [] => snd (readerNext fuel pool r) = Err EOF
  | it :: todo' =>
      exists r' p,
        readerNext fuel pool r = (r', Ok (fst (fst it), snd (fst it), p))
        /\ samePlace p (snd it)
        /\ readerAt r' todo'
  end.
Proof.
  induction fuel as [|fuel IH]; intros r todo Hat Hfuel; [lia|].
  destruct Hat as (done & seg & off & cur & rest & dss & Hrs & Hcr & Hcl & Hst
                   & Hsz & Hlt & Hoff & Hh & Hid & Hg & Htodo & Hnum).
  destruct r as [readers nf cr vn].
  cbn [segmentReaders currentReader nonceReader valueNum] in *. subst readers cr.
  cbn [readerNext segmentReaders currentReader nonceReader valueNum].
  rewrite (list_lookup_middle done _ _ (length done) eq_refl).
  destruct cur as [|it cur].
  - (* the current segment is exhausted *)
    cbn [map segHolds app] in Hh, Htodo. subst off.
    rewrite <- Hsz.
    rewrite (segReaderNext_eof pool seg Hst Hcl) by (rewrite Hsz; apply len_nonneg).
    rewrite insert_app_r_alt by lia. rewrite Nat.sub_diag. cbn [insert list_insert].
    destruct rest as [|s1 rest].
    + apply Forall2_nil_inv_l in Hg as ->. cbn [concat] in Htodo. subst todo.
      destruct fuel as [|fuel];
        [rewrite length_app in Hfuel; cbn [length map] in Hfuel; lia|].
      cbn [readerNext segmentReaders currentReader map].
      rewrite lookup_ge_None_2; [reflexivity|].
      rewrite length_app. cbn [length]. lia.
    + apply Forall2_cons_inv_l in Hg as (d1 & dss' & Hg1 & Hg & ->).
      cbn [concat] in Htodo. cbn [map].
      rewrite cons_middle, app_assoc.
      apply (IH (mkReader
                   ((done ++ [mkSegmentReader seg (fst (cursorAt (Size seg)))
                                              (snd (cursorAt (Size seg)))])
                    ++ segNewReader s1 :: map segNewReader rest)
                   nf (S (length done)) vn) todo).
      * destruct Hg1 as (Hcl1 & Hst1 & Hsz1 & Hlt1 & Hh1 & Hid1).
        exists (done ++ [mkSegmentReader seg (fst (cursorAt (Size seg)))
                                         (snd (cursorAt (Size seg)))]),
               s1, 0, d1, rest, dss'.
        cbn [segmentReaders currentReader nonceReader valueNum].
        rewrite cursorAt_0. cbn [fst snd].
        split; [reflexivity|].
        split; [rewrite length_app; cbn [length]; lia|].
        repeat (split; [first [assumption|lia]|]). assumption.
      * cbn [segmentReaders currentReader].
        rewrite !length_app in *. cbn [length map] in *. lia.
  - (* a record of the current segment *)
    cbn [map app] in Hh, Htodo. subst todo.
    destruct it as [[d nonce] p].
    unfold itemCursor at 1 in Hh. cbn [fst snd segHolds] in Hh.
    destruct Hh as (Hbc & HD & pre & lg & post & Hch & HF & Hpre & Hh).
    cbn [fst snd] in Hch, Hpre.
    destruct Hnum as (Hv & Hvr & Hnl & Hns & Hnum). cbn [fst snd] in Hv, Hns.
    apply Forall_cons in Hid as [Hidp Hid']. cbn [snd] in Hidp.
    pose proof (cursorAt_range off Hoff) as (HB0 & Hc0 & _).
    rewrite <- Hbc in HB0, Hc0 |- *. cbn [fst snd] in HB0, Hc0 |- *.
    pose proof (len_nonneg post) as Hpo0.
    pose proof (len_nonneg (concat (map chunkBytes lg))) as Hlg0.
    assert (HBr : 0 <= BlockNumber p < 2 ^ 31 + 1).
    { split; [lia|].
      assert (len (fbytes (fd seg)) < 2 ^ 46) by lia.
      rewrite HF, !len_app, Hpre in H.
      change (2 ^ 46) with 70368744177664 in H.
      change (2 ^ 31) with 2147483648. unfold blockSize, KB in *. lia. }
    rewrite (segReaderNext_item pool seg (BlockNumber p) (ChunkOffset p) d pre lg post
               Hst Hcl Hsz Hch HF Hpre HBr ltac:(lia) HD).
    cbv zeta.
    rewrite insert_app_r_alt by lia. rewrite Nat.sub_diag. cbn [insert list_insert].
    cbn [segmentReaders currentReader nonceReader valueNum setValueNum
         SegmentId BlockNumber ChunkOffset ChunkSize ValueNum].
    assert (Hi64 : i64 (vn * nonceSize) = nonceSize * vn).
    { rewrite i64_id; unfold nonceSize; [lia|].
      change (2 ^ 59) with 576460752303423488 in Hvr.
      change (2 ^ 63) with 9223372036854775808. lia. }
    rewrite Hi64.
    rewrite fileReadAt_ok by (unfold nonceSize in *; lia).
    rewrite Hns.
    assert (Hn12 : len nonce = nonceSize).
    { rewrite <- Hns. rewrite len_slice; unfold nonceSize in *; lia. }
    rewrite Hn12, Z.eqb_refl. cbn [negb orb].
    rewrite bool_decide_eq_false_2 by (intros H; apply H; reflexivity).
    eexists _, _. split; [reflexivity|].
    split.
    { unfold samePlace.
      cbn [SegmentId BlockNumber ChunkOffset ValueNum snd]. auto. }
    assert (Hi1 : i64 (vn + 1) = vn + 1).
    { apply i64_id. change (2 ^ 59) with 576460752303423488 in Hvr.
      change (2 ^ 63) with 9223372036854775808. lia. }
    exists done, seg, (len pre + len (concat (map chunkBytes lg))), cur, rest, dss.
    cbn [segmentReaders currentReader nonceReader valueNum].
    rewrite Hi1.
    split; [reflexivity|].
    split; [reflexivity|].
    split; [exact Hcl|]. split; [exact Hst|]. split; [exact Hsz|].
    split; [exact Hlt|].
    split; [pose proof (len_nonneg pre); lia|].
    auto 10.
Qed.

Lemma numbered_concat items : forall pre bytes vn,
  bytes = pre ++ concat (map (fun it => snd (fst it)) items) ->
  len pre = nonceSize * vn -> 0 <= vn -> vn + len items < 2 ^ 59 ->
  Forall (fun it => len (snd (fst it)) = nonceSize) items ->
  (forall (i : nat) it, items !! i = Some it -> ValueNum (snd it) = vn + Z.of_nat i) ->
  numbered bytes vn items.
Proof.
  induction items as [|it items IH]; intros pre bytes vn Hb Hpre Hv Hlt H12 Hnum;
    [exact I|].
  apply Forall_cons in H12 as [Hn H12].
  rewrite len_cons in Hlt. pose proof (len_nonneg items) as Hl0.
  cbn [map concat] in Hb. cbn [numbered].
  split; [rewrite (Hnum O it eq_refl); lia|].
  split; [lia|].
  split.
  { rewrite Hb, !len_app, Hpre, Hn.
    pose proof (len_nonneg (concat (map (fun it => snd (fst it)) items))). lia. }
  split.
  { rewrite Hb. apply slice_app_mid; [lia|]. rewrite Hn. reflexivity. }
  apply (IH (pre ++ snd (fst it))).
  - rewrite Hb, <- app_assoc. reflexivity.
  - rewrite len_app, Hpre, Hn. unfold nonceSize. lia.
  - lia.
  - lia.
  - exact H12.
  - intros i it' Hi. rewrite (Hnum (S i) it' Hi). lia.
Qed.

Lemma filter_all {A} (P : A -> Prop) `{forall x, Decision (P x)} (l : list A) :
  (forall x, P x) -> filter P l = l.
Proof.
  intros HP. induction l as [|x l IH]; [reflexivity|].
  rewrite filter_cons_True by apply HP. rewrite IH. reflexivity.
Qed.

(** The reader of [NewReader] on a WAL with the log [log] stands before
    all of it: the segment readers are those of the older segments by
    ascending id, then that of the active segment. *)
Lemma NewReader_readerAt w log :
  walLog w log -> len log < 2 ^ 59 -> readerAt (NewReader w) log.
Proof.
  intros (olds & dss & Hp & Hk & Hs & Hg & Hlog & Hdir & Hnb & Hn12 & Hvn) Hlen.
  assert (Hrd : NewReader w
                = mkReader (map segNewReader (olds ++ [activeSegment w]))
                           (nonceFile_ w) O 0).
  { unfold NewReader, NewReaderWithMax. rewrite Z.eqb_refl. cbn [orb].
    rewrite filter_all by reflexivity. f_equal.
    apply sortReaders_sorted.
    - rewrite map_app. cbn [map]. apply Permutation_app; [|reflexivity].
      rewrite <- Hp, map_map. reflexivity.
    - apply (StronglySorted_fmap segNewReader (fun a b => id a < id b) ltId);
        [|exact Hs].
      intros x y H. exact H. }
  rewrite Hrd.
  assert (Hnum : numbered (fbytes (nfd (nonceFile_ w))) 0 log).
  { apply (numbered_concat log []).
    - exact Hnb.
    - reflexivity.
    - lia.
    - lia.
    - exact Hn12.
    - intros i it Hi. rewrite (Hvn i it Hi). lia. }
  destruct (olds ++ [activeSegment w]) as [|s0 rest] eqn:E;
    [destruct olds; discriminate|].
  apply Forall2_cons_inv_l in Hg as (d0 & dss' & Hg0 & Hg & ->).
  destruct Hg0 as (Hcl & Hst & Hsz & Hlt & Hh & Hid).
  exists [], s0, 0, d0, rest, dss'.
  rewrite cursorAt_0.
  cbn [segmentReaders currentReader nonceReader valueNum map app length fst snd].
  split; [reflexivity|]. split; [reflexivity|].
  repeat (split; [first [assumption|lia]|]). assumption.
Qed.

(** [Reader.Next] on a reader that stands before a record. *)
Lemma Next_item pool r it todo :
  readerAt r (it :: todo) ->
  exists r' p,
    Next pool r = (r', Ok (fst (fst it), snd (fst it), p))
    /\ samePlace p (snd it) /\ readerAt r' todo.
Proof.
  intros Hat. unfold Next.
  apply (readerNext_at pool _ r (it :: todo) Hat). lia.
Qed.

(** [Reader.Next] on a reader that stands at the end of the log. *)
Lemma Next_end pool r : readerAt r [] -> snd (Next pool r) = Err EOF.
Proof.
  intros Hat. unfold Next.
  apply (readerNext_at pool _ r [] Hat). lia.
Qed.

Lemma readAll_S fuel pool r :
  readAll (S fuel) pool r
  = match Next pool r with
    | (r, Ok item) =>
        match readAll fuel pool r with
        | Ok items => Ok (item :: items)
        | Err e => Err e
        | Panic => Panic
        | NoFuel => NoFuel
        end
    | (r, Err EOF) => Ok []
    | (r, Err e) => Err e
    | (r, Panic) => Panic
    | (r, NoFuel) => NoFuel
    end.
Proof. reflexivity. Qed.

(** Iterating to [io.EOF] yields what the reader stands before. *)
Lemma readAll_readerAt pool todo : forall r,
  readerAt r todo ->
  exists items,
    readAll (S (length todo)) pool r = Ok items
    /\ map fst items = map fst todo
    /\ Forall2 samePlace (map snd items) (map snd todo).
Proof.
  induction todo as [|it todo IH]; intros r Hat.
  - exists []. pose proof (Next_end pool r Hat) as He.
    cbn [length]. rewrite readAll_S.
    destruct (Next pool r) as [r' res]. cbn [snd] in He.
    subst res. repeat split. constructor.
  - destruct (Next_item pool r it todo Hat) as (r' & p & Hn & Hsp & Hat').
    destruct (IH r' Hat') as (items & Hr & Hf & Hs).
    exists ((fst (fst it), snd (fst it), p) :: items).
    change (length (it :: todo)) with (S (length todo)).
    rewrite readAll_S, Hn, Hr.
    cbn [map fst snd]. rewrite Hf.
    split; [reflexivity|].
    split; [destruct it as [[d n] q]; reflexivity|].
    constructor; assumption.
Qed.

(** X10.  Iteration returns the log.  On a newly created WAL, after any
    sequence of successful [Write]s of records below 2 GiB with 12-byte
    nonces, a reader made by [NewReader] and asked for [Next] until
    [io.EOF] yields exactly the records written, in the order of
    writing and through all the segments the writes rotated to, each
    with its nonce and with the position [Write] returned for it (up to
    [ChunkSize], which a reader only estimates). *)
Theorem NewReader_reads_all pool o records w positions :
  SegmentSize o <= 2 ^ 45 ->
  len records + 1 < 2 ^ 32 ->
  Forall (fun r => len (fst r) < 2 ^ 31 /\ len (snd r) = nonceSize) records ->
  writeMany (freshWAL o) records = (w, Ok positions) ->
  exists items,
    readAll (S (length records)) pool (NewReader w) = Ok items
    /\ map fst items = records
    /\ Forall2 samePlace (map snd items) positions.
Proof.
  intros Hss Hn Hall Hw.
  pose proof (len_nonneg records) as Hl0.
  pose proof (walInv_fresh (len records) o Hss Hl0 Hn) as Hinv.
  destruct (writeMany_walLog records (freshWAL o) w positions [] Hinv
              (walLog_fresh o) Hall Hw) as (log & Hlog & Hf & Hs).
  cbn [app] in Hlog.
  assert (Hlen : length log = length records)
    by (rewrite <- Hf, length_map; reflexivity).
  assert (Hat : readerAt (NewReader w) log).
  { apply NewReader_readerAt; [exact Hlog|].
    unfold len in *. rewrite Hlen.
    change (2 ^ 32) with 4294967296 in Hn.
    change (2 ^ 59) with 576460752303423488. lia. }
  destruct (readAll_readerAt pool log (NewReader w) Hat) as (items & Hr & Hfi & Hsi).
  exists items. rewrite <- Hlen.
  split; [exact Hr|].
  split; [rewrite Hfi; exact Hf|].
  rewrite <- Hs. exact Hsi.
Qed.

Lemma NewReader_reads_all_witness :
  exists items,
    readAll 3 [] (NewReader (fst (writeMany (freshWAL smallOptions)
                                    [(repeat 65 40, nonceA); (repeat 66 40, nonceB)])))
    = Ok items
    /\ map fst items = [(repeat 65 40, nonceA); (repeat 66 40, nonceB)]
    /\ Forall2 samePlace (map snd items) [mkPos 1 0 0 47 0; mkPos 2 0 0 47 1].
Proof.
  apply (NewReader_reads_all [] smallOptions
           [(repeat 65 40, nonceA); (repeat 66 40, nonceB)]
           (fst (writeMany (freshWAL smallOptions)
                   [(repeat 65 40, nonceA); (repeat 66 40, nonceB)]))
           [mkPos 1 0 0 47 0; mkPos 2 0 0 47 1]).
  - vm_compute. discriminate.
  - vm_compute. reflexivity.
  - repeat constructor.
  - apply with_fst. vm_compute. reflexivity.
Defined.
